(** * Consensus core of the hybrid PoW/PoS ledger: a shallow embedding

    The development follows the C++ sources under [cpp-core]:
    - [crypto/crypto.cpp]: [SHA256], [MerkleTree];
    - [consensus/consensus.cpp]: [ProofOfWorkMiner], [DifficultyAdjustment],
      [BlockValidator];
    - [blockchain/block.cpp]: [BlockHeader::get_target],
      [BlockHeader::meets_difficulty_target], [Block::calculate_merkle_root];
    - [consensus/hybrid_consensus.cpp]: [HybridConsensusEngine];
    - [blockchain/transaction.hpp]: the [UTXOSet] interface.

    Fixed-width unsigned integers are integers of [Z] with the wrap-around
    written out; byte strings are lists of integers below 256. *)

From Stdlib Require Import ZArith List Lia Bool Sorted.
From Stdlib Require Import Floats.SpecFloat.
From stdpp Require Import gmap list.

Local Open Scope Z_scope.

(** ** Machine integers *)

Definition u8 (x : Z) : Z := x mod 2 ^ 8.
Definition u32 (x : Z) : Z := x mod 2 ^ 32.
Definition u64 (x : Z) : Z := x mod 2 ^ 64.

Definition UINT32_MAX : Z := 2 ^ 32 - 1.
Definition UINT64_MAX : Z := 2 ^ 64 - 1.

(** A byte string ([std::vector<uint8_t>], [std::string]). *)
Abbreviation bytes := (list Z).

(** [Hash256 = std::array<uint8_t, 32>]. *)
Abbreviation Hash256 := (list Z).

(** [Hash256{}]: thirty-two zero bytes. *)
Definition Hash256_zero : Hash256 := repeat 0 32.

Definition is_byte (b : Z) : Prop := 0 <= b < 256.

(** [write_uint32_le] / the in-memory image of a [uint32_t] on a
    little-endian machine. *)
Definition le_bytes (n : nat) (v : Z) : bytes :=
  map (fun i => Z.land (Z.shiftr v (8 * Z.of_nat i)) 255) (seq 0 n).

Definition write_uint32_le (v : Z) : bytes := le_bytes 4 v.
Definition write_uint64_le (v : Z) : bytes := le_bytes 8 v.

(** ** SHA-256

    [SHA256::hash] hands its input to OpenSSL's [SHA256_Init],
    [SHA256_Update], [SHA256_Final]; the function computed there is the one
    of FIPS 180-4, which is written out here so that digests can be
    evaluated. *)
Module SHA256.

Definition rotr (n x : Z) : Z :=
  Z.lor (Z.shiftr x n) (u32 (Z.shiftl x (32 - n))).

Definition Ch (x y z : Z) : Z :=
  Z.lxor (Z.land x y) (Z.land (Z.lxor x UINT32_MAX) z).
Definition Maj (x y z : Z) : Z :=
  Z.lxor (Z.lxor (Z.land x y) (Z.land x z)) (Z.land y z).
Definition Sigma0 (x : Z) : Z :=
  Z.lxor (Z.lxor (rotr 2 x) (rotr 13 x)) (rotr 22 x).
Definition Sigma1 (x : Z) : Z :=
  Z.lxor (Z.lxor (rotr 6 x) (rotr 11 x)) (rotr 25 x).
Definition sigma0 (x : Z) : Z :=
  Z.lxor (Z.lxor (rotr 7 x) (rotr 18 x)) (Z.shiftr x 3).
Definition sigma1 (x : Z) : Z :=
  Z.lxor (Z.lxor (rotr 17 x) (rotr 19 x)) (Z.shiftr x 10).

(** The constants of the standard are fractional parts of roots of the
    first primes: [K] holds the first 32 bits of the fractional parts of the
    cube roots of the first 64 primes, [H0] those of the square roots of
    the first 8. *)
Definition is_prime (p : Z) : bool :=
  (2 <=? p)
  && forallb (fun d => negb (p mod Z.of_nat d =? 0) || (p <=? Z.of_nat d))
       (seq 2 18).

(** The primes below 312: there are 64 of them, and 18 * 18 > 312. *)
Definition primes : list Z :=
  filter is_prime (map Z.of_nat (seq 2 310)).

(** The integer cube root, bit by bit from bit [bits - 1] down. *)
Fixpoint cube_root (bits : nat) (n r : Z) : Z :=
  match bits with
  | O => r
  | S b =>
      let c := r + 2 ^ Z.of_nat b in
      if c * c * c <=? n then cube_root b n c else cube_root b n r
  end.

Definition K : list Z :=
  Eval vm_compute in map (fun p => u32 (cube_root 40 (p * 2 ^ 96) 0)) primes.

(** The eight working words. *)
Record state := mkState {
  sa : Z; sb : Z; sc : Z; sd : Z; se : Z; sf : Z; sg : Z; sh : Z }.

Definition root_word (i : nat) : Z :=
  u32 (Z.sqrt (nth i primes 0 * 2 ^ 64)).

Definition H0 : state :=
  Eval vm_compute in
    mkState (root_word 0) (root_word 1) (root_word 2) (root_word 3)
            (root_word 4) (root_word 5) (root_word 6) (root_word 7).

(** Padding: a one bit, zeros up to 56 modulo 64, the bit length on eight
    big-endian bytes. *)
Definition pad (m : bytes) : bytes :=
  let len := Z.of_nat (length m) in
  let zeros := Z.to_nat ((55 - len) mod 64) in
  m ++ [128] ++ repeat 0 zeros ++ rev (le_bytes 8 (8 * len)).

Fixpoint be_words (bs : bytes) : list Z :=
  match bs with
  | b0 :: b1 :: b2 :: b3 :: rest =>
      (b0 * 2 ^ 24 + b1 * 2 ^ 16 + b2 * 2 ^ 8 + b3) :: be_words rest
  | _ => []
  end.

(** The message schedule, most recent word first. *)
Fixpoint schedule (n : nat) (w : list Z) : list Z :=
  match n with
  | O => w
  | S n' =>
      let x := u32 (sigma1 (nth 1 w 0) + nth 6 w 0
                    + sigma0 (nth 14 w 0) + nth 15 w 0) in
      schedule n' (x :: w)
  end.

Definition round (s : state) (kw : Z * Z) : state :=
  let t1 := u32 (sh s + Sigma1 (se s) + Ch (se s) (sf s) (sg s) + fst kw + snd kw) in
  let t2 := u32 (Sigma0 (sa s) + Maj (sa s) (sb s) (sc s)) in
  mkState (u32 (t1 + t2)) (sa s) (sb s) (sc s) (u32 (sd s + t1)) (se s) (sf s) (sg s).

Definition compress (s : state) (block : bytes) : state :=
  let w := rev (schedule 48 (rev (be_words block))) in
  let r := fold_left round (combine K w) s in
  mkState (u32 (sa s + sa r)) (u32 (sb s + sb r)) (u32 (sc s + sc r))
          (u32 (sd s + sd r)) (u32 (se s + se r)) (u32 (sf s + sf r))
          (u32 (sg s + sg r)) (u32 (sh s + sh r)).

Fixpoint blocks (fuel : nat) (bs : bytes) (s : state) : state :=
  match fuel with
  | O => s
  | S fuel' =>
      match bs with
      | [] => s
      | _ => blocks fuel' (skipn 64 bs) (compress s (firstn 64 bs))
      end
  end.

Definition be_word_bytes (w : Z) : bytes := rev (le_bytes 4 w).

Definition digest (s : state) : Hash256 :=
  flat_map be_word_bytes [sa s; sb s; sc s; sd s; se s; sf s; sg s; sh s].

(** [SHA256::hash]. *)
Definition hash (m : bytes) : Hash256 :=
  let p := pad m in digest (blocks (length p) p H0).

(** [SHA256::double_hash]: SHA256(SHA256(x)). *)
Definition double_hash (m : bytes) : Hash256 := hash (hash m).

End SHA256.

(** ** Merkle tree ([crypto.cpp]) *)
Module MerkleTree.

(** The body of the [for] loop of [build_tree]: the parent of the pair that
    starts at index [i]; the last hash is paired with itself when the level
    has odd length. *)
Definition combined_hash (current_level : list Hash256) (i : nat) : Hash256 :=
  if (i + 1 <? length current_level)%nat
  then SHA256.hash (nth i current_level Hash256_zero
                    ++ nth (i + 1) current_level Hash256_zero)
  else SHA256.hash (nth i current_level Hash256_zero
                    ++ nth i current_level Hash256_zero).

(** [for (size_t i = 0; i < current_level.size(); i += 2)]. *)
Fixpoint level_loop (fuel : nat) (current_level : list Hash256) (i : nat)
    (next_level : list Hash256) : list Hash256 :=
  match fuel with
  | O => next_level
  | S fuel' =>
      if (i <? length current_level)%nat
      then level_loop fuel' current_level (i + 2)
             (next_level ++ [combined_hash current_level i])
      else next_level
  end.

Definition next_level (current_level : list Hash256) : list Hash256 :=
  level_loop (length current_level) current_level 0 [].

(** [while (levels_.back().size() > 1)] of [build_tree], on [levels_]. *)
Fixpoint build_tree (fuel : nat) (levels_ : list (list Hash256))
    : list (list Hash256) :=
  match fuel with
  | O => levels_
  | S fuel' =>
      if (1 <? length (List.last levels_ []))%nat
      then build_tree fuel' (levels_ ++ [next_level (List.last levels_ [])])
      else levels_
  end.

(** The constructor: [levels_] of the tree over [leaf_hashes].  Every turn
    of the loop at least halves a level of two or more hashes, so as many
    turns as there are leaves are enough (see [levels_from_top]). *)
Definition make (leaf_hashes : list Hash256) : list (list Hash256) :=
  match leaf_hashes with
  | [] => []
  | _ => build_tree (length leaf_hashes) [leaf_hashes]
  end.

Definition get_root (levels_ : list (list Hash256)) : Hash256 :=
  match levels_ with
  | [] => Hash256_zero
  | _ => match List.last levels_ [] with
         | [] => Hash256_zero
         | h :: _ => h
         end
  end.

(** One turn of the loop of [get_proof]. *)
Definition proof_node (current_level : list Hash256) (current_index : nat)
    : Hash256 :=
  let sibling_index :=
    if (current_index mod 2 =? 0)%nat
    then (current_index + 1)%nat else (current_index - 1)%nat in
  if (sibling_index <? length current_level)%nat
  then nth sibling_index current_level Hash256_zero
  else nth current_index current_level Hash256_zero.

(** [for (size_t level = 0; level < levels_.size() - 1; ++level)]. *)
Fixpoint proof_loop (fuel : nat) (levels_ : list (list Hash256))
    (level current_index : nat) (proof : list Hash256) : list Hash256 :=
  match fuel with
  | O => proof
  | S fuel' =>
      if (level <? length levels_ - 1)%nat
      then proof_loop fuel' levels_ (level + 1) (current_index / 2)%nat
             (proof ++ [proof_node (nth level levels_ []) current_index])
      else proof
  end.

Definition get_proof (levels_ : list (list Hash256)) (leaf_index : nat)
    : list Hash256 :=
  match levels_ with
  | [] => []
  | leaves :: _ =>
      if (length leaves <=? leaf_index)%nat then []
      else proof_loop (length levels_) levels_ 0 leaf_index []
  end.

(** One turn of the loop of [verify_proof], on
    [(current_hash, current_index)]. *)
Definition verify_step (st : Hash256 * nat) (proof_hash : Hash256)
    : Hash256 * nat :=
  let '(current_hash, current_index) := st in
  (if (current_index mod 2 =? 0)%nat
   then SHA256.hash (current_hash ++ proof_hash)
   else SHA256.hash (proof_hash ++ current_hash),
   (current_index / 2)%nat).

(** [tree_size] is not read by the function. *)
Definition verify_proof (leaf_hash : Hash256) (proof : list Hash256)
    (root : Hash256) (leaf_index tree_size : nat) : bool :=
  bool_decide (fst (fold_left verify_step proof (leaf_hash, leaf_index)) = root).

(** The levels from [current_level] upwards, as a recursion on the level:
    what [build_tree] appends after it (see [build_tree_levels_from]). *)
Fixpoint levels_from (fuel : nat) (current_level : list Hash256)
    : list (list Hash256) :=
  match fuel with
  | O => [current_level]
  | S fuel' =>
      if (1 <? length current_level)%nat
      then current_level :: levels_from fuel' (next_level current_level)
      else [current_level]
  end.

(** The proof of a leaf read off a list of levels, bottom level first. *)
Fixpoint proof_from (levels : list (list Hash256)) (current_index : nat)
    : list Hash256 :=
  match levels with
  | current_level :: ((_ :: _) as upper) =>
      proof_node current_level current_index
        :: proof_from upper (current_index / 2)%nat
  | _ => []
  end.

End MerkleTree.

(** ** Hexadecimal strings and constant-time comparison
    ([crypto.cpp], namespace [utils])

    A [std::string] is the list of its character codes. *)
Module utils.

(** ["0123456789abcdef"]. *)
Definition hex_chars : bytes :=
  Eval vm_compute in map Z.of_nat (seq 48 10 ++ seq 97 6).

(** [to_hex]: two characters per byte, the high nibble first. *)
Definition to_hex (data : bytes) : bytes :=
  flat_map
    (fun byte => [nth (Z.to_nat (Z.shiftr byte 4)) hex_chars 0;
                  nth (Z.to_nat (Z.land byte 0x0F)) hex_chars 0])
    data.

(** The lambda [hex_to_nibble] of [from_hex]. *)
Definition hex_to_nibble (c : Z) : option Z :=
  if (48 <=? c) && (c <=? 57) then Some (c - 48)
  else if (97 <=? c) && (c <=? 102) then Some (c - 97 + 10)
  else if (65 <=? c) && (c <=? 70) then Some (c - 65 + 10)
  else None.

(** [for (size_t i = 0; i < hex.length(); i += 2)] on a string of even
    length: the characters [hex[i]], [hex[i + 1]] two by two. *)
Fixpoint from_hex_loop (hex : bytes) (acc : bytes) : option bytes :=
  match hex with
  | high :: low :: rest =>
      match hex_to_nibble high, hex_to_nibble low with
      | Some high_nibble, Some low_nibble =>
          from_hex_loop rest
            (acc ++ [u8 (Z.lor (Z.shiftl high_nibble 4) low_nibble)])
      | _, _ => None
      end
  | _ => Some acc
  end.

Definition from_hex (hex : bytes) : option bytes :=
  if negb (length hex mod 2 =? 0)%nat then None else from_hex_loop hex [].

Definition hash256_from_hex (hex : bytes) : option Hash256 :=
  match from_hex hex with
  | Some bs => if negb (length bs =? 32)%nat then None else Some bs
  | None => None
  end.

(** [secure_compare]: the exclusive-ors of the bytes accumulated in one
    [uint8_t]. *)
Definition secure_compare (a b : bytes) : bool :=
  if negb (length a =? length b)%nat then false
  else
    fold_left (fun result ab => u8 (Z.lor result (Z.lxor (fst ab) (snd ab))))
      (combine a b) 0
    =? 0.

End utils.

(** ** Base58 ([crypto.cpp]) *)
Module Base58.

(** ["123456789ABCDEFGHJKLMNPQRSTUVWXYZabcdefghijkmnopqrstuvwxyz"]: the
    digits and letters without [0], [O], [I] and [l]. *)
Definition BASE58_ALPHABET : bytes :=
  Eval vm_compute in
    map Z.of_nat
      (seq 49 9 ++ seq 65 8 ++ seq 74 5 ++ seq 80 11 ++ seq 97 11 ++ seq 109 14).

(** [while (n < s.size() && s[n] == c) n++]. *)
Fixpoint count_leading (c : Z) (s : bytes) : nat :=
  match s with
  | x :: s' => if x =? c then S (count_leading c s') else O
  | [] => O
  end.

(** The [for] loop of [encode]: one long division of [temp] by 58, the
    quotient left in [temp] and the remainder in [carry] (a [uint32_t]). *)
Fixpoint divide58 (temp : bytes) (carry : Z) : bytes * Z :=
  match temp with
  | [] => ([], carry)
  | b :: rest =>
      let carry := u32 (carry * 256 + b) in
      let '(quotient, remainder) := divide58 rest (carry mod 58) in
      (u8 (carry / 58) :: quotient, remainder)
  end.

(** [while (!temp.empty() && temp[0] == 0) temp.erase(temp.begin())]. *)
Fixpoint strip_zeros (temp : bytes) : bytes :=
  match temp with
  | 0 :: rest => strip_zeros rest
  | _ => temp
  end.

(** [while (!temp.empty())] of [encode]. *)
Fixpoint encode_loop (fuel : nat) (temp result : bytes) : bytes :=
  match fuel with
  | O => result
  | S fuel' =>
      match temp with
      | [] => result
      | _ =>
          let '(quotient, carry) := divide58 temp 0 in
          encode_loop fuel' (strip_zeros quotient)
            (nth (Z.to_nat carry) BASE58_ALPHABET 0 :: result)
      end
  end.

(** [encode].  A turn of the loop divides the number that [temp] holds by
    58, and a byte gives at most two digits: twice the length of [temp] is
    fuel enough (see [encode_fuel]). *)
Definition encode (data : bytes) : bytes :=
  match data with
  | [] => []
  | _ =>
      let leading_zeros := count_leading 0 data in
      let temp := skipn leading_zeros data in
      repeat 49 leading_zeros ++ encode_loop (2 * length temp) temp []
  end.

(** [strchr(BASE58_ALPHABET, c) - BASE58_ALPHABET]: the first position of
    [c] in the string, its terminating zero included. *)
Fixpoint index_of (c : Z) (s : bytes) (i : Z) : option Z :=
  match s with
  | [] => None
  | x :: s' => if x =? c then Some i else index_of c s' (i + 1)
  end.

Definition strchr (c : Z) : option Z := index_of c (BASE58_ALPHABET ++ [0]) 0.

(** The inner [for] loop of [decode] over [temp], a vector of [uint32_t]
    that holds the bytes of the number, the least significant first. *)
Fixpoint multiply58 (temp : list Z) (carry : Z) : list Z * Z :=
  match temp with
  | [] => ([], carry)
  | t :: rest =>
      let carry := u32 (carry + u32 (t * 58)) in
      let '(temp', carry') := multiply58 rest (Z.shiftr carry 8) in
      (Z.land carry 0xFF :: temp', carry')
  end.

(** [while (carry > 0) { temp.push_back(carry & 0xFF); carry >>= 8; }]: a
    32-bit carry is gone after four turns. *)
Fixpoint push_carry (fuel : nat) (carry : Z) : list Z :=
  match fuel with
  | O => []
  | S fuel' =>
      if 0 <? carry
      then Z.land carry 0xFF :: push_carry fuel' (Z.shiftr carry 8)
      else []
  end.

(** The outer [for] loop of [decode], from [leading_ones] on. *)
Fixpoint decode_loop (encoded : bytes) (temp : list Z) : option (list Z) :=
  match encoded with
  | [] => Some temp
  | c :: rest =>
      match strchr c with
      | None => None
      | Some digit =>
          let '(temp', carry) := multiply58 temp digit in
          decode_loop rest (temp' ++ push_carry 4 carry)
      end
  end.

Definition decode (encoded : bytes) : option bytes :=
  match encoded with
  | [] => Some []
  | _ =>
      let leading_ones := count_leading 49 encoded in
      match decode_loop (skipn leading_ones encoded) [] with
      | None => None
      | Some temp => Some (repeat 0 leading_ones ++ map u8 (rev temp))
      end
  end.

(** [encode_check]: the first four bytes of the double SHA-256 appended. *)
Definition encode_check (data : bytes) : bytes :=
  encode (data ++ firstn 4 (SHA256.double_hash data)).

(** [decode_check]; [std::equal] compares the four bytes of the checksum
    with the start of the hash. *)
Definition decode_check (encoded : bytes) : option bytes :=
  match decode encoded with
  | None => None
  | Some decoded =>
      if (length decoded <? 4)%nat then None
      else
        let data := firstn (length decoded - 4) decoded in
        let checksum := skipn (length decoded - 4) decoded in
        let hash := SHA256.double_hash data in
        if negb (bool_decide (checksum = firstn 4 hash)) then None
        else Some data
  end.

End Base58.

(** ** Transactions and blocks ([transaction.cpp], [block.cpp]) *)

Definition write_varint (value : Z) : bytes :=
  if value <? 0xFD then [u8 value]
  else if value <=? 0xFFFF then 0xFD :: le_bytes 2 value
  else if value <=? 0xFFFFFFFF then 0xFE :: le_bytes 4 value
  else 0xFF :: le_bytes 8 value.

Definition write_bytes (bs : bytes) : bytes :=
  write_varint (Z.of_nat (length bs)) ++ bs.

Record TxInput := mkTxInput {
  prev_tx_hash : Hash256;
  prev_output_index : Z;
  script_sig : bytes;
  sequence : Z }.

Record TxOutput := mkTxOutput {
  value : Z;
  script_pubkey : bytes }.

(** The fields read by the legacy serialization, and the memoized hash. *)
Record Transaction := mkTransaction {
  tx_version : Z;
  inputs : list TxInput;
  outputs : list TxOutput;
  locktime : Z;
  cached_hash : option Hash256 }.

Definition TxInput_serialize (i : TxInput) : bytes :=
  prev_tx_hash i ++ write_uint32_le (prev_output_index i)
  ++ write_bytes (script_sig i) ++ write_uint32_le (sequence i).

Definition TxOutput_serialize (o : TxOutput) : bytes :=
  write_uint64_le (value o) ++ write_bytes (script_pubkey o).

Definition serialize_legacy (tx : Transaction) : bytes :=
  write_uint32_le (tx_version tx)
  ++ write_varint (Z.of_nat (length (inputs tx)))
  ++ flat_map TxInput_serialize (inputs tx)
  ++ write_varint (Z.of_nat (length (outputs tx)))
  ++ flat_map TxOutput_serialize (outputs tx)
  ++ write_uint32_le (locktime tx).

(** [Transaction::get_hash]: the memoized value when there is one. *)
Definition get_hash (tx : Transaction) : Hash256 :=
  match cached_hash tx with
  | Some h => h
  | None => SHA256.double_hash (serialize_legacy tx)
  end.

Definition TxInput_is_coinbase (i : TxInput) : bool :=
  bool_decide (prev_tx_hash i = Hash256_zero) && (prev_output_index i =? 0xFFFFFFFF).

Definition is_coinbase (tx : Transaction) : bool :=
  match inputs tx with
  | [i] => TxInput_is_coinbase i
  | _ => false
  end.

Record BlockHeader := mkBlockHeader {
  version : Z;
  prev_block_hash : Hash256;
  merkle_root : Hash256;
  timestamp : Z;
  difficulty_target : Z;
  nonce : Z }.

Record Block := mkBlock {
  header : BlockHeader;
  transactions : list Transaction;
  cached_merkle : option Hash256 }.

(** [Block::calculate_merkle_root]. *)
Definition calculate_merkle_root (b : Block) : Hash256 :=
  match cached_merkle b with
  | Some r => r
  | None =>
      match transactions b with
      | [] => Hash256_zero
      | _ => MerkleTree.get_root (MerkleTree.make (map get_hash (transactions b)))
      end
  end.

(** ** Reading serialized data ([transaction.cpp], [block.cpp])

    The readers take the data and an offset (a [size_t], passed by
    reference in the sources) and give a value and the offset after it. *)
Module Reader.

(** The result of a read: a value and the new offset; [std::nullopt]; or
    [Undefined], when the 64-bit sum of the bounds test wraps around, the
    test passes and the access that follows is outside the data. *)
Inductive outcome (A : Type) : Type :=
| Value (a : A) (offset : Z)
| Nullopt
| Undefined.
Arguments Value {A} a offset.
Arguments Nullopt {A}.
Arguments Undefined {A}.

Definition bind {A B : Type} (r : outcome A) (k : A -> Z -> outcome B)
    : outcome B :=
  match r with
  | Value a offset => k a offset
  | Nullopt => Nullopt
  | Undefined => Undefined
  end.

Notation "'let**' ( x , o ) := r 'in' k" := (bind r (fun x o => k))
  (at level 10, x name, o name, r at level 100, k at level 200).

Definition size (data : bytes) : Z := Z.of_nat (length data).

(** [data[i]]: no value outside the data. *)
Definition at_ (data : bytes) (i : Z) : option Z :=
  if (0 <=? i) && (i <? size data) then nth_error data (Z.to_nat i) else None.

(** [for (int i = 0; i < n; ++i) value |= (...)data[offset + i] << (i * 8)];
    a byte shifted by at most 24 (56) bits fits the 32 (64) bits of
    [value]. *)
Fixpoint read_le_loop (data : bytes) (offset : Z) (n : nat) (i : Z) (value : Z)
    : option Z :=
  match n with
  | O => Some value
  | S n' =>
      match at_ data (u64 (offset + i)) with
      | None => None
      | Some b =>
          read_le_loop data offset n' (i + 1) (Z.lor value (Z.shiftl b (i * 8)))
      end
  end.

(** [if (offset + n > data.size()) return std::nullopt;] and the loop. *)
Definition read_le (n : nat) (data : bytes) (offset : Z) : outcome Z :=
  if size data <? u64 (offset + Z.of_nat n) then Nullopt
  else
    match read_le_loop data offset n 0 0 with
    | Some value => Value value (u64 (offset + Z.of_nat n))
    | None => Undefined
    end.

Definition read_uint32_le : bytes -> Z -> outcome Z := read_le 4.
Definition read_uint64_le : bytes -> Z -> outcome Z := read_le 8.

Definition read_varint (data : bytes) (offset : Z) : outcome Z :=
  if size data <=? offset then Nullopt
  else
    match at_ data offset with
    | None => Undefined
    | Some first =>
        let offset := u64 (offset + 1) in
        if first <? 0xFD then Value first offset
        else if first =? 0xFD then
          if size data <? u64 (offset + 2) then Nullopt
          else
            match at_ data offset, at_ data (u64 (offset + 1)) with
            | Some b0, Some b1 =>
                Value (Z.lor b0 (Z.shiftl b1 8)) (u64 (offset + 2))
            | _, _ => Undefined
            end
        else if first =? 0xFE then read_le 4 data offset
        else read_le 8 data offset
    end.

(** The copy of the [n] bytes from [offset] on, behind the test
    [offset + n > data.size()]. *)
Definition read_range (n : Z) (data : bytes) (offset : Z) : outcome bytes :=
  if size data <? u64 (offset + n) then Nullopt
  else if offset + n <=? size data
       then Value (firstn (Z.to_nat n) (skipn (Z.to_nat offset) data))
              (u64 (offset + n))
       else Undefined.

Definition read_bytes (data : bytes) (offset : Z) : outcome bytes :=
  let** (length, offset) := read_varint data offset in
  read_range length data offset.

End Reader.

(** [TxInput::deserialize]. *)
Definition TxInput_deserialize (data : bytes) (offset : Z)
    : Reader.outcome TxInput :=
  Reader.bind (Reader.read_range 32 data offset) (fun prev_tx_hash offset =>
  Reader.bind (Reader.read_uint32_le data offset) (fun prev_index offset =>
  Reader.bind (Reader.read_bytes data offset) (fun script offset =>
  Reader.bind (Reader.read_uint32_le data offset) (fun seq offset =>
  Reader.Value (mkTxInput prev_tx_hash prev_index script seq) offset)))).

(** The size of the varint that [get_serialized_size] adds for a length. *)
Definition varint_size (n : Z) : Z :=
  if n <? 0xFD then 1
  else if n <=? 0xFFFF then 3
  else if n <=? 0xFFFFFFFF then 5
  else 9.

(** [TxInput::get_serialized_size], a [size_t]. *)
Definition TxInput_get_serialized_size (i : TxInput) : Z :=
  let size := 32 + 4 + 4 in
  let size := u64 (size + Z.of_nat (length (script_sig i))) in
  u64 (size + varint_size (Z.of_nat (length (script_sig i)))).

(** [TxInput::create_coinbase]. *)
Definition create_coinbase (coinbase_data : bytes) : TxInput :=
  mkTxInput Hash256_zero 0xFFFFFFFF coinbase_data 0xFFFFFFFF.

(** [TxOutput::deserialize]. *)
Definition TxOutput_deserialize (data : bytes) (offset : Z)
    : Reader.outcome TxOutput :=
  Reader.bind (Reader.read_uint64_le data offset) (fun val offset =>
  Reader.bind (Reader.read_bytes data offset) (fun script offset =>
  Reader.Value (mkTxOutput val script) offset)).

(** [TxOutput::get_serialized_size]. *)
Definition TxOutput_get_serialized_size (o : TxOutput) : Z :=
  let size := 8 in
  let size := u64 (size + Z.of_nat (length (script_pubkey o))) in
  u64 (size + varint_size (Z.of_nat (length (script_pubkey o)))).

Definition DUST_THRESHOLD : Z := 546.
Definition MAX_TRANSACTION_SIZE : Z := 100000.

(** [TxOutput::is_valid]. *)
Definition TxOutput_is_valid (o : TxOutput) : bool :=
  (0 <? value o) && (DUST_THRESHOLD <=? value o)
  && negb (bool_decide (script_pubkey o = [])).

(** [TxOutput::get_address]: the two standard script forms. *)
Definition get_address (o : TxOutput) : option bytes :=
  let s := script_pubkey o in
  if (length s =? 25)%nat && (nth 0 s 0 =? 0x76) && (nth 1 s 0 =? 0xa9)
     && (nth 2 s 0 =? 0x14) && (nth 23 s 0 =? 0x88) && (nth 24 s 0 =? 0xac)
  then
    let hash160 := firstn 20 (skipn 3 s) in
    Some (Base58.encode_check ([0x00] ++ hash160))
  else if (length s =? 23)%nat && (nth 0 s 0 =? 0xa9) && (nth 1 s 0 =? 0x14)
          && (nth 22 s 0 =? 0x87)
  then
    let hash160 := firstn 20 (skipn 2 s) in
    Some (Base58.encode_check ([0x05] ++ hash160))
  else None.

(** [TxOutput::create_p2pkh]: an output without script when the address
    does not decode to a version byte 0 and twenty bytes. *)
Definition create_p2pkh (value : Z) (address : bytes) : TxOutput :=
  match Base58.decode_check address with
  | None => mkTxOutput value []
  | Some decoded =>
      if negb (length decoded =? 21)%nat || negb (nth 0 decoded 0 =? 0x00)
      then mkTxOutput value []
      else
        let hash160 := skipn 1 decoded in
        mkTxOutput value ([0x76; 0xa9; 0x14] ++ hash160 ++ [0x88; 0xac])
  end.

(** [TxOutput::create_p2sh]: the first twenty bytes of the script hash. *)
Definition create_p2sh (value : Z) (script_hash : Hash256) : TxOutput :=
  let hash160 := firstn 20 script_hash in
  mkTxOutput value ([0xa9; 0x14] ++ hash160 ++ [0x87]).

(** [TxWitness]; the witnesses of a transaction (the member [witnesses],
    one per input) are passed beside the record [Transaction], which holds
    what the legacy form reads. *)
Record TxWitness := mkTxWitness { witness_items : list bytes }.

Definition TxWitness_serialize (w : TxWitness) : bytes :=
  write_varint (Z.of_nat (length (witness_items w)))
  ++ flat_map write_bytes (witness_items w).

Definition TxWitness_get_serialized_size (w : TxWitness) : Z :=
  fold_left
    (fun size item =>
       let size := u64 (size + Z.of_nat (length item)) in
       u64 (size + varint_size (Z.of_nat (length item))))
    (witness_items w)
    (varint_size (Z.of_nat (length (witness_items w)))).

Definition TxWitness_is_empty (w : TxWitness) : bool :=
  bool_decide (witness_items w = [])
  || forallb (fun item => bool_decide (item = [])) (witness_items w).

(** [Transaction::is_segwit]. *)
Definition is_segwit (witnesses : list TxWitness) : bool :=
  negb (bool_decide (witnesses = []))
  && existsb (fun w => negb (TxWitness_is_empty w)) witnesses.

(** [Transaction::serialize]: with the marker, the flag and the witness
    data when the transaction has a witness. *)
Definition serialize (tx : Transaction) (witnesses : list TxWitness) : bytes :=
  let has_witness := is_segwit witnesses in
  write_uint32_le (tx_version tx)
  ++ (if has_witness then [0x00; 0x01] else [])
  ++ write_varint (Z.of_nat (length (inputs tx)))
  ++ flat_map TxInput_serialize (inputs tx)
  ++ write_varint (Z.of_nat (length (outputs tx)))
  ++ flat_map TxOutput_serialize (outputs tx)
  ++ (if has_witness then flat_map TxWitness_serialize witnesses else [])
  ++ write_uint32_le (locktime tx).

Definition get_serialized_size (tx : Transaction) (witnesses : list TxWitness)
    : Z :=
  Z.of_nat (length (serialize tx witnesses)).

Definition get_base_size (tx : Transaction) : Z :=
  Z.of_nat (length (serialize_legacy tx)).

Definition get_weight (tx : Transaction) (witnesses : list TxWitness) : Z :=
  u64 (u64 (get_base_size tx * 3) + get_serialized_size tx witnesses).

Definition get_vsize (tx : Transaction) (witnesses : list TxWitness) : Z :=
  u64 (get_weight tx witnesses + 3) / 4.

(** [Transaction::get_total_output_value]: the sum in 64 bits, and
    [UINT64_MAX] as soon as an addition wraps. *)
Fixpoint total_output_loop (outs : list TxOutput) (total : Z) : Z :=
  match outs with
  | [] => total
  | output :: rest =>
      let total := u64 (total + value output) in
      if total <? value output then UINT64_MAX
      else total_output_loop rest total
  end.

Definition get_total_output_value (tx : Transaction) : Z :=
  total_output_loop (outputs tx) 0.

(** [Transaction::is_valid]. *)
Definition Transaction_is_valid (tx : Transaction) (witnesses : list TxWitness)
    : bool :=
  if bool_decide (inputs tx = []) || bool_decide (outputs tx = []) then false
  else if MAX_TRANSACTION_SIZE <? get_serialized_size tx witnesses then false
  else if existsb (fun input => negb (is_coinbase tx) && TxInput_is_coinbase input)
            (inputs tx)
  then false
  else if existsb (fun output => negb (TxOutput_is_valid output)) (outputs tx)
  then false
  else if negb (bool_decide (witnesses = []))
          && negb (length witnesses =? length (inputs tx))%nat
  then false
  else true.

(** [Transaction::create_coinbase_transaction]: the transaction and its
    witnesses. *)
Definition create_coinbase_transaction (block_reward total_fees : Z)
    (miner_address : bytes) (extra_data : bytes)
    : Transaction * list TxWitness :=
  let total_reward := u64 (block_reward + total_fees) in
  (mkTransaction 2 [create_coinbase extra_data]
     [create_p2pkh total_reward miner_address] 0 None,
   [mkTxWitness []]).

(** [validation::validate_inputs]: [seen_inputs] is a [std::set] of the
    outpoints met so far. *)
Fixpoint no_duplicate_inputs (ins : list TxInput) (seen_inputs : gset (list Z * Z))
    : bool :=
  match ins with
  | [] => true
  | input :: rest =>
      let outpoint := (prev_tx_hash input, prev_output_index input) in
      if bool_decide (elem_of outpoint seen_inputs) then false
      else no_duplicate_inputs rest (union (singleton outpoint) seen_inputs)
  end.

Definition validate_inputs (tx : Transaction) : bool :=
  if bool_decide (inputs tx = []) then false
  else if negb (is_coinbase tx) then no_duplicate_inputs (inputs tx) empty
  else true.

(** [validation::validate_outputs]. *)
Definition validate_outputs (tx : Transaction) : bool :=
  if bool_decide (outputs tx = []) then false
  else negb (existsb (fun output => negb (TxOutput_is_valid output)) (outputs tx)).

(** ** IEEE 754 binary64 ([double]) *)
Module Double.

Definition double := spec_float.

Definition prec : Z := 53.
Definition emax : Z := 1024.

(** [static_cast<double>] of an unsigned integer: round to nearest even. *)
Definition of_Z (z : Z) : double := binary_normalize prec emax z 0 false.

Definition add : double -> double -> double := SFadd prec emax.
Definition sub : double -> double -> double := SFsub prec emax.
Definition mul : double -> double -> double := SFmul prec emax.
Definition div : double -> double -> double := SFdiv prec emax.
Definition ltb : double -> double -> bool := SFltb.
Definition leb : double -> double -> bool := SFleb.

(** [std::min(a, b)] is [(b < a) ? b : a]; [std::max(a, b)] is
    [(a < b) ? b : a]. *)
Definition min (a b : double) : double := if ltb b a then b else a.
Definition max (a b : double) : double := if ltb a b then b else a.

(** The literals of the sources. *)
Definition zero : double := S754_zero false.
Definition one : double := of_Z 1.
Definition two : double := of_Z 2.
Definition half : double := div (of_Z 1) (of_Z 2).
Definition tenth : double := div (of_Z 1) (of_Z 10).
Definition hundred : double := of_Z 100.

(** [std::pow(256.0, n)] at a natural number [n]: the power of two
    [2 ^ (8 n)], infinite beyond the range of the format. *)
Definition pow256 (n : Z) : double := binary_normalize prec emax 1 (8 * n) false.

(** [static_cast<uint64_t>] of a double: truncation toward zero; the
    language leaves the conversion undefined when the truncated value does
    not fit, and [undef] stands for what the compiled code yields then. *)
Definition to_u64 (undef : double -> Z) (x : double) : Z :=
  match x with
  | S754_zero _ => 0
  | S754_finite s m e =>
      let v := if 0 <=? e then Z.pos m * 2 ^ e else Z.pos m / 2 ^ (- e) in
      if s then (if v =? 0 then 0 else undef x)
      else (if v <? 2 ^ 64 then v else undef x)
  | _ => undef x
  end.

End Double.

(** ** Proof of work ([consensus.cpp]) *)
Module ProofOfWorkMiner.

(** [compute_block_hash]: the nonce appended as it lies in memory, four
    little-endian bytes. *)
Definition compute_block_hash (block_data : bytes) (nonce : Z) : Hash256 :=
  SHA256.double_hash (block_data ++ write_uint32_le nonce).

(** [bits_to_target].  A shift of a 64-bit word by 64 or more is undefined
    in C++: [None] there. *)
Definition bits_to_target (difficulty_bits : Z) : option Z :=
  let exponent := Z.shiftr difficulty_bits 24 in
  let mantissa := Z.land difficulty_bits 0xffffff in
  if exponent <=? 3 then Some (Z.shiftr mantissa (8 * (3 - exponent)))
  else if 8 * (exponent - 3) <? 64
       then Some (u64 (Z.shiftl mantissa (8 * (exponent - 3))))
       else None.

(** [for (int i = 7; i >= 0; --i) hash_value = (hash_value << 8) | hash[i]]. *)
Definition hash_value (hash : Hash256) : Z :=
  fold_left (fun acc i => Z.lor (u64 (Z.shiftl acc 8)) (nth i hash 0))
    [7; 6; 5; 4; 3; 2; 1; 0]%nat 0.

Definition meets_difficulty_target (hash : Hash256) (difficulty_bits : Z)
    : option bool :=
  match bits_to_target difficulty_bits with
  | Some target => Some (hash_value hash <=? target)
  | None => None
  end.

Definition verify_proof_of_work (block_data : bytes) (nonce : Z)
    (difficulty_target : Z) : option bool :=
  meets_difficulty_target (compute_block_hash block_data nonce) difficulty_target.

(** [MiningResult] without the elapsed time, which is read off the clock;
    [block_hash] has no initializer and holds a hash only after a
    success. *)
Record MiningResult := mkMiningResult {
  success : bool;
  result_nonce : Z;
  block_hash : option Hash256;
  hash_operations : Z }.

(** The loop of [mine_worker].  [should_stop_] is an atomic flag that
    another thread may set through [stop_mining]: [should_stop i] is what
    the test of the loop condition loads before turn [i].  The result is
    [None] when [bits_to_target] is undefined. *)
Fixpoint mine_worker_loop (should_stop : nat -> bool) (block_data : bytes)
    (difficulty_target start_nonce : Z) (remaining i : nat)
    (result : MiningResult) : option MiningResult :=
  match remaining with
  | O => Some result
  | S remaining' =>
      if should_stop i then Some result
      else
        let nonce := u32 (start_nonce + Z.of_nat i) in
        let hash := compute_block_hash block_data nonce in
        let operations := u64 (hash_operations result + 1) in
        match meets_difficulty_target hash difficulty_target with
        | None => None
        | Some true => Some (mkMiningResult true nonce (Some hash) operations)
        | Some false =>
            mine_worker_loop should_stop block_data difficulty_target
              start_nonce remaining' (S i)
              (mkMiningResult (success result) (result_nonce result)
                 (block_hash result) operations)
        end
  end.

Definition mine_worker (should_stop : nat -> bool) (block_data : bytes)
    (difficulty_target start_nonce nonce_range : Z) : option MiningResult :=
  mine_worker_loop should_stop block_data difficulty_target start_nonce
    (Z.to_nat nonce_range) 0 (mkMiningResult false 0 None 0).

(** [mine_block]: the number of iterations is cut to 32 bits. *)
Definition mine_block (should_stop : nat -> bool) (block_data : bytes)
    (difficulty_target max_iterations : Z) : option MiningResult :=
  let iterations := if max_iterations =? 0 then UINT32_MAX else max_iterations in
  mine_worker should_stop block_data difficulty_target 0 (u32 iterations).

End ProofOfWorkMiner.

(** The check of [block.cpp], on a header. *)
Definition BlockHeader_serialize (h : BlockHeader) : bytes :=
  write_uint32_le (version h) ++ prev_block_hash h ++ merkle_root h
  ++ write_uint32_le (timestamp h) ++ write_uint32_le (difficulty_target h)
  ++ write_uint32_le (nonce h).

Definition BlockHeader_calculate_hash (h : BlockHeader) : Hash256 :=
  SHA256.double_hash (BlockHeader_serialize h).

(** [target[i] = b] on a 32-byte array. *)
Definition set_byte (i : Z) (b : Z) (target : list Z) : list Z :=
  if i <? 32 then <[Z.to_nat i := b]> target else target.

(** [BlockHeader::get_target]; [start_byte] is a [size_t]. *)
Definition get_target (difficulty_target : Z) : list Z :=
  let target := repeat 0 32 in
  let exponent := Z.shiftr difficulty_target 24 in
  let mantissa := Z.land difficulty_target 0x007FFFFF in
  if exponent <=? 3 then target
  else
    let start_byte := u64 (32 - exponent) in
    if 32 <=? start_byte then target
    else
      set_byte start_byte (Z.land (Z.shiftr mantissa 16) 0xFF)
        (set_byte (start_byte + 1) (Z.land (Z.shiftr mantissa 8) 0xFF)
           (set_byte (start_byte + 2) (Z.land mantissa 0xFF) target)).

(** [std::memcmp(a, b, n) <= 0] on byte strings of one length. *)
Fixpoint memcmp_le (a b : list Z) : bool :=
  match a, b with
  | x :: a', y :: b' =>
      if x <? y then true else if y <? x then false else memcmp_le a' b'
  | _, _ => true
  end.

Definition BlockHeader_meets_difficulty_target (h : BlockHeader) : bool :=
  memcmp_le (BlockHeader_calculate_hash h) (get_target (difficulty_target h)).

(** [mining::hash_meets_target]. *)
Definition hash_meets_target (hash : Hash256) (difficulty_target : Z) : bool :=
  memcmp_le hash (get_target difficulty_target).

(** [BlockHeader::deserialize]: eighty bytes at least; the member
    [height], which is not serialized, keeps its default. *)
Definition BlockHeader_deserialize (data : bytes) : Reader.outcome BlockHeader :=
  if Reader.size data <? 80 then Reader.Nullopt
  else
    Reader.bind (Reader.read_uint32_le data 0) (fun ver offset =>
    Reader.bind (Reader.read_range 32 data offset) (fun prev_hash offset =>
    Reader.bind (Reader.read_range 32 data offset) (fun merkle offset =>
    Reader.bind (Reader.read_uint32_le data offset) (fun ts offset =>
    Reader.bind (Reader.read_uint32_le data offset) (fun diff offset =>
    Reader.bind (Reader.read_uint32_le data offset) (fun n offset =>
    Reader.Value (mkBlockHeader ver prev_hash merkle ts diff n) offset)))))).

Definition set_nonce (h : BlockHeader) (n : Z) : BlockHeader :=
  mkBlockHeader (version h) (prev_block_hash h) (merkle_root h) (timestamp h)
    (difficulty_target h) n.

(** [Block::mine]: the nonces from 0 on, in the header; on success
    [clear_cache] drops the memoized values. *)
Fixpoint mine_loop (fuel : nat) (b : Block) (iterations max_iterations : Z)
    : bool * Block :=
  match fuel with
  | O => (false, b)
  | S fuel' =>
      if iterations <? max_iterations
      then
        let b := mkBlock (set_nonce (header b) iterations) (transactions b)
                   (cached_merkle b) in
        if BlockHeader_meets_difficulty_target (header b)
        then (true, mkBlock (header b) (transactions b) None)
        else mine_loop fuel' b (u32 (iterations + 1)) max_iterations
      else (false, b)
  end.

Definition Block_mine (b : Block) (max_iterations : Z) : bool * Block :=
  mine_loop (Z.to_nat max_iterations) b 0 max_iterations.

(** [Block::get_block_reward]. *)
Definition get_block_reward (b : Block) : Z :=
  match transactions b with
  | [] => 0
  | tx :: _ => if negb (is_coinbase tx) then 0 else get_total_output_value tx
  end.

(** Namespace [validation] of [block.cpp]. *)
Module validation.

Definition GENESIS_BLOCK_REWARD : Z := 5000000000.
Definition HALVING_INTERVAL : Z := 210000.

(** [for (uint32_t i = 0; i < halvings && reward > 0; ++i) reward /= 2]. *)
Fixpoint halving_loop (halvings : nat) (reward : Z) : Z :=
  match halvings with
  | O => reward
  | S halvings' =>
      if 0 <? reward then halving_loop halvings' (reward / 2) else reward
  end.

Definition calculate_block_reward (height : Z) : Z :=
  halving_loop (Z.to_nat (height / HALVING_INTERVAL)) GENESIS_BLOCK_REWARD.

End validation.

(** *** The comparison of the specification

    The hash as a 256-bit big-endian integer against the target
    mantissa (24 bits) * 256 ^ (exponent - 3) of the compact form. *)
Definition be_value (h : list Z) : Z := fold_left (fun acc b => acc * 256 + b) h 0.

Definition compact_target (bits : Z) : Z :=
  let exponent := Z.shiftr bits 24 in
  let mantissa := Z.land bits 0xffffff in
  if 3 <=? exponent then mantissa * 256 ^ (exponent - 3)
  else mantissa / 256 ^ (3 - exponent).

Definition full_target_check (block_data : bytes) (nonce : Z) (bits : Z) : bool :=
  be_value (SHA256.double_hash (block_data ++ write_uint32_le nonce))
  <=? compact_target bits.

(** ** Difficulty adjustment ([consensus.cpp], [consensus.hpp]) *)
Module DifficultyAdjustment.
Import Double.

Definition TARGET_BLOCK_TIME : Z := 600.
Definition DIFFICULTY_ADJUSTMENT_INTERVAL : Z := 2016.
Definition MAX_DIFFICULTY_BITS : Z := 0x1d00ffff.
Definition MIN_DIFFICULTY_BITS : Z := 0x207fffff.

Section Undefined.

(** [(max_target & 0xffffff) << (8 * ((max_target >> 24) - 3))] shifts a
    32-bit word by 208 bits, which C++ leaves undefined: [max_target_shift]
    is the 32-bit word the compiled code yields.  [undef] is the result of a
    cast of a double that does not fit 64 bits. *)
Variable max_target_shift : Z.
Variable undef : double -> Z.

Definition max_target_value : double := of_Z max_target_shift.

Definition bits_to_difficulty (difficulty_bits : Z) : double :=
  let exponent := Z.shiftr difficulty_bits 24 in
  let mantissa := of_Z (Z.land difficulty_bits 0xffffff) in
  let target_value := mul mantissa (pow256 (u32 (exponent - 3))) in
  div max_target_value target_value.

(** [while (mantissa > 0xffffff) { mantissa >>= 8; exponent++; }] *)
Fixpoint normalize (fuel : nat) (exponent mantissa : Z) : Z * Z :=
  match fuel with
  | O => (exponent, mantissa)
  | S fuel' =>
      if 0xffffff <? mantissa
      then normalize fuel' (u32 (exponent + 1)) (Z.shiftr mantissa 8)
      else (exponent, mantissa)
  end.

(** A 64-bit mantissa is below [0x1000000] after five shifts by eight. *)
Definition difficulty_to_bits (difficulty : double) : Z :=
  if leb difficulty zero then MAX_DIFFICULTY_BITS
  else
    let target_value := div max_target_value difficulty in
    let '(exponent, mantissa) := normalize 8 1 (to_u64 undef target_value) in
    Z.lor (u32 (Z.shiftl exponent 24)) (Z.land mantissa 0xffffff).

Definition calculate_next_difficulty (current_difficulty actual_time_span
    target_time_span : Z) : Z :=
  let actual_time_span :=
    if actual_time_span <? target_time_span / 4
    then target_time_span / 4 else actual_time_span in
  let actual_time_span :=
    if u64 (target_time_span * 4) <? actual_time_span
    then u64 (target_time_span * 4) else actual_time_span in
  let adjustment_factor := div (of_Z target_time_span) (of_Z actual_time_span) in
  let current_difficulty_value := bits_to_difficulty current_difficulty in
  let new_difficulty := mul current_difficulty_value adjustment_factor in
  let new_difficulty_bits := difficulty_to_bits new_difficulty in
  let new_difficulty_bits :=
    if MAX_DIFFICULTY_BITS <? new_difficulty_bits
    then MAX_DIFFICULTY_BITS else new_difficulty_bits in
  let new_difficulty_bits :=
    if new_difficulty_bits <? MIN_DIFFICULTY_BITS
    then MIN_DIFFICULTY_BITS else new_difficulty_bits in
  new_difficulty_bits.

End Undefined.

Definition should_adjust_difficulty (block_height : Z) : bool :=
  (block_height mod DIFFICULTY_ADJUSTMENT_INTERVAL =? 0) && (0 <? block_height).

Definition is_valid_difficulty_target (difficulty_bits : Z) : bool :=
  (MIN_DIFFICULTY_BITS <=? difficulty_bits) && (difficulty_bits <=? MAX_DIFFICULTY_BITS).

(** [HybridDifficultyAdjustment::calculate_hybrid_difficulty]
    ([hybrid_consensus.cpp]); [undef32] is the result of a cast to
    [uint32_t] of a double that does not fit. *)
Definition to_u32 (undef32 : double -> Z) (x : double) : Z :=
  match x with
  | S754_zero _ => 0
  | S754_finite s m e =>
      let v := if 0 <=? e then Z.pos m * 2 ^ e else Z.pos m / 2 ^ (- e) in
      if s then (if v =? 0 then 0 else undef32 x)
      else (if v <? 2 ^ 32 then v else undef32 x)
  | _ => undef32 x
  end.

Definition calculate_hybrid_difficulty (max_target_shift : Z)
    (undef undef32 : double -> Z)
    (current_difficulty actual_time_span target_time_span : Z)
    (pow_ratio_last_period target_pow_ratio : double) : Z :=
  let adjusted_difficulty :=
    calculate_next_difficulty max_target_shift undef
      current_difficulty actual_time_span target_time_span in
  let adjusted_difficulty :=
    if ltb pow_ratio_last_period target_pow_ratio
    then
      let ratio_factor := div target_pow_ratio (max tenth pow_ratio_last_period) in
      let ratio_factor := min two ratio_factor in
      to_u32 undef32 (mul (of_Z adjusted_difficulty) ratio_factor)
    else if ltb target_pow_ratio pow_ratio_last_period
    then
      let ratio_factor := div pow_ratio_last_period target_pow_ratio in
      let ratio_factor := min (div (of_Z 3) (of_Z 2)) ratio_factor in
      to_u32 undef32 (div (of_Z adjusted_difficulty) ratio_factor)
    else adjusted_difficulty in
  if negb (is_valid_difficulty_target adjusted_difficulty)
  then current_difficulty
  else adjusted_difficulty.

(** [HybridDifficultyAdjustment::calculate_pos_slot_interval];
    [POS_TARGET_RATIO] is 0.4. *)
Definition calculate_pos_slot_interval (undef : double -> Z)
    (active_validators : Z) (participation_rate : double)
    (target_block_time : Z) : Z :=
  if (active_validators =? 0) || leb participation_rate zero
  then target_block_time
  else
    let base_interval := mul (of_Z target_block_time) (div (of_Z 2) (of_Z 5)) in
    let validator_factor := div one (of_Z active_validators) in
    let participation_factor := div one (max tenth participation_rate) in
    let pos_interval :=
      to_u64 undef (mul (mul base_interval validator_factor) participation_factor) in
    let bounded := if pos_interval <? 1800 then pos_interval else 1800 in
    if 60 <? bounded then bounded else 60.

End DifficultyAdjustment.

(** ** Block validation ([consensus.cpp]) *)
Module BlockValidator.

Definition MAX_TIMESTAMP_DRIFT : Z := 7200.

Definition validate_timestamp (block_timestamp previous_block_timestamp
    current_time : Z) : bool :=
  if block_timestamp <=? previous_block_timestamp then false
  else if u64 (current_time + 7200) <? block_timestamp then false
  else true.

(** The median of the specification: the middle of the sorted timestamps. *)
Fixpoint insert_sorted (x : Z) (l : list Z) : list Z :=
  match l with
  | [] => [x]
  | y :: l' => if x <=? y then x :: l else y :: insert_sorted x l'
  end.

Definition median (l : list Z) : Z :=
  nth (length l / 2) (fold_right insert_sorted [] l) 0.

End BlockValidator.

(** ** [std::map<Hash256, V>]: an association list kept in key order *)
Module StdMap.

(** [operator<] of [std::array]: lexicographic on the bytes. *)
Fixpoint hash_ltb (a b : Hash256) : bool :=
  match a, b with
  | x :: a', y :: b' =>
      if x <? y then true else if y <? x then false else hash_ltb a' b'
  | [], _ :: _ => true
  | _, [] => false
  end.

Definition t (V : Type) : Type := list (Hash256 * V).

Fixpoint find {V : Type} (k : Hash256) (m : t V) : option V :=
  match m with
  | [] => None
  | (k', v) :: m' => if bool_decide (k = k') then Some v else find k m'
  end.

(** [m[k] = v]: the entry replaced, or inserted at its place in the order. *)
Fixpoint assign {V : Type} (k : Hash256) (v : V) (m : t V) : t V :=
  match m with
  | [] => [(k, v)]
  | (k', v') :: m' =>
      if bool_decide (k = k') then (k, v) :: m'
      else if hash_ltb k k' then (k, v) :: (k', v') :: m'
      else (k', v') :: assign k v m'
  end.

(** [m.erase(k)]. *)
Fixpoint erase {V : Type} (k : Hash256) (m : t V) : t V :=
  match m with
  | [] => []
  | (k', v') :: m' =>
      if bool_decide (k = k') then m' else (k', v') :: erase k m'
  end.

End StdMap.

(** ** The hybrid consensus engine ([hybrid_consensus.cpp]) *)
Module HybridConsensusEngine.
Import Double.

Definition PublicKey := list Z.

Record Validator := mkValidator {
  validator_id : Hash256;
  stake_amount : Z;
  last_block_time : Z;
  reputation_score : Z;
  is_active : bool;
  public_key : PublicKey;
  total_blocks_created : Z;
  missed_slots : Z }.

Record StakeEntry := mkStakeEntry {
  stake_validator_id : Hash256;
  amount : Z;
  lock_height : Z;
  is_locked : bool }.

Record BlockSlot := mkBlockSlot {
  slot_validator_id : Hash256;
  slot_time : Z;
  block_height : Z;
  stake_weight : Z }.

Record ConsensusState := mkConsensusState {
  current_height : Z;
  best_block_hash : Hash256;
  total_chain_work : Z;
  current_difficulty : Z;
  validators : StdMap.t Validator;
  stakes : StdMap.t StakeEntry;
  upcoming_slots : list BlockSlot;
  total_stake : Z;
  min_stake_amount : Z;
  stake_maturity_blocks : Z;
  pos_activation_height : Z;
  pos_weight_ratio : double }.

(** The engine: its consensus state and [rng_], the generator the
    constructor seeds from the clock ([storage_] and [pow_miner_] are not
    read by the operations below). *)
Record Engine := mkEngine {
  state_ : ConsensusState;
  rng_ : Z }.

Definition set_validators (s : ConsensusState) (vs : StdMap.t Validator)
    : ConsensusState :=
  mkConsensusState (current_height s) (best_block_hash s) (total_chain_work s)
    (current_difficulty s) vs (stakes s) (upcoming_slots s) (total_stake s)
    (min_stake_amount s) (stake_maturity_blocks s) (pos_activation_height s)
    (pos_weight_ratio s).

Definition set_stakes (s : ConsensusState) (st : StdMap.t StakeEntry) (total : Z)
    : ConsensusState :=
  mkConsensusState (current_height s) (best_block_hash s) (total_chain_work s)
    (current_difficulty s) (validators s) st (upcoming_slots s) total
    (min_stake_amount s) (stake_maturity_blocks s) (pos_activation_height s)
    (pos_weight_ratio s).

(** [add_validator]: the result and the engine after the call. *)
Definition add_validator (e : Engine) (id : Hash256) (pk : PublicKey)
    (stake : Z) : bool * Engine :=
  let s := state_ e in
  if stake <? min_stake_amount s then (false, e)
  else
    let new_validator := mkValidator id stake 0 100 true pk 0 0 in
    let s1 := set_validators s (StdMap.assign id new_validator (validators s)) in
    let entry :=
      mkStakeEntry id stake
        (u32 (current_height s1 + stake_maturity_blocks s1)) true in
    let s2 := set_stakes s1 (StdMap.assign id entry (stakes s1))
                (u64 (total_stake s1 + stake)) in
    (true, mkEngine s2 (rng_ e)).

(** [std::max(0u, x)] and [std::min(100u, x)] on 32-bit unsigned words. *)
Definition max_0u (x : Z) : Z := if 0 <? x then x else 0.
Definition min_100u (x : Z) : Z := if x <? 100 then x else 100.

Definition penalize (v : Validator) (penalty_points : Z) : Validator :=
  let reputation := max_0u (u32 (reputation_score v - penalty_points)) in
  mkValidator (validator_id v) (stake_amount v) (last_block_time v)
    reputation
    (if reputation <? 10 then false else is_active v)
    (public_key v) (total_blocks_created v) (u32 (missed_slots v + 1)).

Definition penalize_validator (e : Engine) (id : Hash256) (penalty_points : Z)
    : Engine :=
  match StdMap.find id (validators (state_ e)) with
  | Some v =>
      mkEngine
        (set_validators (state_ e)
           (StdMap.assign id (penalize v penalty_points) (validators (state_ e))))
        (rng_ e)
  | None => e
  end.

Definition reward (v : Validator) (reward_points : Z) : Validator :=
  let reputation := min_100u (u32 (reputation_score v + reward_points)) in
  mkValidator (validator_id v) (stake_amount v) (last_block_time v)
    reputation
    (if (50 <=? reputation) && negb (is_active v) then true else is_active v)
    (public_key v) (total_blocks_created v) (missed_slots v).

Definition reward_validator (e : Engine) (id : Hash256) (reward_points : Z)
    : Engine :=
  match StdMap.find id (validators (state_ e)) with
  | Some v =>
      mkEngine
        (set_validators (state_ e)
           (StdMap.assign id (reward v reward_points) (validators (state_ e))))
        (rng_ e)
  | None => e
  end.

Definition is_validator_eligible (s : ConsensusState) (id : Hash256)
    (slot_time : Z) : bool :=
  match StdMap.find id (validators s) with
  | None => false
  | Some v =>
      if negb (is_active v) then false
      else
        match StdMap.find id (stakes s) with
        | None => false
        | Some st =>
            if is_locked st then false
            else if (0 <? last_block_time v)
                    && (slot_time <? u64 (last_block_time v + 30))
                 then false
                 else true
        end
  end.

Definition calculate_validator_selection_weight (s : ConsensusState)
    (v : Validator) (slot_time : Z) : double :=
  let stake_weight := div (of_Z (stake_amount v)) (of_Z (total_stake s)) in
  let reputation_factor := add half (div (of_Z (reputation_score v)) hundred) in
  let time_factor :=
    if 0 <? last_block_time v
    then
      let time_since_last := u64 (slot_time - last_block_time v) in
      min two (add one (div (of_Z time_since_last) (of_Z 3600)))
    else one in
  let activity_factor :=
    max tenth (sub one (mul (of_Z (missed_slots v)) tenth)) in
  mul (mul (mul stake_weight reputation_factor) time_factor) activity_factor.

(** [std::to_string] of a [uint64_t]: its decimal digits, in ASCII. *)
Fixpoint digits (fuel : nat) (n : Z) (acc : bytes) : bytes :=
  match fuel with
  | O => acc
  | S fuel' =>
      let acc' := (48 + n mod 10) :: acc in
      if n / 10 =? 0 then acc' else digits fuel' (n / 10) acc'
  end.

(** A 64-bit number has at most twenty digits. *)
Definition to_string (n : Z) : bytes := digits 20 n [].

(** The seed of the selection. *)
Definition seed_hash (slot_time : Z) (previous_block_hash : Hash256) : Hash256 :=
  SHA256.hash (to_string slot_time ++ previous_block_hash).

(** [for (int i = 0; i < 8; ++i) seed_value = (seed_value << 8) | seed_hash[i]]. *)
Definition seed_value (seed : Hash256) : Z :=
  fold_left (fun acc i => Z.lor (u64 (Z.shiftl acc 8)) (nth i seed 0))
    (seq 0 8) 0.

(** The loop that gathers the weights of the eligible validators, in the
    order of the map. *)
Definition gather (s : ConsensusState) (slot_time : Z)
    (acc : list (Hash256 * double) * double) (kv : Hash256 * Validator)
    : list (Hash256 * double) * double :=
  let '(validator_weights, total_weight) := acc in
  let '(id, v) := kv in
  if is_active v && is_validator_eligible s id slot_time
  then
    let weight := calculate_validator_selection_weight s v slot_time in
    (validator_weights ++ [(id, weight)], add total_weight weight)
  else acc.

(** The loop of the weighted choice; [None] when it runs to its end. *)
Fixpoint pick (random_value accumulated_weight : double)
    (validator_weights : list (Hash256 * double)) : option Hash256 :=
  match validator_weights with
  | [] => None
  | (id, weight) :: rest =>
      let accumulated_weight := add accumulated_weight weight in
      if leb random_value accumulated_weight then Some id
      else pick random_value accumulated_weight rest
  end.

Section Selection.

(** [dist(slot_rng)]: the first variate that
    [std::uniform_real_distribution<double>(0.0, 1.0)] draws from a
    [std::mt19937_64] seeded with the given 64-bit value. *)
Variable uniform_draw : Z -> double.

Definition select_validator_by_stake (e : Engine) (slot_time : Z)
    (previous_block_hash : Hash256) : Hash256 :=
  let s := state_ e in
  match validators s with
  | [] => Hash256_zero
  | _ =>
      if total_stake s =? 0 then Hash256_zero
      else
        let seed := seed_value (seed_hash slot_time previous_block_hash) in
        let '(validator_weights, total_weight) :=
          fold_left (gather s slot_time) (validators s) ([], zero) in
        match validator_weights with
        | [] => Hash256_zero
        | _ =>
            if leb total_weight zero then Hash256_zero
            else
              let random_value := mul (uniform_draw seed) total_weight in
              match pick random_value zero validator_weights with
              | Some id => id
              | None => fst (List.last validator_weights (Hash256_zero, zero))
              end
        end
  end.

End Selection.

(** [initialize_genesis]: the state taken over, its validators made
    active with a reputation of 100. *)
Definition initialize_genesis (e : Engine) (genesis_state : ConsensusState)
    : bool * Engine :=
  (true,
   mkEngine
     (set_validators genesis_state
        (map (fun kv =>
                (fst kv,
                 mkValidator (validator_id (snd kv)) (stake_amount (snd kv))
                   (last_block_time (snd kv)) 100 true (public_key (snd kv))
                   (total_blocks_created (snd kv)) (missed_slots (snd kv))))
           (validators genesis_state)))
     (rng_ e)).

(** [remove_validator]: refused while the height is below the
    [lock_height] of the stake. *)
Definition remove_validator (e : Engine) (id : Hash256) : bool * Engine :=
  let s := state_ e in
  match StdMap.find id (validators s) with
  | None => (false, e)
  | Some _ =>
      match StdMap.find id (stakes s) with
      | Some stake =>
          if lock_height stake <=? current_height s
          then
            let s1 := set_stakes s (StdMap.erase id (stakes s))
                        (u64 (total_stake s - amount stake)) in
            let s2 := set_validators s1 (StdMap.erase id (validators s1)) in
            (true, mkEngine s2 (rng_ e))
          else (false, e)
      | None => (false, e)
      end
  end.

(** [update_stake]. *)
Definition update_stake (e : Engine) (id : Hash256) (new_stake_amount : Z)
    : bool * Engine :=
  let s := state_ e in
  match StdMap.find id (validators s) with
  | None => (false, e)
  | Some v =>
      match StdMap.find id (stakes s) with
      | Some stake =>
          let old_stake := amount stake in
          let total := u64 (u64 (total_stake s - old_stake) + new_stake_amount) in
          let s1 :=
            set_stakes s
              (StdMap.assign id
                 (mkStakeEntry (stake_validator_id stake) new_stake_amount
                    (lock_height stake) (is_locked stake))
                 (stakes s))
              total in
          let s2 :=
            set_validators s1
              (StdMap.assign id
                 (mkValidator (validator_id v) new_stake_amount
                    (last_block_time v) (reputation_score v) (is_active v)
                    (public_key v) (total_blocks_created v) (missed_slots v))
                 (validators s1)) in
          (true, mkEngine s2 (rng_ e))
      | None => (false, e)
      end
  end.

(** [update_validator_stakes]: the stakes whose lock height is reached are
    unlocked. *)
Definition unlock (current_height : Z) (stake : StakeEntry) : StakeEntry :=
  if is_locked stake && (lock_height stake <=? current_height)
  then mkStakeEntry (stake_validator_id stake) (amount stake) (lock_height stake)
         false
  else stake.

Definition update_validator_stakes (s : ConsensusState) (current_height : Z)
    : ConsensusState :=
  set_stakes s
    (map (fun kv => (fst kv, unlock current_height (snd kv))) (stakes s))
    (total_stake s).

Definition get_validator (e : Engine) (id : Hash256) : option Validator :=
  StdMap.find id (validators (state_ e)).

Definition get_active_validators (e : Engine) : list Validator :=
  map snd (filter (fun kv => is_active (snd kv)) (validators (state_ e))).

(** The counters of [calculate_network_stats]. *)
Record NetworkStats := mkNetworkStats {
  total_validators : Z;
  active_validators : Z;
  total_network_stake : Z;
  stats_current_difficulty : Z }.

Definition calculate_network_stats (e : Engine) : NetworkStats :=
  mkNetworkStats
    (u32 (Z.of_nat (length (validators (state_ e)))))
    (fold_left (fun n kv => if is_active (snd kv) then u32 (n + 1) else n)
       (validators (state_ e)) 0)
    (total_stake (state_ e))
    (current_difficulty (state_ e)).

Section Slots.

(** The values that C++ leaves open: the shift and the casts of the
    difficulty adjustment, the generator draw, and [indeterminate], the
    content of the member [stake_weight] of a [BlockSlot] that was never
    assigned. *)
Variable max_target_shift : Z.
Variable undef undef32 : double -> Z.
Variable uniform_draw : Z -> double.
Variable indeterminate : Z.

(** [calculate_block_reward]: the halvings as one shift, undefined from 64
    halvings on; a proof-of-stake block gets the reward times 0.8. *)
Definition calculate_block_reward (block_height : Z) (is_pow_block : bool)
    : option Z :=
  let base_reward := 5000000000 in
  let halvings := block_height / 210000 in
  if 64 <=? halvings then None
  else
    let base_reward := Z.shiftr base_reward halvings in
    if negb is_pow_block
    then Some (to_u64 undef (mul (of_Z base_reward) (div (of_Z 4) (of_Z 5))))
    else Some base_reward.

(** [calculate_next_slot_time]. *)
Definition calculate_next_slot_time (s : ConsensusState)
    (current_time block_height : Z) : Z :=
  let base_interval := 600 in
  if block_height <? pos_activation_height s
  then u64 (current_time + base_interval)
  else
    let active_validators :=
      fold_left (fun n kv => if is_active (snd kv) then u32 (n + 1) else n)
        (validators s) 0 in
    let adjustment_factor :=
      max half (sub one (mul (of_Z active_validators) (div (of_Z 1) (of_Z 50)))) in
    let adjusted_interval :=
      to_u64 undef (mul (of_Z base_interval) adjustment_factor) in
    u64 (current_time
         + (if 60 <? adjusted_interval then adjusted_interval else 60)).

(** One turn of the loop of [generate_upcoming_slots]. *)
Definition make_slot (e : Engine) (current_time i : Z) : BlockSlot :=
  let s := state_ e in
  let slot_time :=
    calculate_next_slot_time s current_time (u32 (current_height s + i)) in
  let block_height := u32 (current_height s + i + 1) in
  if pos_activation_height s <=? block_height
  then
    if i mod 2 =? 0
    then
      let id := select_validator_by_stake uniform_draw e slot_time
                  (best_block_hash s) in
      mkBlockSlot id slot_time block_height
        (match get_validator e id with
         | Some validator => stake_amount validator
         | None => indeterminate
         end)
    else mkBlockSlot Hash256_zero slot_time block_height 0
  else mkBlockSlot Hash256_zero slot_time block_height 0.

Fixpoint slots_loop (e : Engine) (remaining : nat) (i current_time : Z)
    (slots : list BlockSlot) : list BlockSlot :=
  match remaining with
  | O => slots
  | S remaining' =>
      let slot := make_slot e current_time i in
      slots_loop e remaining' (i + 1) (slot_time slot) (slots ++ [slot])
  end.

Definition generate_upcoming_slots (e : Engine) (from_time slot_count : Z)
    : list BlockSlot :=
  slots_loop e (Z.to_nat slot_count) 0 from_time [].

(** [adjust_consensus_parameters]: a period of 100 blocks of 600 seconds,
    the block time as the time span, and a proof-of-work share of 0.6
    against the default target share [POW_TARGET_RATIO] = 0.6. *)
Definition set_chain (s : ConsensusState) (height : Z) (best : Hash256)
    (difficulty : Z) : ConsensusState :=
  mkConsensusState height best (total_chain_work s) difficulty (validators s)
    (stakes s) (upcoming_slots s) (total_stake s) (min_stake_amount s)
    (stake_maturity_blocks s) (pos_activation_height s) (pos_weight_ratio s).

Definition adjust_consensus_parameters (s : ConsensusState)
    (block_height block_time : Z) : ConsensusState :=
  let adjustment_interval := 100 in
  let target_time_span := u32 (adjustment_interval * 600) in
  let actual_time_span := block_time in
  set_chain s (current_height s) (best_block_hash s)
    (DifficultyAdjustment.calculate_hybrid_difficulty max_target_shift undef
       undef32 (current_difficulty s) actual_time_span target_time_span
       (div (of_Z 3) (of_Z 5)) (div (of_Z 3) (of_Z 5))).

(** [update_consensus_state]. *)
Definition update_consensus_state (e : Engine) (block_hash : Hash256)
    (block_height block_time : Z) (is_pow_block : bool) : bool * Engine :=
  let s := set_chain (state_ e) block_height block_hash
             (current_difficulty (state_ e)) in
  let s :=
    if DifficultyAdjustment.should_adjust_difficulty block_height
    then adjust_consensus_parameters s block_height block_time
    else s in
  (true, mkEngine (update_validator_stakes s block_height) (rng_ e)).

End Slots.

End HybridConsensusEngine.

(** ** The UTXO set

    [transaction.hpp] declares [UTXOSet] with [add_utxo], [remove_utxo],
    [apply_transaction] and [rollback_transaction], and [block.cpp] calls
    the last two, but the bodies of these member functions are not among
    the sources.  The operations below follow section 4.2 of the
    specification. *)
Module UTXOSet.

Abbreviation OutPoint := (list Z * Z)%type.

Record UTXOEntry := mkUTXOEntry {
  entry_outpoint : OutPoint;
  entry_output : TxOutput;
  entry_block_height : Z;
  entry_is_coinbase : bool }.

Abbreviation t := (gmap OutPoint UTXOEntry).

Definition COINBASE_MATURITY : Z := 100.

Inductive error :=
| AlreadyExists | NotFound | UtxoMissing | UtxoImmatureCoinbase | OutputOverspend.

Inductive result (A : Type) :=
| Ok (a : A)
| Err (e : error).
Arguments Ok {A} a.
Arguments Err {A} e.

Definition bind {A B : Type} (r : result A) (k : A -> result B) : result B :=
  match r with
  | Ok a => k a
  | Err e => Err e
  end.

Notation "'let*' x := r 'in' k" := (bind r (fun x => k))
  (at level 10, x name, r at level 100, k at level 200).

(** Modelled from the spec: the body of [UTXOSet::add_utxo] is missing.
    "add(outpoint, entry): fails with AlreadyExists if outpoint already
    present." *)
Definition add (op : OutPoint) (e : UTXOEntry) (S : t) : result t :=
  match S !! op with
  | Some _ => Err AlreadyExists
  | None => Ok (<[op := e]> S)
  end.

(** Modelled from the spec: the body of [UTXOSet::remove_utxo] is missing.
    "remove(outpoint): fails with NotFound." *)
Definition remove (op : OutPoint) (S : t) : result t :=
  match S !! op with
  | Some _ => Ok (delete op S)
  | None => Err NotFound
  end.

Definition outpoint_of (i : TxInput) : OutPoint :=
  (prev_tx_hash i, prev_output_index i).

(** Step 1: every input exists, and a coinbase entry is mature. *)
Fixpoint check_inputs (S : t) (block_height : Z) (ins : list TxInput)
    : result unit :=
  match ins with
  | [] => Ok tt
  | i :: ins' =>
      match S !! outpoint_of i with
      | None => Err UtxoMissing
      | Some e =>
          if entry_is_coinbase e
             && negb (COINBASE_MATURITY <=? block_height - entry_block_height e)
          then Err UtxoImmatureCoinbase
          else check_inputs S block_height ins'
      end
  end.

(** Step 2: the sums of the input and of the output values. *)
Definition input_value (S : t) (ins : list TxInput) : Z :=
  fold_right
    (fun i acc =>
       match S !! outpoint_of i with
       | Some e => value (entry_output e) + acc
       | None => acc
       end) 0 ins.

Definition output_value (outs : list TxOutput) : Z :=
  fold_right (fun o acc => value o + acc) 0 outs.

(** Step 3, first half: the inputs removed one after the other, the removed
    entries logged in the order of removal. *)
Fixpoint remove_inputs (S : t) (ins : list TxInput)
    : result (t * list (OutPoint * UTXOEntry)) :=
  match ins with
  | [] => Ok (S, [])
  | i :: ins' =>
      match S !! outpoint_of i with
      | None => Err NotFound
      | Some e =>
          let* S1 := remove (outpoint_of i) S in
          let* r := remove_inputs S1 ins' in
          Ok (fst r, (outpoint_of i, e) :: snd r)
      end
  end.

(** Step 3, second half: one entry per output, from index [k] on. *)
Fixpoint add_outputs (txid : Hash256) (block_height : Z) (coinbase : bool)
    (k : Z) (outs : list TxOutput) (S : t) : result t :=
  match outs with
  | [] => Ok S
  | o :: outs' =>
      let* S1 := add (txid, k) (mkUTXOEntry (txid, k) o block_height coinbase) S in
      add_outputs txid block_height coinbase (k + 1) outs' S1
  end.

(** Modelled from the spec: the body of [UTXOSet::apply_transaction] is
    missing.  Section 4.2: the inputs are looked up and checked (skipped for
    a coinbase transaction), the output sum must not exceed the input sum,
    the inputs are removed and one entry per output is added; when a step
    fails nothing is changed: the result is the error, and the caller keeps
    the set it had.  On success the result is the new set and the undo log
    of the consumed entries, which the design notes make an output of
    [apply_transaction]. *)
Definition apply_transaction (S : t) (tx : Transaction) (block_height : Z)
    : result (t * list (OutPoint * UTXOEntry)) :=
  if is_coinbase tx
  then
    let* S1 := add_outputs (get_hash tx) block_height true 0 (outputs tx) S in
    Ok (S1, [])
  else
    let* _ := check_inputs S block_height (inputs tx) in
    if input_value S (inputs tx) <? output_value (outputs tx)
    then Err OutputOverspend
    else
      let* r := remove_inputs S (inputs tx) in
      let* S2 := add_outputs (get_hash tx) block_height false 0 (outputs tx) (fst r) in
      Ok (S2, snd r).

(** The produced outputs removed, last one first. *)
Fixpoint remove_outputs (txid : Hash256) (k : Z) (outs : list TxOutput) (S : t)
    : result t :=
  match outs with
  | [] => Ok S
  | _ :: outs' =>
      let* S1 := remove_outputs txid (k + 1) outs' S in
      remove (txid, k) S1
  end.

(** The spent entries reinserted, last removed first. *)
Fixpoint restore (undo : list (OutPoint * UTXOEntry)) (S : t) : result t :=
  match undo with
  | [] => Ok S
  | (op, e) :: undo' =>
      let* S1 := restore undo' S in
      add op e S1
  end.

(** Modelled from the spec: the body of [UTXOSet::rollback_transaction] is
    missing.  Section 4.2: "reverses apply_transaction: remove produced
    outputs; reinsert spent ones (the prior entries must be supplied by a
    caller-maintained undo log)". *)
Definition rollback_transaction (S : t) (tx : Transaction)
    (undo : list (OutPoint * UTXOEntry)) : result t :=
  let* S1 := remove_outputs (get_hash tx) 0 (outputs tx) S in
  restore undo S1.

End UTXOSet.

(** ** Well-formed maps and concrete states for the examples *)

(** The keys of a [std::map] are in strictly increasing order. *)
Definition sorted_keys {V : Type} (m : StdMap.t V) : Prop :=
  StronglySorted (fun x y => StdMap.hash_ltb (fst x) (fst y) = true) m.

(** The sum of the amounts of the stored stake entries. *)
Definition stake_sum (m : StdMap.t HybridConsensusEngine.StakeEntry) : Z :=
  fold_right (fun kv acc => HybridConsensusEngine.amount (snd kv) + acc) 0 m.

(** A default-constructed [ConsensusState] in a fresh engine. *)
Definition genesis_engine : HybridConsensusEngine.Engine :=
  HybridConsensusEngine.mkEngine
    (HybridConsensusEngine.mkConsensusState
       0 Hash256_zero 0 0x1d00ffff [] [] [] 0 1000000 100 1000 Double.half)
    0.

Definition id_a : Hash256 := repeat 0xAA 32.
Definition id_b : Hash256 := repeat 0xBB 32.
Definition pk_a : HybridConsensusEngine.PublicKey := 2 :: repeat 0xA1 32.

(** Two engines whose validator and stake maps are the same, one validator
    with an unlocked stake of 2000000; the first has [total_stake] 2000000,
    the second has it at the default 0 of a [ConsensusState] whose maps were
    filled in directly (which [initialize_genesis] accepts). *)
Definition one_validator : StdMap.t HybridConsensusEngine.Validator :=
  [(id_a, HybridConsensusEngine.mkValidator id_a 2000000 0 100 true pk_a 0 0)].

Definition one_stake : StdMap.t HybridConsensusEngine.StakeEntry :=
  [(id_a, HybridConsensusEngine.mkStakeEntry id_a 2000000 100 false)].

Definition engine_a : HybridConsensusEngine.Engine :=
  HybridConsensusEngine.mkEngine
    (HybridConsensusEngine.mkConsensusState
       2000 Hash256_zero 0 0x1d00ffff one_validator one_stake [] 2000000
       1000000 100 1000 Double.half)
    0.

Definition engine_b : HybridConsensusEngine.Engine :=
  HybridConsensusEngine.mkEngine
    (HybridConsensusEngine.mkConsensusState
       2000 Hash256_zero 0 0x1d00ffff one_validator one_stake [] 0
       1000000 100 1000 Double.half)
    0.

(** The same maps and total as [engine_a] in an engine that differs in
    everything else: height, best block, work, difficulty, parameters and
    the state of [rng_]. *)
Definition engine_c : HybridConsensusEngine.Engine :=
  HybridConsensusEngine.mkEngine
    (HybridConsensusEngine.mkConsensusState
       7 id_b 99 0x207fffff one_validator one_stake [] 2000000
       5 1 0 Double.one)
    123456789.

(** The number a string of decimal digits denotes. *)
Definition decimal_value (s : bytes) : Z :=
  fold_left (fun acc c => acc * 10 + (c - 48)) s 0.

(** A set of one entry and a transaction that spends it into one output
    (the apply/rollback scenario of the specification). *)
Definition funding_outpoint : UTXOSet.OutPoint := (id_a, 0).

Definition utxo_one : UTXOSet.t :=
  {[ funding_outpoint :=
       UTXOSet.mkUTXOEntry funding_outpoint (mkTxOutput 50000 [0x51]) 5 false ]}.

Definition spend_one : Transaction :=
  mkTransaction 2 [mkTxInput id_a 0 [] 0xFFFFFFFF] [mkTxOutput 40000 [0x51]] 0 None.

(** The set after [spend_one] at height 10, and its undo log. *)
Definition utxo_one_spent : UTXOSet.t :=
  {[ (get_hash spend_one, 0) :=
       UTXOSet.mkUTXOEntry (get_hash spend_one, 0) (mkTxOutput 40000 [0x51]) 10 false ]}.

Definition undo_one : list (UTXOSet.OutPoint * UTXOSet.UTXOEntry) :=
  [(funding_outpoint,
    UTXOSet.mkUTXOEntry funding_outpoint (mkTxOutput 50000 [0x51]) 5 false)].

(** ** Numbers denoted by digit strings, for the statements *)

(** The number a byte string denotes, least significant byte first. *)
Fixpoint le_value (l : list Z) : Z :=
  match l with
  | [] => 0
  | x :: l' => x + 256 * le_value l'
  end.

(** A byte string, least significant byte first, with no zero at its top. *)
Definition canonical (l : list Z) : Prop := Forall is_byte l /\ List.last l 1 <> 0.

(** The base-58 digits of a number, most significant first, as repeated
    division produces them. *)
Fixpoint base58_digits (fuel : nat) (v : Z) (acc : list Z) : list Z :=
  match fuel with
  | O => acc
  | S fuel' =>
      if v =? 0 then acc else base58_digits fuel' (v / 58) (v mod 58 :: acc)
  end.

(** The character of a base-58 digit. *)
Definition base58_char (d : Z) : Z := nth (Z.to_nat d) Base58.BASE58_ALPHABET 0.

(** A hexadecimal digit in lower case. *)
Definition to_lower (c : Z) : Z := if (65 <=? c) && (c <=? 70) then c + 32 else c.

Definition is_hex_digit (c : Z) : Prop :=
  48 <= c <= 57 \/ 97 <= c <= 102 \/ 65 <= c <= 70.

(** ** Proof automation *)

(** Halving on [nat]: the quotient and remainder by two, for [lia]. *)
Ltac halve n :=
  lazymatch goal with
  | _ : n = (2 * (n / 2) + n mod 2)%nat |- _ => fail
  | _ => pose proof (Nat.div_mod_eq n 2);
         pose proof (Nat.mod_upper_bound n 2 ltac:(lia))
  end.

Ltac halves :=
  repeat match goal with
    | |- context [Nat.div ?n 2] => halve n
    | |- context [Nat.modulo ?n 2] => halve n
    | H : context [Nat.div ?n 2] |- _ => halve n
    | H : context [Nat.modulo ?n 2] |- _ => halve n
    end.

Ltac hlia := halves; lia.

(** * Theorems *)

(** ** SHA-256: the constants and the test vectors *)

(** The derived constants: the first and the last of each table. *)
Example sha256_constants :
  length SHA256.K = 64%nat /\
  nth 0 SHA256.K 0 = 0x428a2f98 /\ nth 63 SHA256.K 0 = 0xc67178f2 /\
  SHA256.sa SHA256.H0 = 0x6a09e667 /\ SHA256.sh SHA256.H0 = 0x5be0cd19.
Proof. vm_compute. repeat split. Qed.

(** Test vectors of FIPS 180-4: the empty string and "abc". *)
Example sha256_empty :
  SHA256.hash [] =
  [0xe3;0xb0;0xc4;0x42;0x98;0xfc;0x1c;0x14;0x9a;0xfb;0xf4;0xc8;0x99;0x6f;0xb9;0x24;
   0x27;0xae;0x41;0xe4;0x64;0x9b;0x93;0x4c;0xa4;0x95;0x99;0x1b;0x78;0x52;0xb8;0x55].
Proof. vm_compute. reflexivity. Qed.

Example sha256_abc :
  SHA256.hash [97; 98; 99] =
  [0xba;0x78;0x16;0xbf;0x8f;0x01;0xcf;0xea;0x41;0x41;0x40;0xde;0x5d;0xae;0x22;0x23;
   0xb0;0x03;0x61;0xa3;0x96;0x17;0x7a;0x9c;0xb4;0x10;0xff;0x61;0xf2;0x00;0x15;0xad].
Proof. vm_compute. reflexivity. Qed.

(** A message of 56 bytes, which pads to two blocks. *)
Example sha256_two_blocks :
  SHA256.hash
    [97;98;99;100; 98;99;100;101; 99;100;101;102; 100;101;102;103;
     101;102;103;104; 102;103;104;105; 103;104;105;106; 104;105;106;107;
     105;106;107;108; 106;107;108;109; 107;108;109;110; 108;109;110;111;
     109;110;111;112; 110;111;112;113] =
  [0x24;0x8d;0x6a;0x61;0xd2;0x06;0x38;0xb8;0xe5;0xc0;0x26;0x93;0x0c;0x3e;0x60;0x39;
   0xa3;0x3c;0xe4;0x59;0x64;0xff;0x21;0x67;0xf6;0xec;0xed;0xd4;0x19;0xdb;0x06;0xc1].
Proof. vm_compute. reflexivity. Qed.



(** ** Merkle tree *)
Module MerkleFacts.
Import MerkleTree.

Lemma level_loop_spec (fuel : nat) (cur : list Hash256) :
  forall (k : nat) (acc : list Hash256),
    ((length cur + 1) / 2 - k <= fuel)%nat ->
    level_loop fuel cur (2 * k) acc
    = acc ++ map (fun j => combined_hash cur (2 * j))
               (seq k ((length cur + 1) / 2 - k)).
Proof.
  induction fuel as [|fuel IH]; intros k acc Hfuel; cbn [level_loop].
  - replace ((length cur + 1) / 2 - k)%nat with O by hlia.
    cbn [seq map]. now rewrite app_nil_r.
  - destruct (Nat.ltb_spec (2 * k) (length cur)) as [Hlt|Hge].
    + replace (2 * k + 2)%nat with (2 * S k)%nat by hlia.
      rewrite IH by hlia.
      replace ((length cur + 1) / 2 - k)%nat
        with (S ((length cur + 1) / 2 - S k)) by hlia.
      cbn [seq map]. now rewrite <- app_assoc.
    + replace ((length cur + 1) / 2 - k)%nat with O by hlia.
      cbn [seq map]. now rewrite app_nil_r.
Qed.

Lemma next_level_spec (cur : list Hash256) :
  next_level cur
  = map (fun j => combined_hash cur (2 * j)) (seq 0 ((length cur + 1) / 2)).
Proof.
  unfold next_level.
  change 0%nat with (2 * 0)%nat at 1.
  rewrite (level_loop_spec (length cur) cur 0 []) by hlia.
  now rewrite Nat.sub_0_r.
Qed.

Lemma next_level_length (cur : list Hash256) :
  length (next_level cur) = ((length cur + 1) / 2)%nat.
Proof. rewrite next_level_spec. now rewrite length_map, length_seq. Qed.

Lemma next_level_nth (cur : list Hash256) (j : nat) (d : Hash256) :
  (j < (length cur + 1) / 2)%nat ->
  nth j (next_level cur) d = combined_hash cur (2 * j).
Proof.
  intros Hj. rewrite next_level_spec.
  rewrite (nth_indep _ d (combined_hash cur (2 * 0)))
    by now rewrite length_map, length_seq.
  rewrite (map_nth (fun j => combined_hash cur (2 * j))).
  now rewrite seq_nth.
Qed.

(** [build_tree] appends to [levels_] the levels above its last one. *)
Lemma build_tree_levels_from (fuel : nat) :
  forall (pre : list (list Hash256)) (cur : list Hash256),
    build_tree fuel (pre ++ [cur]) = pre ++ levels_from fuel cur.
Proof.
  induction fuel as [|fuel IH]; intros pre cur; cbn [build_tree levels_from].
  - reflexivity.
  - rewrite List.last_last.
    destruct (1 <? length cur)%nat; [|reflexivity].
    rewrite IH, <- app_assoc. reflexivity.
Qed.

Lemma levels_from_cons (fuel : nat) (cur : list Hash256) :
  exists upper, levels_from fuel cur = cur :: upper.
Proof.
  destruct fuel; cbn [levels_from]; [now exists []|].
  destruct (1 <? length cur)%nat; eauto.
Qed.

(** With as much fuel as the level is long (less one), the loop of
    [build_tree] has stopped by itself: the top level is a single hash. *)
Lemma levels_from_top (fuel : nat) :
  forall cur : list Hash256,
    (1 <= length cur <= S fuel)%nat ->
    exists root, List.last (levels_from fuel cur) [] = [root].
Proof.
  induction fuel as [|fuel IH]; intros cur Hlen; cbn [levels_from].
  - destruct cur as [|h [|h' t]]; cbn in Hlen; try lia. now exists h.
  - destruct (Nat.ltb_spec 1 (length cur)) as [Hlt|Hge].
    + destruct (IH (next_level cur)) as [root Hroot].
      { rewrite next_level_length. hlia. }
      exists root.
      destruct (levels_from_cons fuel (next_level cur)) as [upper Hup].
      rewrite Hup in *. exact Hroot.
    + destruct cur as [|h [|h' t]]; cbn in Hlen, Hge; try lia. now exists h.
Qed.

(** More fuel than needed changes nothing. *)
Lemma levels_from_fuel (f1 : nat) :
  forall (f2 : nat) (cur : list Hash256),
    (length cur <= S f1)%nat -> (length cur <= S f2)%nat ->
    levels_from f1 cur = levels_from f2 cur.
Proof.
  induction f1 as [|f1 IH]; intros f2 cur H1 H2.
  - destruct f2; cbn [levels_from]; [reflexivity|].
    destruct (Nat.ltb_spec 1 (length cur)); [lia|reflexivity].
  - destruct f2; cbn [levels_from].
    + destruct (Nat.ltb_spec 1 (length cur)); [lia|reflexivity].
    + destruct (Nat.ltb_spec 1 (length cur)) as [Hlt|]; [|reflexivity].
      f_equal. apply IH; rewrite next_level_length; hlia.
Qed.

Lemma make_levels_from (H : list Hash256) :
  H <> [] -> make H = levels_from (length H) H.
Proof.
  intros HH. unfold make. destruct H as [|h t]; [congruence|].
  apply (build_tree_levels_from _ [] (h :: t)).
Qed.

(** Any number of turns from the number of leaves (less one) on builds
    the same tree. *)
Lemma build_tree_fuel (H : list Hash256) (fuel : nat) :
  H <> [] -> (length H <= S fuel)%nat -> build_tree fuel [H] = make H.
Proof.
  intros HH Hfuel. rewrite (make_levels_from H HH).
  change [H] with ([] ++ [H]).
  rewrite (build_tree_levels_from fuel [] H). cbn [app].
  apply levels_from_fuel; lia.
Qed.

Lemma skipn_nth_cons {A : Type} (d : A) :
  forall (l : list A) (i : nat),
    (i < length l)%nat -> skipn i l = nth i l d :: skipn (S i) l.
Proof.
  induction l as [|x l IH]; intros i Hi; cbn in Hi; [lia|].
  destruct i; [reflexivity|]. cbn [skipn nth].
  rewrite IH by lia. reflexivity.
Qed.

(** The loop of [get_proof] from [level] on reads the proof off the levels
    from [level] upwards. *)
Lemma proof_loop_spec (fuel : nat) (levels : list (list Hash256)) :
  forall (level idx : nat) (acc : list Hash256),
    (length levels - level <= S fuel)%nat ->
    proof_loop fuel levels level idx acc
    = acc ++ proof_from (skipn level levels) idx.
Proof.
  induction fuel as [|fuel IH]; intros level idx acc Hfuel; cbn [proof_loop].
  - destruct (Nat.le_gt_cases (length levels) level) as [Hge|Hlt].
    + rewrite skipn_all2 by lia. cbn. now rewrite app_nil_r.
    + rewrite (skipn_nth_cons [] levels level Hlt).
      rewrite (skipn_all2 levels) by lia. cbn. now rewrite app_nil_r.
  - destruct (Nat.ltb_spec level (length levels - 1)) as [Hlt|Hge].
    + rewrite IH by lia.
      rewrite (skipn_nth_cons [] levels level) by lia.
      replace (level + 1)%nat with (S level) by lia.
      rewrite (skipn_nth_cons [] levels (S level)) by lia.
      cbn [proof_from]. rewrite <- app_assoc. reflexivity.
    + destruct (Nat.le_gt_cases (length levels) level) as [Hge'|Hlt'].
      * rewrite skipn_all2 by lia. cbn. now rewrite app_nil_r.
      * rewrite (skipn_nth_cons [] levels level Hlt').
        rewrite (skipn_all2 levels) by lia. cbn. now rewrite app_nil_r.
Qed.

(** One step of the verification climbs from a node to its parent. *)
Lemma verify_step_parent (cur : list Hash256) (idx : nat) :
  (idx < length cur)%nat ->
  verify_step (nth idx cur Hash256_zero, idx) (proof_node cur idx)
  = (nth (idx / 2) (next_level cur) Hash256_zero, (idx / 2)%nat).
Proof.
  intros Hidx. unfold verify_step, proof_node.
  rewrite next_level_nth by hlia. unfold combined_hash.
  f_equal.
  destruct (Nat.eqb_spec (idx mod 2) 0) as [Heven|Hodd].
  - replace (2 * (idx / 2))%nat with idx by hlia.
    destruct (idx + 1 <? length cur)%nat; reflexivity.
  - replace (2 * (idx / 2))%nat with (idx - 1)%nat by hlia.
    replace (idx - 1 + 1)%nat with idx by hlia.
    destruct (Nat.ltb_spec (idx - 1) (length cur)); [|lia].
    destruct (Nat.ltb_spec idx (length cur)); [|lia].
    reflexivity.
Qed.

Lemma get_root_cons (cur : list Hash256) (upper : list (list Hash256)) :
  upper <> [] -> get_root (cur :: upper) = get_root upper.
Proof.
  intros Hup. unfold get_root.
  destruct upper as [|u upper']; [congruence|]. reflexivity.
Qed.

Lemma proof_from_cons (cur : list Hash256) (upper : list (list Hash256))
    (idx : nat) :
  upper <> [] ->
  proof_from (cur :: upper) idx
  = proof_node cur idx :: proof_from upper (idx / 2)%nat.
Proof. destruct upper; [congruence|reflexivity]. Qed.

(** Climbing from any node of a level along its proof reaches the root. *)
Lemma verify_from_level (fuel : nat) :
  forall (cur : list Hash256) (idx : nat),
    (idx < length cur)%nat -> (length cur <= S fuel)%nat ->
    fst (fold_left verify_step (proof_from (levels_from fuel cur) idx)
           (nth idx cur Hash256_zero, idx))
    = get_root (levels_from fuel cur).
Proof.
  induction fuel as [|fuel IH]; intros cur idx Hidx Hlen; cbn [levels_from].
  - destruct cur as [|h [|h' t]]; cbn in Hidx, Hlen; try lia.
    assert (idx = O) by lia. subst idx. reflexivity.
  - destruct (Nat.ltb_spec 1 (length cur)) as [Hlt|Hge].
    + destruct (levels_from_cons fuel (next_level cur)) as [upper Hup].
      rewrite get_root_cons by (rewrite Hup; discriminate).
      rewrite proof_from_cons by (rewrite Hup; discriminate).
      cbn [fold_left]. rewrite verify_step_parent by exact Hidx.
      apply IH; rewrite next_level_length; hlia.
    + destruct cur as [|h [|h' t]]; cbn in Hidx, Hge; try lia.
      assert (idx = O) by lia. subst idx. reflexivity.
Qed.

Lemma levels_from_step (fuel : nat) :
  forall (cur : list Hash256) (k : nat),
    (S k < length (levels_from fuel cur))%nat ->
    nth (S k) (levels_from fuel cur) []
    = next_level (nth k (levels_from fuel cur) []).
Proof.
  induction fuel as [|fuel IH]; intros cur k Hk; cbn [levels_from] in *.
  - cbn in Hk. lia.
  - destruct (1 <? length cur)%nat; [|cbn in Hk; lia].
    cbn [length] in Hk. destruct k as [|k].
    + destruct (levels_from_cons fuel (next_level cur)) as [upper Hup].
      rewrite Hup. reflexivity.
    + cbn [nth]. apply IH. lia.
Qed.

(** The loop of [build_tree] runs only on a level of more than one hash:
    every level that has a level above it is such a level. *)
Lemma levels_from_below_top (fuel : nat) :
  forall (cur : list Hash256) (k : nat),
    (S k < length (levels_from fuel cur))%nat ->
    (1 < length (nth k (levels_from fuel cur) []))%nat.
Proof.
  induction fuel as [|fuel IH]; intros cur k Hk; cbn [levels_from] in *.
  - cbn in Hk. lia.
  - destruct (Nat.ltb_spec 1 (length cur)) as [Hlt|Hge]; [|cbn in Hk; lia].
    cbn [length] in Hk. destruct k as [|k]; [exact Hlt|].
    cbn [nth]. apply IH. lia.
Qed.

Lemma combined_hash_pair (cur : list Hash256) (j : nat) :
  combined_hash cur (2 * j)
  = SHA256.hash
      (nth (2 * j) cur Hash256_zero
       ++ nth (if (2 * j + 1 <? length cur)%nat then 2 * j + 1 else 2 * j)%nat
            cur Hash256_zero).
Proof. unfold combined_hash. destruct (2 * j + 1 <? length cur)%nat; reflexivity. Qed.

(** C4, as the code has it.  The tree over a non-empty list of leaf hashes:
    its bottom level is the list itself; a level is built above a level
    exactly when that level has more than one hash; it pairs the adjacent
    hashes of the level below, the last hash of a level of odd length with
    itself, and the parent of a pair (L, R) is the single SHA-256 of L
    followed by R; the top level, the first one of a single hash, is the
    root, so that the tree over one hash is that hash alone; and the merkle
    root of a block with no memoized root is the root of the tree over its
    transaction hashes. *)
Theorem merkle_levels_single_sha256 (H : list Hash256) :
  H <> [] ->
  nth 0 (make H) [] = H /\
  (forall k : nat, (S k < length (make H))%nat ->
     let cur := nth k (make H) [] in
     let nxt := nth (S k) (make H) [] in
     (1 < length cur)%nat /\
     length nxt = ((length cur + 1) / 2)%nat /\
     forall j : nat, (j < length nxt)%nat ->
       nth j nxt Hash256_zero
       = SHA256.hash
           (nth (2 * j) cur Hash256_zero
            ++ nth (if (2 * j + 1 <? length cur)%nat then 2 * j + 1 else 2 * j)%nat
                 cur Hash256_zero)) /\
  (exists root : Hash256,
     List.last (make H) [] = [root] /\ get_root (make H) = root /\
     (forall h : Hash256, H = [h] -> make H = [[h]] /\ root = h) /\
     forall b : Block,
       cached_merkle b = None -> map get_hash (transactions b) = H ->
       calculate_merkle_root b = root).
Proof.
  intros HH. rewrite (make_levels_from H HH).
  split; [|split].
  - destruct (levels_from_cons (length H) H) as [upper Hup].
    rewrite Hup. reflexivity.
  - intros k Hk cur nxt. subst cur nxt.
    split; [apply levels_from_below_top; exact Hk|].
    rewrite (levels_from_step _ _ _ Hk).
    split; [apply next_level_length|].
    intros j Hj. rewrite next_level_length in Hj.
    rewrite next_level_nth by exact Hj. apply combined_hash_pair.
  - destruct (levels_from_top (length H) H) as [root Hroot].
    { destruct H; [congruence|]. cbn [length]. lia. }
    exists root. split; [exact Hroot|].
    assert (Hget : get_root (levels_from (length H) H) = root).
    { unfold get_root.
      destruct (levels_from_cons (length H) H) as [upper Hup].
      rewrite Hup in *. rewrite Hroot. reflexivity. }
    split; [exact Hget|].
    split.
    { intros h ->. cbn in Hroot. injection Hroot as <-.
      split; reflexivity. }
    intros b Hcache Htx. unfold calculate_merkle_root. rewrite Hcache.
    destruct (transactions b) as [|tx txs] eqn:Etx.
    { cbn in Htx. congruence. }
    rewrite Htx, (make_levels_from H HH). exact Hget.
Qed.

(** The tree over three leaves: two levels above them, the third leaf
    paired with itself. *)
Lemma merkle_levels_single_sha256_witness :
  let H := [repeat 1 32; repeat 2 32; repeat 3 32] in
  nth 0 (make H) [] = H /\
  (forall k : nat, (S k < length (make H))%nat ->
     let cur := nth k (make H) [] in
     let nxt := nth (S k) (make H) [] in
     (1 < length cur)%nat /\
     length nxt = ((length cur + 1) / 2)%nat /\
     forall j : nat, (j < length nxt)%nat ->
       nth j nxt Hash256_zero
       = SHA256.hash
           (nth (2 * j) cur Hash256_zero
            ++ nth (if (2 * j + 1 <? length cur)%nat then 2 * j + 1 else 2 * j)%nat
                 cur Hash256_zero)) /\
  (exists root : Hash256,
     List.last (make H) [] = [root] /\ get_root (make H) = root /\
     (forall h : Hash256, H = [h] -> make H = [[h]] /\ root = h) /\
     forall b : Block,
       cached_merkle b = None -> map get_hash (transactions b) = H ->
       calculate_merkle_root b = root).
Proof.
  apply (merkle_levels_single_sha256 [repeat 1 32; repeat 2 32; repeat 3 32]).
  discriminate.
Defined.

(** C4, as stated, fails: over the two leaves L = 32 bytes 0x00 and
    R = 32 bytes 0x01 the tree has the single parent SHA256(L ++ R), which
    is not double_sha256(L ++ R). *)
Lemma merkle_parent_not_double_sha256 :
  make [repeat 0 32; repeat 1 32]
  = [[repeat 0 32; repeat 1 32]; [SHA256.hash (repeat 0 32 ++ repeat 1 32)]] /\
  get_root (make [repeat 0 32; repeat 1 32])
  <> SHA256.double_hash (repeat 0 32 ++ repeat 1 32).
Proof.
  split.
  - vm_compute. reflexivity.
  - intros Heq. vm_compute in Heq. discriminate Heq.
Qed.

(** C5.  For a non-empty list of leaf hashes and an index inside it, the
    proof that [get_proof] gives for the leaf verifies against the root of
    the tree, and against no other root.  [verify_proof] is the climb the
    claim describes and nothing else: with no proof hash left it accepts
    exactly when the running hash is the root; with a proof hash it puts
    the running hash on the left when the index is even and on the right
    when it is odd, hashes the pair once, and goes on with half the
    index. *)
Theorem verify_proof_of_get_proof (H : list Hash256) (i : nat) :
  H <> [] -> (i < length H)%nat ->
  verify_proof (nth i H Hash256_zero) (get_proof (make H) i)
    (get_root (make H)) i (length H) = true /\
  (forall root : Hash256,
     verify_proof (nth i H Hash256_zero) (get_proof (make H) i) root i
       (length H) = true -> root = get_root (make H)) /\
  (forall (leaf root : Hash256) (idx n : nat),
     verify_proof leaf [] root idx n = true <-> leaf = root) /\
  (forall (leaf sibling root : Hash256) (rest : list Hash256) (idx n : nat),
     verify_proof leaf (sibling :: rest) root idx n
     = verify_proof
         (if (idx mod 2 =? 0)%nat then SHA256.hash (leaf ++ sibling)
          else SHA256.hash (sibling ++ leaf))
         rest root (idx / 2)%nat n).
Proof.
  intros HH Hi.
  assert (Hclimb : fst (fold_left verify_step (get_proof (make H) i)
                          (nth i H Hash256_zero, i))
                   = get_root (make H)).
  2: { split; [unfold verify_proof; apply bool_decide_eq_true; exact Hclimb|].
       split.
       - intros root Hroot. unfold verify_proof in Hroot.
         apply bool_decide_eq_true in Hroot. rewrite <- Hroot. exact Hclimb.
       - split; [|reflexivity].
         intros leaf root idx n. unfold verify_proof. cbn [fold_left fst].
         apply bool_decide_eq_true. }
  rewrite (make_levels_from H HH).
  assert (Hproof : get_proof (levels_from (length H) H) i
                   = proof_from (levels_from (length H) H) i).
  { unfold get_proof.
    destruct (levels_from_cons (length H) H) as [upper Hup].
    rewrite Hup at 1.
    destruct (Nat.leb_spec (length H) i); [lia|].
    rewrite (proof_loop_spec _ _ 0 i []) by lia. reflexivity. }
  rewrite Hproof. apply verify_from_level; lia.
Qed.

Lemma verify_proof_of_get_proof_witness :
  verify_proof (nth 2 [repeat 1 32; repeat 2 32; repeat 3 32] Hash256_zero)
    (get_proof (make [repeat 1 32; repeat 2 32; repeat 3 32]) 2)
    (get_root (make [repeat 1 32; repeat 2 32; repeat 3 32])) 2
    (length [repeat 1 32; repeat 2 32; repeat 3 32]) = true /\
  (forall root : Hash256,
     verify_proof (nth 2 [repeat 1 32; repeat 2 32; repeat 3 32] Hash256_zero)
       (get_proof (make [repeat 1 32; repeat 2 32; repeat 3 32]) 2) root 2
       (length [repeat 1 32; repeat 2 32; repeat 3 32]) = true ->
     root = get_root (make [repeat 1 32; repeat 2 32; repeat 3 32])) /\
  (forall (leaf root : Hash256) (idx n : nat),
     verify_proof leaf [] root idx n = true <-> leaf = root) /\
  (forall (leaf sibling root : Hash256) (rest : list Hash256) (idx n : nat),
     verify_proof leaf (sibling :: rest) root idx n
     = verify_proof
         (if (idx mod 2 =? 0)%nat then SHA256.hash (leaf ++ sibling)
          else SHA256.hash (sibling ++ leaf))
         rest root (idx / 2)%nat n).
Proof.
  apply (verify_proof_of_get_proof [repeat 1 32; repeat 2 32; repeat 3 32] 2).
  - discriminate.
  - cbn. lia.
Defined.

End MerkleFacts.

(** ** Doubles: the literals *)
Example double_literals :
  Double.one = S754_finite false 4503599627370496 (-52) /\
  Double.half = S754_finite false 4503599627370496 (-53) /\
  Double.tenth = S754_finite false 7205759403792794 (-56) /\
  Double.pow256 1 = S754_finite false 4503599627370496 (-44) /\
  Double.pow256 200 = S754_infinity false /\
  Double.of_Z (2 ^ 64 - 1) = S754_finite false 4503599627370496 12.
Proof. vm_compute. repeat split. Qed.

(** ** Bytes and words *)
Module ByteFacts.

Lemma land_255_byte (x : Z) : is_byte (Z.land x 255).
Proof.
  unfold is_byte. change 255 with (Z.ones 8).
  rewrite Z.land_ones by lia. apply Z.mod_pos_bound. lia.
Qed.

Lemma hash_length (m : bytes) : length (SHA256.hash m) = 32%nat.
Proof. reflexivity. Qed.

Lemma hash_bytes (m : bytes) : Forall is_byte (SHA256.hash m).
Proof.
  unfold SHA256.hash, SHA256.digest.
  generalize (SHA256.blocks (length (SHA256.pad m)) (SHA256.pad m) SHA256.H0).
  intros s. cbn [flat_map SHA256.be_word_bytes le_bytes seq map rev app].
  repeat (constructor; [apply land_255_byte|]). constructor.
Qed.

Lemma lor_shiftl_byte (a b : Z) :
  0 <= a -> is_byte b -> Z.lor (Z.shiftl a 8) b = a * 256 + b.
Proof.
  intros Ha Hb. unfold is_byte in Hb.
  assert (Hland : Z.land (Z.shiftl a 8) b = 0).
  { apply Z.bits_inj'. intros n Hn. rewrite Z.land_spec, Z.bits_0.
    destruct (Z.lt_ge_cases n 8) as [Hlow|Hhigh].
    - rewrite Z.shiftl_spec_low by lia. reflexivity.
    - destruct (Z.eq_dec b 0) as [->|Hb0].
      + rewrite Z.bits_0. apply andb_false_r.
      + assert (Hlog : Z.log2 b < 8) by (apply Z.log2_lt_pow2; lia).
        rewrite (Z.bits_above_log2 b n) by lia.
        apply andb_false_r. }
  rewrite <- Z.lxor_lor by exact Hland.
  rewrite <- Z.add_nocarry_lxor by exact Hland.
  rewrite Z.shiftl_mul_pow2 by lia. reflexivity.
Qed.

End ByteFacts.

(** ** Proof of work *)
Module ProofOfWorkFacts.
Import ProofOfWorkMiner.

(** *** The check of [block.cpp] is the full comparison *)

Lemma be_fold_init (l : list Z) :
  forall init : Z,
    fold_left (fun acc b => acc * 256 + b) l init
    = init * 256 ^ Z.of_nat (length l)
      + fold_left (fun acc b => acc * 256 + b) l 0.
Proof.
  induction l as [|x l IH]; intros init; cbn [fold_left length].
  - cbn. lia.
  - rewrite (IH (init * 256 + x)), (IH (0 * 256 + x)).
    rewrite Nat2Z.inj_succ, Z.pow_succ_r by lia. ring.
Qed.

Lemma be_value_cons (x : Z) (l : list Z) :
  be_value (x :: l) = x * 256 ^ Z.of_nat (length l) + be_value l.
Proof.
  unfold be_value. cbn [fold_left]. rewrite be_fold_init. ring.
Qed.

Lemma be_value_bound (l : list Z) :
  Forall is_byte l -> 0 <= be_value l < 256 ^ Z.of_nat (length l).
Proof.
  induction 1 as [|x l Hx Hl IH].
  - cbn. lia.
  - rewrite be_value_cons. cbn [length].
    rewrite Nat2Z.inj_succ, Z.pow_succ_r by lia.
    unfold is_byte in Hx. nia.
Qed.

(** On byte strings of one length [memcmp] orders as the big-endian
    numbers do. *)
Lemma memcmp_le_be_value (a : list Z) :
  forall b : list Z,
    length a = length b -> Forall is_byte a -> Forall is_byte b ->
    memcmp_le a b = (be_value a <=? be_value b).
Proof.
  induction a as [|x a IH]; intros [|y b] Hlen Ha Hb;
    try discriminate Hlen; cbn [memcmp_le].
  - reflexivity.
  - injection Hlen as Hlen.
    apply List.Forall_cons_iff in Ha. destruct Ha as [Hx Ha].
    apply List.Forall_cons_iff in Hb. destruct Hb as [Hy Hb].
    rewrite !be_value_cons, <- Hlen.
    pose proof (be_value_bound a Ha) as Ba.
    pose proof (be_value_bound b Hb) as Bb. rewrite <- Hlen in Bb.
    set (P := 256 ^ Z.of_nat (length a)) in *.
    destruct (Z.ltb_spec x y) as [Hxy|Hxy].
    + symmetry. apply Z.leb_le. nia.
    + destruct (Z.ltb_spec y x) as [Hyx|Hyx].
      * symmetry. apply Z.leb_gt. nia.
      * assert (x = y) by lia. subst y. rewrite (IH b Hlen Ha Hb).
        destruct (Z.leb_spec (be_value a) (be_value b));
          symmetry; [apply Z.leb_le|apply Z.leb_gt]; lia.
Qed.

Lemma three_bytes (m : Z) :
  0 <= m < 2 ^ 24 ->
  Z.land (Z.shiftr m 16) 255 * 65536 + Z.land (Z.shiftr m 8) 255 * 256
  + Z.land m 255 = m.
Proof.
  intros Hm. change 255 with (Z.ones 8).
  rewrite !Z.land_ones, !Z.shiftr_div_pow2 by lia.
  change (2 ^ 16) with 65536. change (2 ^ 8) with 256.
  Z.div_mod_to_equations. lia.
Qed.

Lemma mantissa_23_bits (bits : Z) :
  Z.land bits 0xffffff < 2 ^ 23 ->
  Z.land bits 0x7FFFFF = Z.land bits 0xffffff.
Proof.
  intros Hm. change 0x7FFFFF with (Z.ones 23).
  change 0xffffff with (Z.ones 24) in *.
  rewrite !Z.land_ones in * by lia.
  change (2 ^ 24) with (2 ^ 23 * 2) in *.
  rewrite Z.rem_mul_r in * by lia.
  pose proof (Z.mod_pos_bound bits (2 ^ 23) ltac:(lia)).
  pose proof (Z.mod_pos_bound (bits / 2 ^ 23) 2 ltac:(lia)).
  lia.
Qed.

(** The target array for an exponent from 4 to 32, the three mantissa
    bytes left symbolic. *)
Lemma target_array (e : nat) (b2 b1 b0 : Z) :
  (4 <= e <= 32)%nat ->
  let start := u64 (32 - Z.of_nat e) in
  let target :=
    set_byte start b2
      (set_byte (start + 1) b1 (set_byte (start + 2) b0 (repeat 0 32))) in
  (32 <=? start) = false /\ length target = 32%nat /\
  be_value target = (b2 * 65536 + b1 * 256 + b0) * 256 ^ (Z.of_nat e - 3) /\
  (is_byte b2 -> is_byte b1 -> is_byte b0 -> Forall is_byte target).
Proof.
  intros He.
  do 33 (destruct e as [|e];
         [ try lia;
           intros start target;
           vm_compute in (value of start); vm_compute in (value of target);
           subst start target;
           (split; [reflexivity|]); (split; [reflexivity|]);
           (split; [unfold be_value; cbn [fold_left]; lia|]);
           intros; repeat (constructor; try assumption); unfold is_byte; lia
         | ]).
  lia.
Qed.

(** For a compact target with exponent from 4 to 32 and bit 23 of the
    mantissa clear, [mining::hash_meets_target] (and with it
    [BlockHeader::meets_difficulty_target]) accepts a 32-byte hash exactly
    when its 256-bit big-endian value is at most
    mantissa * 256 ^ (exponent - 3). *)
Lemma hash_meets_target_full_comparison (hash : Hash256) (bits : Z) :
  length hash = 32%nat -> Forall is_byte hash ->
  0 <= bits -> 4 <= Z.shiftr bits 24 <= 32 ->
  Z.land bits 0xffffff < 2 ^ 23 ->
  hash_meets_target hash bits = (be_value hash <=? compact_target bits).
Proof.
  intros Hlen Hbytes Hbits He Hm.
  pose proof (mantissa_23_bits bits Hm) as Hm23.
  assert (Hm0 : 0 <= Z.land bits 0xffffff) by (apply Z.land_nonneg; lia).
  unfold hash_meets_target, compact_target, get_target.
  rewrite Hm23.
  destruct (Z.leb_spec (Z.shiftr bits 24) 3); [lia|].
  destruct (Z.leb_spec 3 (Z.shiftr bits 24)); [|lia].
  set (m := Z.land bits 0xffffff) in *.
  destruct (target_array (Z.to_nat (Z.shiftr bits 24))
              (Z.land (Z.shiftr m 16) 0xFF) (Z.land (Z.shiftr m 8) 0xFF)
              (Z.land m 0xFF) ltac:(lia)) as (Hstart & Hl & Hv & Hb).
  rewrite Z2Nat.id in Hstart, Hl, Hv, Hb by lia.
  rewrite Hstart.
  rewrite memcmp_le_be_value.
  - rewrite Hv. rewrite three_bytes by lia. reflexivity.
  - rewrite Hl. exact Hlen.
  - exact Hbytes.
  - apply Hb; apply ByteFacts.land_255_byte.
Qed.

Lemma BlockHeader_meets_difficulty_target_full (h : BlockHeader) :
  0 <= difficulty_target h -> 4 <= Z.shiftr (difficulty_target h) 24 <= 32 ->
  Z.land (difficulty_target h) 0xffffff < 2 ^ 23 ->
  BlockHeader_meets_difficulty_target h
  = (be_value (BlockHeader_calculate_hash h)
     <=? compact_target (difficulty_target h)).
Proof.
  intros Hbits He Hm.
  apply hash_meets_target_full_comparison; try assumption.
  - apply ByteFacts.hash_length.
  - apply ByteFacts.hash_bytes.
Qed.

(** C1 at the empty block data, nonce 210 and compact target 0x0800ffff.
    There [bits_to_target] is exact (0xffff * 256 ^ 5, no bit lost), the
    check of [ProofOfWorkMiner] accepts, and the comparison of the 256-bit
    big-endian value of the double SHA-256 with that target rejects. *)
Theorem verify_proof_of_work_not_full_comparison :
  verify_proof_of_work [] 210 0x0800ffff = Some true /\
  full_target_check [] 210 0x0800ffff = false /\
  bits_to_target 0x0800ffff = Some (compact_target 0x0800ffff) /\
  hash_meets_target (compute_block_hash [] 210) 0x0800ffff = false.
Proof. vm_compute. repeat split. Qed.

End ProofOfWorkFacts.

(** ** Difficulty adjustment *)
Module DifficultyFacts.
Import DifficultyAdjustment.

(** C2 on the code.  Whatever the current difficulty and the time spans
    (and whatever the undefined shift and cast yield), the two limit tests
    return [MIN_DIFFICULTY_BITS] = 0x207fffff: a value above
    [MAX_DIFFICULTY_BITS] is set to it, and every value up to
    [MAX_DIFFICULTY_BITS] is below [MIN_DIFFICULTY_BITS].  From 0x1d00ffff
    the expanded target thus grows by more than the factor four. *)
Theorem calculate_next_difficulty_constant
    (max_target_shift : Z) (undef : Double.double -> Z)
    (current_difficulty actual_time_span target_time_span : Z) :
  calculate_next_difficulty max_target_shift undef
    current_difficulty actual_time_span target_time_span = 0x207fffff /\
  4 * compact_target 0x1d00ffff
  < compact_target
      (calculate_next_difficulty max_target_shift undef 0x1d00ffff
         (2016 * 600) (2016 * 600)).
Proof.
  assert (Hconst : forall c a t,
    calculate_next_difficulty max_target_shift undef c a t = 0x207fffff).
  { intros c a t. unfold calculate_next_difficulty.
    set (bits := difficulty_to_bits _ _ _). clearbody bits.
    unfold MAX_DIFFICULTY_BITS, MIN_DIFFICULTY_BITS.
    destruct (Z.ltb_spec 0x1d00ffff bits); [reflexivity|].
    destruct (Z.ltb_spec bits 0x207fffff); [reflexivity|lia]. }
  split; [apply Hconst|].
  rewrite Hconst. vm_compute. reflexivity.
Qed.

(** No compact value passes [is_valid_difficulty_target]. *)
Lemma is_valid_difficulty_target_never (bits : Z) :
  is_valid_difficulty_target bits = false.
Proof.
  unfold is_valid_difficulty_target, MIN_DIFFICULTY_BITS, MAX_DIFFICULTY_BITS.
  apply andb_false_iff.
  destruct (Z.leb_spec 0x207fffff bits); [right|left; reflexivity].
  apply Z.leb_gt. lia.
Qed.

(** So the hybrid adjustment keeps the current difficulty, whatever it is
    given. *)
Lemma calculate_hybrid_difficulty_keeps
    (max_target_shift : Z) (undef undef32 : Double.double -> Z)
    (current_difficulty actual_time_span target_time_span : Z)
    (pow_ratio_last_period target_pow_ratio : Double.double) :
  calculate_hybrid_difficulty max_target_shift undef undef32
    current_difficulty actual_time_span target_time_span
    pow_ratio_last_period target_pow_ratio = current_difficulty.
Proof.
  unfold calculate_hybrid_difficulty. cbv zeta.
  rewrite is_valid_difficulty_target_never. reflexivity.
Qed.

End DifficultyFacts.

(** ** Timestamps *)
Module TimestampFacts.
Import BlockValidator.

(** C9, as stated, fails: with the previous eleven block times 1000, 1600,
    ..., 7000 (median 4000, previous block 7000) and the current time 5000, a
    block stamped 5000 is above the median and not in the future, and
    [validate_timestamp], given the previous block's time, rejects it. *)
Lemma validate_timestamp_not_median :
  median [1000; 1600; 2200; 2800; 3400; 4000; 4600; 5200; 5800; 6400; 7000] = 4000 /\
  List.last [1000; 1600; 2200; 2800; 3400; 4000; 4600; 5200; 5800; 6400; 7000] 0 = 7000 /\
  (4000 <? 5000) && (5000 <=? 5000 + MAX_TIMESTAMP_DRIFT) = true /\
  validate_timestamp 5000 7000 5000 = false.
Proof. vm_compute. repeat split. Qed.

(** C9, as the code has it.  The check accepts exactly when the block's
    time is strictly greater than the previous block's time it is given
    and at most the sum of the current time and 7200 as the code computes
    it, in 64 bits.  A block whose time is at most the previous block's
    time, or more than 7200 seconds after the current time, is always
    rejected.  While the current time is below 2^64 - 7200 the sum is the
    current time plus 7200 seconds; from there on it wraps around, and
    the check accepts up to the current time plus 7200 less 2^64 only. *)
Theorem validate_timestamp_previous_block
    (block_timestamp previous_block_timestamp current_time : Z) :
  (validate_timestamp block_timestamp previous_block_timestamp current_time
   = true
   <-> previous_block_timestamp < block_timestamp
       /\ block_timestamp <= (current_time + MAX_TIMESTAMP_DRIFT) mod 2 ^ 64) /\
  (0 <= current_time ->
   block_timestamp <= previous_block_timestamp
   \/ current_time + MAX_TIMESTAMP_DRIFT < block_timestamp ->
   validate_timestamp block_timestamp previous_block_timestamp current_time
   = false) /\
  (0 <= current_time < 2 ^ 64 - MAX_TIMESTAMP_DRIFT ->
   (validate_timestamp block_timestamp previous_block_timestamp current_time
    = true
    <-> previous_block_timestamp < block_timestamp
        /\ block_timestamp <= current_time + MAX_TIMESTAMP_DRIFT)) /\
  (2 ^ 64 - MAX_TIMESTAMP_DRIFT <= current_time < 2 ^ 64 ->
   (validate_timestamp block_timestamp previous_block_timestamp current_time
    = true
    <-> previous_block_timestamp < block_timestamp
        /\ block_timestamp <= current_time + MAX_TIMESTAMP_DRIFT - 2 ^ 64)).
Proof.
  unfold MAX_TIMESTAMP_DRIFT.
  assert (Hcode : validate_timestamp block_timestamp previous_block_timestamp
                    current_time = true
                  <-> previous_block_timestamp < block_timestamp
                      /\ block_timestamp <= (current_time + 7200) mod 2 ^ 64).
  { unfold validate_timestamp, u64.
    destruct (Z.leb_spec block_timestamp previous_block_timestamp);
      destruct (Z.ltb_spec ((current_time + 7200) mod 2 ^ 64) block_timestamp);
      split; intros; try discriminate; try reflexivity; lia. }
  split; [exact Hcode|]. split; [|split].
  - intros Hnow Hrej.
    destruct (validate_timestamp block_timestamp previous_block_timestamp
                current_time) eqn:Hv; [exfalso|reflexivity].
    destruct (proj1 Hcode eq_refl) as [Hprev Hdrift].
    pose proof (Z.mod_le (current_time + 7200) (2 ^ 64) ltac:(lia) ltac:(lia)).
    lia.
  - intros Hnow. rewrite Hcode, Z.mod_small by lia. reflexivity.
  - intros Hnow. rewrite Hcode.
    replace ((current_time + 7200) mod 2 ^ 64)
      with (current_time + 7200 - 2 ^ 64); [reflexivity|].
    apply Z.mod_unique with (q := 1); lia.
Qed.

Lemma validate_timestamp_previous_block_witness :
  (validate_timestamp 5000 4000 5000 = true
   <-> 4000 < 5000 /\ 5000 <= (5000 + MAX_TIMESTAMP_DRIFT) mod 2 ^ 64) /\
  (0 <= 5000 ->
   5000 <= 4000 \/ 5000 + MAX_TIMESTAMP_DRIFT < 5000 ->
   validate_timestamp 5000 4000 5000 = false) /\
  (0 <= 5000 < 2 ^ 64 - MAX_TIMESTAMP_DRIFT ->
   (validate_timestamp 5000 4000 5000 = true
    <-> 4000 < 5000 /\ 5000 <= 5000 + MAX_TIMESTAMP_DRIFT)) /\
  (2 ^ 64 - MAX_TIMESTAMP_DRIFT <= 5000 < 2 ^ 64 ->
   (validate_timestamp 5000 4000 5000 = true
    <-> 4000 < 5000 /\ 5000 <= 5000 + MAX_TIMESTAMP_DRIFT - 2 ^ 64)).
Proof.
  exact (validate_timestamp_previous_block 5000 4000 5000).
Defined.

End TimestampFacts.

(** ** The ordered map *)
Module StdMapFacts.
Import StdMap.

Lemma find_assign_eq {V : Type} (k : Hash256) (v : V) (m : t V) :
  find k (assign k v m) = Some v.
Proof.
  induction m as [|[k' v'] m IH]; cbn [assign find].
  - now rewrite bool_decide_eq_true_2.
  - destruct (bool_decide (k = k')) eqn:E; cbn [find].
    + now rewrite bool_decide_eq_true_2.
    + destruct (hash_ltb k k'); cbn [find].
      * now rewrite bool_decide_eq_true_2.
      * rewrite E. exact IH.
Qed.

Lemma find_assign_ne {V : Type} (k k' : Hash256) (v : V) (m : t V) :
  k <> k' -> find k' (assign k v m) = find k' m.
Proof.
  intros Hne. induction m as [|[k0 v0] m IH]; cbn [assign find].
  - rewrite bool_decide_eq_false_2 by congruence. reflexivity.
  - destruct (bool_decide (k = k0)) eqn:E.
    + apply bool_decide_eq_true in E. subst k0. cbn [find].
      rewrite !bool_decide_eq_false_2 by congruence. reflexivity.
    + destruct (hash_ltb k k0); cbn [find].
      * rewrite (bool_decide_eq_false_2 (k' = k)) by congruence. reflexivity.
      * destruct (bool_decide (k' = k0)); [reflexivity|exact IH].
Qed.

Lemma hash_ltb_irrefl (a : Hash256) : hash_ltb a a = false.
Proof.
  induction a as [|x a IH]; cbn [hash_ltb]; [reflexivity|].
  rewrite Z.ltb_irrefl. exact IH.
Qed.

Lemma hash_ltb_trans (a : Hash256) :
  forall b c : Hash256,
    hash_ltb a b = true -> hash_ltb b c = true -> hash_ltb a c = true.
Proof.
  induction a as [|x a IH]; intros [|y b] [|z c]; cbn [hash_ltb];
    try discriminate; try reflexivity.
  destruct (Z.ltb_spec x y), (Z.ltb_spec y x), (Z.ltb_spec y z),
    (Z.ltb_spec z y), (Z.ltb_spec x z), (Z.ltb_spec z x);
    try discriminate; try reflexivity; try lia.
  apply IH.
Qed.

(** In a sorted map nothing is found below the first key. *)
Lemma find_below_first {V : Type} (k k' : Hash256) (v' : V) (m : t V) :
  sorted_keys ((k', v') :: m) -> hash_ltb k k' = true -> find k m = None.
Proof.
  intros Hs Hlt. apply StronglySorted_inv in Hs. destruct Hs as [_ Hall].
  induction m as [|[k0 v0] m IH]; [reflexivity|].
  apply Forall_cons_iff in Hall. destruct Hall as [Hk0 Hall]. cbn [fst] in Hk0.
  cbn [find]. rewrite bool_decide_eq_false_2; [apply IH; exact Hall|].
  intros ->. pose proof (hash_ltb_trans _ _ _ Hlt Hk0) as Hkk.
  rewrite hash_ltb_irrefl in Hkk. discriminate.
Qed.

End StdMapFacts.

(** ** Validators: penalties, rewards, registration *)
Module ValidatorFacts.
Import HybridConsensusEngine StdMapFacts.

(** C6 on the code, at a freshly added validator (reputation 100) and a
    penalty of 101 points: the 32-bit subtraction 100 - 101 wraps to
    4294967295, [std::max(0u, _)] keeps it, and the validator stays active;
    the claim has reputation 0 and an inactive validator there. *)
Theorem penalize_validator_wraps :
  StdMap.find id_a
    (validators (state_ (snd (add_validator genesis_engine id_a pk_a 2000000))))
  = Some (mkValidator id_a 2000000 0 100 true pk_a 0 0) /\
  StdMap.find id_a
    (validators
       (state_ (penalize_validator
                  (snd (add_validator genesis_engine id_a pk_a 2000000))
                  id_a 101)))
  = Some (mkValidator id_a 2000000 0 4294967295 true pk_a 0 1).
Proof. vm_compute. split; reflexivity. Qed.

(** Where the penalty does not exceed the reputation the claim holds. *)
Lemma penalize_within_reputation (v : Validator) (p : Z) :
  0 <= p <= reputation_score v -> reputation_score v <= 100 ->
  0 <= missed_slots v < 2 ^ 32 - 1 ->
  reputation_score (penalize v p) = Z.max 0 (reputation_score v - p) /\
  0 <= reputation_score (penalize v p) <= 100 /\
  missed_slots (penalize v p) = missed_slots v + 1 /\
  is_active (penalize v p)
  = (if reputation_score (penalize v p) <? 10 then false else is_active v).
Proof.
  intros Hp Hr Hm. unfold penalize. cbn.
  unfold u32, max_0u. rewrite !Z.mod_small by lia.
  destruct (Z.ltb_spec 0 (reputation_score v - p)); repeat split; lia.
Qed.

(** A reward leaves the reputation within 0 and 100, whatever it was. *)
Lemma reward_reputation_bounded (v : Validator) (r : Z) :
  0 <= reputation_score (reward v r) <= 100.
Proof.
  unfold reward. cbn. unfold min_100u, u32.
  pose proof (Z.mod_pos_bound (reputation_score v + r) (2 ^ 32) ltac:(lia)).
  destruct (Z.ltb_spec ((reputation_score v + r) mod 2 ^ 32) 100); lia.
Qed.

Lemma stake_sum_assign (k : Hash256) (s_new s_old : StakeEntry)
    (m : StdMap.t StakeEntry) :
  sorted_keys m -> StdMap.find k m = Some s_old ->
  stake_sum (StdMap.assign k s_new m) = stake_sum m - amount s_old + amount s_new.
Proof.
  induction m as [|[k' s'] m IH]; intros Hs Hfind; cbn [StdMap.find] in Hfind.
  - discriminate.
  - cbn [StdMap.assign]. destruct (bool_decide (k = k')) eqn:E.
    + injection Hfind as ->. cbn [stake_sum fold_right snd].
      fold (stake_sum m). clear. lia.
    + destruct (StdMap.hash_ltb k k') eqn:Hlt.
      * rewrite (find_below_first k k' s' m Hs Hlt) in Hfind. discriminate.
      * cbn [stake_sum fold_right snd].
        apply StronglySorted_inv in Hs. destruct Hs as [Hs _].
        fold (stake_sum (StdMap.assign k s_new m)). fold (stake_sum m).
        rewrite (IH Hs Hfind). clear. lia.
Qed.

(** C10.  [add_validator] with an id that is registered already and a stake
    of at least [min_stake_amount]: the call succeeds; the validator entry
    is replaced by a fresh one (reputation 100, active, nothing produced or
    missed) and the stake entry by a locked one that unlocks at
    [current_height + stake_maturity_blocks] (32 bits); the other entries
    stay; [total_stake] grows by the whole new stake (64 bits), the replaced
    amount is not subtracted: when [total_stake] was the sum of the stored
    entries it exceeds that sum afterwards by the replaced amount. *)
Theorem add_validator_existing_id (e : Engine) (id : Hash256) (pk : PublicKey)
    (stake : Z) (v_old : Validator) (s_old : StakeEntry) :
  StdMap.find id (validators (state_ e)) = Some v_old ->
  StdMap.find id (stakes (state_ e)) = Some s_old ->
  min_stake_amount (state_ e) <= stake ->
  fst (add_validator e id pk stake) = true /\
  StdMap.find id (validators (state_ (snd (add_validator e id pk stake))))
  = Some (mkValidator id stake 0 100 true pk 0 0) /\
  StdMap.find id (stakes (state_ (snd (add_validator e id pk stake))))
  = Some (mkStakeEntry id stake
            (u32 (current_height (state_ e) + stake_maturity_blocks (state_ e)))
            true) /\
  (forall id' : Hash256, id' <> id ->
     StdMap.find id' (validators (state_ (snd (add_validator e id pk stake))))
     = StdMap.find id' (validators (state_ e)) /\
     StdMap.find id' (stakes (state_ (snd (add_validator e id pk stake))))
     = StdMap.find id' (stakes (state_ e))) /\
  total_stake (state_ (snd (add_validator e id pk stake)))
  = u64 (total_stake (state_ e) + stake) /\
  (sorted_keys (stakes (state_ e)) ->
   total_stake (state_ e) = stake_sum (stakes (state_ e)) ->
   0 <= total_stake (state_ e) -> 0 <= stake ->
   total_stake (state_ e) + stake < 2 ^ 64 ->
   total_stake (state_ (snd (add_validator e id pk stake)))
   = total_stake (state_ e) + stake /\
   total_stake (state_ (snd (add_validator e id pk stake)))
   = stake_sum (stakes (state_ (snd (add_validator e id pk stake))))
     + amount s_old).
Proof.
  intros Hv Hs Hmin. unfold add_validator.
  destruct (Z.ltb_spec stake (min_stake_amount (state_ e))); [lia|].
  cbn [fst snd state_ validators stakes total_stake set_validators set_stakes
       current_height stake_maturity_blocks].
  split; [reflexivity|].
  split; [apply find_assign_eq|].
  split; [apply find_assign_eq|].
  split.
  { intros id' Hne. split; apply find_assign_ne; congruence. }
  split; [reflexivity|].
  intros Hsorted Hsum Htot Hstake Hfit.
  assert (Hu : u64 (total_stake (state_ e) + stake) = total_stake (state_ e) + stake).
  { unfold u64. apply Z.mod_small. lia. }
  rewrite Hu. split; [reflexivity|].
  rewrite (stake_sum_assign id _ s_old _ Hsorted Hs). cbn [amount]. lia.
Qed.

(** The same validator added twice to a fresh engine: the second call
    succeeds, one stake entry of 2000000 is stored, and [total_stake] is
    4000000. *)
Lemma add_validator_existing_id_witness :
  fst (add_validator (snd (add_validator genesis_engine id_a pk_a 2000000))
         id_a pk_a 2000000) = true /\
  total_stake
    (state_ (snd (add_validator
                   (snd (add_validator genesis_engine id_a pk_a 2000000))
                   id_a pk_a 2000000))) = 4000000 /\
  stake_sum
    (stakes
       (state_ (snd (add_validator
                      (snd (add_validator genesis_engine id_a pk_a 2000000))
                      id_a pk_a 2000000)))) = 2000000.
Proof.
  pose proof (add_validator_existing_id
                (snd (add_validator genesis_engine id_a pk_a 2000000))
                id_a pk_a 2000000
                (mkValidator id_a 2000000 0 100 true pk_a 0 0)
                (mkStakeEntry id_a 2000000 100 true)
                eq_refl eq_refl) as H.
  destruct H as (Hok & _ & _ & _ & _ & Hsum).
  { vm_compute. discriminate. }
  split; [exact Hok|].
  destruct Hsum as [Htot Hexc].
  - repeat constructor.
  - reflexivity.
  - vm_compute. discriminate.
  - vm_compute. discriminate.
  - vm_compute. reflexivity.
  - split; vm_compute; reflexivity.
Defined.

End ValidatorFacts.


(** ** Validator selection *)
Module SelectionFacts.
Import HybridConsensusEngine ByteFacts.

Lemma gather_ext (s1 s2 : ConsensusState) (t : Z)
    (acc : list (Hash256 * Double.double) * Double.double)
    (kv : Hash256 * Validator) :
  validators s1 = validators s2 -> stakes s1 = stakes s2 ->
  total_stake s1 = total_stake s2 ->
  gather s1 t acc kv = gather s2 t acc kv.
Proof.
  intros Hv Hs Ht.
  unfold gather, is_validator_eligible, calculate_validator_selection_weight.
  rewrite Hv, Hs, Ht. reflexivity.
Qed.

Lemma fold_gather_ext (s1 s2 : ConsensusState) (t : Z)
    (l : list (Hash256 * Validator)) :
  validators s1 = validators s2 -> stakes s1 = stakes s2 ->
  total_stake s1 = total_stake s2 ->
  forall acc, fold_left (gather s1 t) l acc = fold_left (gather s2 t) l acc.
Proof.
  intros Hv Hs Ht. induction l as [|kv l IH]; intros acc; cbn [fold_left].
  - reflexivity.
  - rewrite (gather_ext s1 s2 t acc kv Hv Hs Ht). apply IH.
Qed.

(** C7, as the code has it.  The selection reads the validator map, the stake
    map and [total_stake] of the consensus state, and nothing else of the
    engine: two engines that agree on these three return the same validator
    id for the same slot time and previous block hash. *)
Theorem select_validator_by_stake_deterministic
    (uniform_draw : Z -> Double.double) (e1 e2 : Engine)
    (slot_time : Z) (previous_block_hash : Hash256) :
  validators (state_ e1) = validators (state_ e2) ->
  stakes (state_ e1) = stakes (state_ e2) ->
  total_stake (state_ e1) = total_stake (state_ e2) ->
  select_validator_by_stake uniform_draw e1 slot_time previous_block_hash
  = select_validator_by_stake uniform_draw e2 slot_time previous_block_hash.
Proof.
  intros Hv Hs Ht. unfold select_validator_by_stake. cbv zeta.
  rewrite (fold_gather_ext (state_ e1) (state_ e2) slot_time
             (validators (state_ e1)) Hv Hs Ht).
  rewrite Hv, Ht. reflexivity.
Qed.

Lemma select_validator_by_stake_deterministic_witness :
  select_validator_by_stake (fun _ => Double.half) engine_a 1700000000 id_b
  = select_validator_by_stake (fun _ => Double.half) engine_c 1700000000 id_b.
Proof.
  apply (select_validator_by_stake_deterministic
           (fun _ => Double.half) engine_a engine_c 1700000000 id_b);
    reflexivity.
Defined.

Lemma pick_single (r : Double.double) (id : Hash256) (w : Double.double) :
  match pick r Double.zero [(id, w)] with
  | Some i => i
  | None => fst (List.last [(id, w)] (Hash256_zero, Double.zero))
  end = id.
Proof. cbn [pick]. destruct (Double.leb _ _); reflexivity. Qed.

(** C7, as stated, fails: [engine_a] and [engine_b] have the same validator
    and stake maps, and for the same slot time and previous block hash the
    first returns the validator and the second, whose [total_stake] is 0,
    the null id, whatever the generator draws. *)
Lemma select_validator_by_stake_reads_total_stake :
  validators (state_ engine_a) = validators (state_ engine_b) /\
  stakes (state_ engine_a) = stakes (state_ engine_b) /\
  (forall uniform_draw : Z -> Double.double,
     select_validator_by_stake uniform_draw engine_a 1700000000 id_b = id_a /\
     select_validator_by_stake uniform_draw engine_b 1700000000 id_b = Hash256_zero) /\
  id_a <> Hash256_zero.
Proof.
  split; [reflexivity|]. split; [reflexivity|]. split; [|discriminate].
  intros uniform_draw. split; [|reflexivity].
  unfold select_validator_by_stake. cbv zeta.
  destruct (fold_left (gather (state_ engine_a) 1700000000)
              (validators (state_ engine_a)) ([], Double.zero))
    as [ws tw] eqn:E.
  vm_compute in E. injection E as <- <-.
  cbn [state_ validators total_stake engine_a one_validator Z.eqb].
  replace (Double.leb _ Double.zero) with false by (vm_compute; reflexivity).
  apply pick_single.
Qed.

(** The shift-and-or loop over the first eight bytes reads them as a
    big-endian number. *)
Lemma seed_step (acc b : Z) :
  0 <= acc < 2 ^ 56 -> is_byte b ->
  Z.lor (u64 (Z.shiftl acc 8)) b = acc * 256 + b.
Proof.
  intros Hacc Hb. unfold u64.
  rewrite (Z.mod_small (Z.shiftl acc 8)) by (rewrite Z.shiftl_mul_pow2; lia).
  apply lor_shiftl_byte; [lia|exact Hb].
Qed.

Lemma seed_value_big_endian (seed : Hash256) :
  length seed = 32%nat -> Forall is_byte seed ->
  seed_value seed = be_value (firstn 8 seed).
Proof.
  intros Hlen Hbytes.
  destruct seed as [|b0 [|b1 [|b2 [|b3 [|b4 [|b5 [|b6 [|b7 rest]]]]]]]];
    try discriminate Hlen.
  repeat match goal with
         | H : Forall is_byte (_ :: _) |- _ =>
             apply List.Forall_cons_iff in H; destruct H as [? H]
         end.
  unfold is_byte in *.
  unfold seed_value, be_value. cbn [seq fold_left nth firstn].
  repeat match goal with
         | |- context [Z.lor (u64 (Z.shiftl ?a 8)) ?b] =>
             rewrite (seed_step a b) by (unfold is_byte; lia)
         end.
  reflexivity.
Qed.

Lemma digits_value (fuel : nat) :
  forall (n : Z) (acc : bytes),
    (0 < fuel)%nat -> 0 <= n < 10 ^ Z.of_nat fuel ->
    fold_left (fun a c => a * 10 + (c - 48)) (digits fuel n acc) 0
    = fold_left (fun a c => a * 10 + (c - 48)) acc n.
Proof.
  induction fuel as [|fuel IH]; intros n acc Hfuel Hn; [lia|].
  cbn [digits]. destruct (Z.eqb_spec (n / 10) 0) as [Hz|Hnz].
  - cbn [fold_left]. f_equal.
    pose proof (Z.div_mod n 10 ltac:(lia)). lia.
  - assert (Hpow : 10 ^ Z.of_nat (S fuel) = 10 * 10 ^ Z.of_nat fuel).
    { rewrite Nat2Z.inj_succ, Z.pow_succ_r by lia. reflexivity. }
    assert (Hq : 0 <= n / 10 < 10 ^ Z.of_nat fuel).
    { split; [apply Z.div_pos; lia|apply Z.div_lt_upper_bound; lia]. }
    destruct fuel as [|fuel'].
    { cbn in Hq. lia. }
    rewrite IH by (try lia; exact Hq).
    cbn [fold_left]. f_equal.
    pose proof (Z.div_mod n 10 ltac:(lia)). lia.
Qed.

Lemma digits_are_digits (fuel : nat) :
  forall (n : Z) (acc : bytes),
    0 <= n -> Forall (fun c => 48 <= c <= 57) acc ->
    Forall (fun c => 48 <= c <= 57) (digits fuel n acc).
Proof.
  induction fuel as [|fuel IH]; intros n acc Hn Hacc; cbn [digits]; [exact Hacc|].
  assert (Hd : Forall (fun c => 48 <= c <= 57) ((48 + n mod 10) :: acc)).
  { constructor; [|exact Hacc].
    pose proof (Z.mod_pos_bound n 10 ltac:(lia)). lia. }
  destruct (n / 10 =? 0); [exact Hd|].
  apply IH; [apply Z.div_pos; lia|exact Hd].
Qed.

(** C8, as the code has it.  For a 64-bit slot time the seed of the
    selection is the single SHA-256 of the decimal digits of [slot_time]
    (ASCII, as [std::to_string] prints them) followed by the previous block
    hash; the generator is seeded with the first eight bytes of that digest
    read as a big-endian number, and the selection consults the generator
    at that seed only. *)
Theorem selection_seed (slot_time : Z) (previous_block_hash : Hash256) :
  0 <= slot_time < 2 ^ 64 ->
  seed_hash slot_time previous_block_hash
  = SHA256.hash (to_string slot_time ++ previous_block_hash) /\
  Forall (fun c => 48 <= c <= 57) (to_string slot_time) /\
  decimal_value (to_string slot_time) = slot_time /\
  seed_value (seed_hash slot_time previous_block_hash)
  = be_value (firstn 8 (seed_hash slot_time previous_block_hash)) /\
  forall (e : Engine) (draw1 draw2 : Z -> Double.double),
    draw1 (be_value (firstn 8 (seed_hash slot_time previous_block_hash)))
    = draw2 (be_value (firstn 8 (seed_hash slot_time previous_block_hash))) ->
    select_validator_by_stake draw1 e slot_time previous_block_hash
    = select_validator_by_stake draw2 e slot_time previous_block_hash.
Proof.
  intros Ht.
  assert (Hseed : seed_value (seed_hash slot_time previous_block_hash)
                  = be_value (firstn 8 (seed_hash slot_time previous_block_hash))).
  { apply seed_value_big_endian; [apply hash_length|apply hash_bytes]. }
  split; [reflexivity|].
  split; [apply digits_are_digits; [lia|constructor]|].
  split.
  { unfold decimal_value, to_string.
    rewrite digits_value; [reflexivity|lia|].
    change (Z.of_nat 20) with 20. lia. }
  split; [exact Hseed|].
  intros e draw1 draw2 Hdraw.
  unfold select_validator_by_stake. cbv zeta.
  rewrite Hseed, Hdraw. reflexivity.
Qed.

Lemma selection_seed_witness :
  seed_hash 1700000000 id_b = SHA256.hash (to_string 1700000000 ++ id_b) /\
  Forall (fun c => 48 <= c <= 57) (to_string 1700000000) /\
  decimal_value (to_string 1700000000) = 1700000000 /\
  seed_value (seed_hash 1700000000 id_b)
  = be_value (firstn 8 (seed_hash 1700000000 id_b)) /\
  forall (e : Engine) (draw1 draw2 : Z -> Double.double),
    draw1 (be_value (firstn 8 (seed_hash 1700000000 id_b)))
    = draw2 (be_value (firstn 8 (seed_hash 1700000000 id_b))) ->
    select_validator_by_stake draw1 e 1700000000 id_b
    = select_validator_by_stake draw2 e 1700000000 id_b.
Proof. apply (selection_seed 1700000000 id_b). lia. Defined.

(** C8, as stated, fails: at slot time 1700000000 and the previous block
    hash of 32 bytes 0xBB the seed hashes the ten ASCII digits followed by
    the hash, once, and differs from the double SHA-256 of the eight
    little-endian bytes of the slot time followed by the hash. *)
Lemma selection_seed_not_double_sha256_le :
  to_string 1700000000 = [49; 55; 48; 48; 48; 48; 48; 48; 48; 48] /\
  seed_hash 1700000000 id_b
  <> SHA256.double_hash (write_uint64_le 1700000000 ++ id_b).
Proof.
  split; [reflexivity|].
  intros Heq. vm_compute in Heq. discriminate Heq.
Qed.

End SelectionFacts.

(** ** The UTXO set *)
Module UTXOFacts.
Import UTXOSet.

Lemma bind_Ok {A B : Type} (r : result A) (k : A -> result B) (b : B) :
  bind r k = Ok b -> exists a, r = Ok a /\ k a = Ok b.
Proof. destruct r as [a|e]; cbn; [eauto|discriminate]. Qed.

(** Reinserting the log of [remove_inputs] undoes it. *)
Lemma remove_inputs_restore (ins : list TxInput) :
  forall (S S1 : t) (undo : list (OutPoint * UTXOEntry)),
    remove_inputs S ins = Ok (S1, undo) -> restore undo S1 = Ok S.
Proof.
  induction ins as [|i ins IH]; intros S S1 undo H; cbn [remove_inputs] in H.
  - injection H as <- <-. reflexivity.
  - destruct (S !! outpoint_of i) as [e|] eqn:Hlook; [|discriminate].
    unfold remove in H. rewrite Hlook in H. cbn [bind] in H.
    apply bind_Ok in H. destruct H as ([S2 undo2] & Hrec & Hret).
    cbn [fst snd] in Hret. injection Hret as <- <-.
    cbn [restore]. rewrite (IH _ _ _ Hrec). cbn [bind].
    unfold add. rewrite lookup_delete_eq.
    rewrite insert_delete_id by exact Hlook. reflexivity.
Qed.

(** Removing the outputs that [add_outputs] added undoes it. *)
Lemma add_outputs_remove (txid : Hash256) (h : Z) (cb : bool)
    (outs : list TxOutput) :
  forall (k : Z) (S1 S2 : t),
    add_outputs txid h cb k outs S1 = Ok S2 ->
    remove_outputs txid k outs S2 = Ok S1.
Proof.
  induction outs as [|o outs IH]; intros k S1 S2 H; cbn [add_outputs] in H.
  - injection H as <-. reflexivity.
  - apply bind_Ok in H. destruct H as (S3 & Hadd & Hrec).
    unfold add in Hadd.
    destruct (S1 !! _) eqn:Hlook in Hadd; [discriminate|].
    injection Hadd as <-.
    cbn [remove_outputs]. rewrite (IH _ _ _ Hrec). cbn [bind].
    unfold remove. rewrite lookup_insert_eq.
    rewrite delete_insert_id by exact Hlook. reflexivity.
Qed.

(** [add_outputs] keeps the entries that are there. *)
Lemma add_outputs_keeps (txid : Hash256) (h : Z) (cb : bool)
    (outs : list TxOutput) :
  forall (k : Z) (S1 S2 : t) (op : OutPoint),
    add_outputs txid h cb k outs S1 = Ok S2 ->
    is_Some (S1 !! op) -> is_Some (S2 !! op).
Proof.
  induction outs as [|o outs IH]; intros k S1 S2 op H Hop; cbn [add_outputs] in H.
  - injection H as <-. exact Hop.
  - apply bind_Ok in H. destruct H as (S3 & Hadd & Hrec).
    unfold add in Hadd.
    destruct (S1 !! _) eqn:Hlook in Hadd; [discriminate|].
    injection Hadd as <-.
    apply (IH _ _ _ op Hrec).
    destruct (decide ((txid, k) = op)) as [<-|Hne].
    + rewrite lookup_insert_eq. eauto.
    + rewrite lookup_insert_ne by exact Hne. exact Hop.
Qed.

Lemma add_outputs_first (txid : Hash256) (h : Z) (cb : bool)
    (o : TxOutput) (outs : list TxOutput) (k : Z) (S1 S2 : t) :
  add_outputs txid h cb k (o :: outs) S1 = Ok S2 -> is_Some (S2 !! (txid, k)).
Proof.
  intros H. cbn [add_outputs] in H.
  apply bind_Ok in H. destruct H as (S3 & Hadd & Hrec).
  unfold add in Hadd.
  destruct (S1 !! _) eqn:Hlook in Hadd; [discriminate|].
  injection Hadd as <-.
  apply (add_outputs_keeps _ _ _ _ _ _ _ _ Hrec).
  rewrite lookup_insert_eq. eauto.
Qed.

Lemma add_outputs_present (txid : Hash256) (h : Z) (cb : bool)
    (o : TxOutput) (outs : list TxOutput) (k : Z) (S : t) :
  is_Some (S !! (txid, k)) ->
  add_outputs txid h cb k (o :: outs) S = Err AlreadyExists.
Proof.
  intros [e He]. cbn [add_outputs]. unfold add. rewrite He. reflexivity.
Qed.

(** [remove_inputs] touches the outpoints of the inputs only. *)
Lemma remove_inputs_other (ins : list TxInput) :
  forall (S S1 : t) (undo : list (OutPoint * UTXOEntry)) (op : OutPoint),
    remove_inputs S ins = Ok (S1, undo) ->
    Forall (fun i => outpoint_of i <> op) ins ->
    S1 !! op = S !! op.
Proof.
  induction ins as [|i ins IH]; intros S S1 undo op H Hall; cbn [remove_inputs] in H.
  - injection H as <- <-. reflexivity.
  - destruct (S !! outpoint_of i) as [e|] eqn:Hlook; [|discriminate].
    unfold remove in H. rewrite Hlook in H. cbn [bind] in H.
    apply bind_Ok in H. destruct H as ([S2 undo2] & Hrec & Hret).
    cbn [fst snd] in Hret. injection Hret as <- <-.
    apply List.Forall_cons_iff in Hall. destruct Hall as [Hi Hall].
    rewrite (IH _ _ _ op Hrec Hall).
    apply lookup_delete_ne. exact Hi.
Qed.

(** C3.  When [apply_transaction] succeeds on a set, rolling the
    transaction back with the undo log it returned gives the set back, the
    same map; and for a transaction with at least one output, none of whose
    inputs spends an output of the transaction itself, applying it again to
    the set it produced fails, at any height. *)
Theorem apply_rollback_roundtrip (S : t) (tx : Transaction) (h : Z)
    (S' : t) (undo : list (OutPoint * UTXOEntry)) :
  apply_transaction S tx h = Ok (S', undo) ->
  rollback_transaction S' tx undo = Ok S /\
  (outputs tx <> [] ->
   Forall (fun i => prev_tx_hash i <> get_hash tx) (inputs tx) ->
   forall h' : Z, exists err : error, apply_transaction S' tx h' = Err err).
Proof.
  intros Happly. unfold apply_transaction in Happly.
  destruct (is_coinbase tx) eqn:Hcb.
  - apply bind_Ok in Happly. destruct Happly as (S1 & Hadd & Hret).
    injection Hret as <- <-. split.
    + unfold rollback_transaction.
      rewrite (add_outputs_remove _ _ _ _ _ _ _ Hadd). reflexivity.
    + intros Houts _ h'. unfold apply_transaction. rewrite Hcb.
      destruct (outputs tx) as [|o outs]; [congruence|].
      rewrite add_outputs_present by exact (add_outputs_first _ _ _ _ _ _ _ _ Hadd).
      eexists. reflexivity.
  - apply bind_Ok in Happly. destruct Happly as ([] & _ & Happly).
    destruct (input_value S (inputs tx) <? output_value (outputs tx));
      [discriminate|].
    apply bind_Ok in Happly. destruct Happly as ([S1 undo1] & Hrem & Happly).
    apply bind_Ok in Happly. destruct Happly as (S2 & Hadd & Hret).
    cbn [fst snd] in Hadd, Hret. injection Hret as <- <-. split.
    + unfold rollback_transaction.
      rewrite (add_outputs_remove _ _ _ _ _ _ _ Hadd). cbn [bind].
      exact (remove_inputs_restore _ _ _ _ Hrem).
    + intros Houts Hself h'. unfold apply_transaction. rewrite Hcb.
      destruct (check_inputs S2 h' (inputs tx)) as [[]|err]; [|cbn; eauto].
      cbn [bind].
      destruct (input_value S2 (inputs tx) <? output_value (outputs tx));
        [eauto|].
      destruct (remove_inputs S2 (inputs tx)) as [[S3 undo3]|err] eqn:Hrem2;
        [|cbn; eauto].
      cbn [bind fst snd].
      destruct (outputs tx) as [|o outs]; [congruence|].
      rewrite add_outputs_present; [cbn; eauto|].
      rewrite (remove_inputs_other _ _ _ _ (get_hash tx, 0) Hrem2).
      * exact (add_outputs_first _ _ _ _ _ _ _ _ Hadd).
      * eapply List.Forall_impl; [|exact Hself].
        intros i Hi Heq. apply Hi. unfold outpoint_of in Heq. congruence.
Qed.

(** The scenario of the specification: a set of one entry, spent into one
    output, rolled back; and the second application fails. *)
Lemma apply_rollback_roundtrip_witness :
  apply_transaction utxo_one spend_one 10 = Ok (utxo_one_spent, undo_one) /\
  rollback_transaction utxo_one_spent spend_one undo_one = Ok utxo_one /\
  forall h' : Z, exists err : error,
    apply_transaction utxo_one_spent spend_one h' = Err err.
Proof.
  assert (E : apply_transaction utxo_one spend_one 10
              = Ok (utxo_one_spent, undo_one)) by (vm_compute; reflexivity).
  split; [exact E|].
  destruct (apply_rollback_roundtrip _ _ _ _ _ E) as [Hback Hagain].
  split; [exact Hback|]. apply Hagain.
  - discriminate.
  - repeat constructor. cbn [prev_tx_hash]. intros Heq.
    vm_compute in Heq. discriminate Heq.
Defined.

End UTXOFacts.

(** ** Bits of bytes *)
Module BitFacts.

Lemma lor_shiftl_add (a b k : Z) :
  0 <= k -> 0 <= b < 2 ^ k -> Z.lor (Z.shiftl a k) b = a * 2 ^ k + b.
Proof.
  intros Hk Hb.
  assert (Hland : Z.land (Z.shiftl a k) b = 0).
  { apply Z.bits_inj'. intros n Hn. rewrite Z.land_spec, Z.bits_0.
    destruct (Z.lt_ge_cases n k) as [Hlow|Hhigh].
    - rewrite Z.shiftl_spec_low by lia. reflexivity.
    - destruct (Z.eq_dec b 0) as [->|Hb0].
      + rewrite Z.bits_0. apply andb_false_r.
      + assert (Hlog : Z.log2 b < k) by (apply Z.log2_lt_pow2; lia).
        rewrite (Z.bits_above_log2 b n) by lia.
        apply andb_false_r. }
  rewrite <- Z.lxor_lor by exact Hland.
  rewrite <- Z.add_nocarry_lxor by exact Hland.
  rewrite Z.shiftl_mul_pow2 by lia. reflexivity.
Qed.

Lemma below_pow2_log2 (x k : Z) : 0 < k -> 0 <= x -> (x < 2 ^ k <-> Z.log2 x < k).
Proof.
  intros Hk Hx. destruct (Z.eq_dec x 0) as [->|Hx0].
  - cbn. split; intros _; [|apply Z.pow_pos_nonneg]; lia.
  - apply Z.log2_lt_pow2. lia.
Qed.

Lemma lor_below (a b k : Z) :
  0 < k -> 0 <= a < 2 ^ k -> 0 <= b < 2 ^ k -> 0 <= Z.lor a b < 2 ^ k.
Proof.
  intros Hk Ha Hb.
  assert (H0 : 0 <= Z.lor a b) by (apply Z.lor_nonneg; lia).
  split; [exact H0|].
  apply below_pow2_log2; [lia|exact H0|].
  rewrite Z.log2_lor by lia.
  apply Z.max_lub_lt; apply below_pow2_log2; lia.
Qed.

Lemma lxor_below (a b k : Z) :
  0 < k -> 0 <= a < 2 ^ k -> 0 <= b < 2 ^ k -> 0 <= Z.lxor a b < 2 ^ k.
Proof.
  intros Hk Ha Hb.
  assert (H0 : 0 <= Z.lxor a b) by (apply Z.lxor_nonneg; lia).
  split; [exact H0|].
  apply below_pow2_log2; [lia|exact H0|].
  eapply Z.le_lt_trans; [apply Z.log2_lxor; lia|].
  apply Z.max_lub_lt; apply below_pow2_log2; lia.
Qed.

Lemma u8_byte (b : Z) : is_byte b -> u8 b = b.
Proof. unfold is_byte, u8. intros Hb. apply Z.mod_small. lia. Qed.

End BitFacts.

(** ** Hexadecimal strings *)
Module HexFacts.
Import utils BitFacts.

Lemma hex_to_nibble_hex_chars (k : nat) :
  (k < 16)%nat -> hex_to_nibble (nth k hex_chars 0) = Some (Z.of_nat k).
Proof.
  intros Hk.
  do 16 (destruct k as [|k]; [reflexivity|]). lia.
Qed.

Lemma to_lower_hex_chars (k : nat) :
  (k < 16)%nat -> is_hex_digit (nth k hex_chars 0) /\
                  to_lower (nth k hex_chars 0) = nth k hex_chars 0.
Proof.
  intros Hk. unfold is_hex_digit.
  do 16 (destruct k as [|k]; [cbn; split; [lia|reflexivity]|]). lia.
Qed.

Lemma nibbles_of_byte (b : Z) :
  is_byte b ->
  0 <= Z.shiftr b 4 < 16 /\ 0 <= Z.land b 0x0F < 16 /\
  u8 (Z.lor (Z.shiftl (Z.shiftr b 4) 4) (Z.land b 0x0F)) = b.
Proof.
  unfold is_byte. intros Hb.
  rewrite Z.shiftr_div_pow2 by lia.
  change 0x0F with (Z.ones 4). rewrite Z.land_ones by lia.
  change (2 ^ 4) with 16.
  assert (H1 : 0 <= b / 16 < 16) by (split; [apply Z.div_pos|apply Z.div_lt_upper_bound]; lia).
  assert (H2 : 0 <= b mod 16 < 16) by (apply Z.mod_pos_bound; lia).
  split; [exact H1|]. split; [exact H2|].
  rewrite lor_shiftl_add by (change (2 ^ 4) with 16; lia).
  change (2 ^ 4) with 16.
  rewrite u8_byte; unfold is_byte; pose proof (Z.div_mod b 16 ltac:(lia)); lia.
Qed.

Lemma from_hex_loop_to_hex (data : bytes) :
  Forall is_byte data ->
  forall acc : bytes, from_hex_loop (to_hex data) acc = Some (acc ++ data).
Proof.
  induction 1 as [|b data Hb Hdata IH]; intros acc.
  - cbn. now rewrite app_nil_r.
  - destruct (nibbles_of_byte b Hb) as (Hhi & Hlo & Hbyte).
    cbn [to_hex flat_map app from_hex_loop]. fold (to_hex data).
    rewrite (hex_to_nibble_hex_chars (Z.to_nat (Z.shiftr b 4))) by lia.
    rewrite (hex_to_nibble_hex_chars (Z.to_nat (Z.land b 0x0F))) by lia.
    rewrite !Z2Nat.id by lia. rewrite Hbyte.
    rewrite IH, <- app_assoc. reflexivity.
Qed.

Lemma to_hex_length (data : bytes) : length (to_hex data) = (2 * length data)%nat.
Proof.
  induction data as [|b data IH]; [reflexivity|].
  cbn [to_hex flat_map app length]. fold (to_hex data). rewrite IH. lia.
Qed.

(** X1.  [from_hex] undoes [to_hex]: for every byte string [data],
    [from_hex(to_hex(data))] is [data]. *)
Theorem from_hex_to_hex (data : bytes) :
  Forall is_byte data -> from_hex (to_hex data) = Some data.
Proof.
  intros Hdata. unfold from_hex. rewrite to_hex_length.
  replace (2 * length data mod 2)%nat with O
    by (symmetry; apply Nat.Div0.mod_same || (rewrite Nat.mul_comm; apply Nat.Div0.mod_mul)).
  cbn [Nat.eqb negb]. apply (from_hex_loop_to_hex data Hdata []).
Qed.

Lemma from_hex_to_hex_witness :
  from_hex (to_hex [0; 1; 0xab; 0xff]) = Some [0; 1; 0xab; 0xff].
Proof.
  apply (from_hex_to_hex [0; 1; 0xab; 0xff]).
  repeat constructor; unfold is_byte; lia.
Defined.

Lemma hex_to_nibble_Some (c n : Z) :
  hex_to_nibble c = Some n ->
  is_hex_digit c /\ 0 <= n < 16 /\ nth (Z.to_nat n) hex_chars 0 = to_lower c.
Proof.
  unfold hex_to_nibble, is_hex_digit, to_lower. intros H.
  destruct (Z.leb_spec 48 c), (Z.leb_spec c 57); cbn [andb] in H;
    try (injection H as <-;
         assert (Hc : exists k : nat, (k < 10)%nat /\ c = 48 + Z.of_nat k)
           by (exists (Z.to_nat (c - 48)); lia);
         destruct Hc as (k & Hk & ->);
         split; [lia|]; split; [lia|];
         replace (48 + Z.of_nat k - 48) with (Z.of_nat k) by lia;
         rewrite Nat2Z.id;
         do 10 (destruct k as [|k]; [reflexivity|]); lia).
  all: destruct (Z.leb_spec 97 c), (Z.leb_spec c 102); cbn [andb] in H;
    try (injection H as <-;
         assert (Hc : exists k : nat, (k < 6)%nat /\ c = 97 + Z.of_nat k)
           by (exists (Z.to_nat (c - 97)); lia);
         destruct Hc as (k & Hk & ->);
         split; [lia|]; split; [lia|];
         replace (97 + Z.of_nat k - 97 + 10) with (Z.of_nat (k + 10)) by lia;
         rewrite Nat2Z.id;
         do 6 (destruct k as [|k]; [reflexivity|]); lia).
  all: destruct (Z.leb_spec 65 c), (Z.leb_spec c 70); cbn [andb] in H;
    try discriminate;
    try (injection H as <-;
         assert (Hc : exists k : nat, (k < 6)%nat /\ c = 65 + Z.of_nat k)
           by (exists (Z.to_nat (c - 65)); lia);
         destruct Hc as (k & Hk & ->);
         split; [lia|]; split; [lia|];
         replace (65 + Z.of_nat k - 65 + 10) with (Z.of_nat (k + 10)) by lia;
         rewrite Nat2Z.id;
         do 6 (destruct k as [|k]; [reflexivity|]); lia).
Qed.

Lemma hex_to_nibble_None (c : Z) : hex_to_nibble c = None <-> ~ is_hex_digit c.
Proof.
  unfold hex_to_nibble, is_hex_digit.
  destruct (Z.leb_spec 48 c), (Z.leb_spec c 57),
    (Z.leb_spec 97 c), (Z.leb_spec c 102),
    (Z.leb_spec 65 c), (Z.leb_spec c 70); cbn [andb];
    split; intros Hx; try discriminate; try reflexivity; try lia;
    exfalso; apply Hx; lia.
Qed.

Lemma nibble_pair_byte (h l : Z) :
  0 <= h < 16 -> 0 <= l < 16 ->
  let b := u8 (Z.lor (Z.shiftl h 4) l) in
  is_byte b /\ Z.shiftr b 4 = h /\ Z.land b 0x0F = l.
Proof.
  intros Hh Hl b. subst b.
  rewrite lor_shiftl_add by (change (2 ^ 4) with 16; lia).
  change (2 ^ 4) with 16.
  rewrite u8_byte by (unfold is_byte; lia).
  split; [unfold is_byte; lia|].
  rewrite Z.shiftr_div_pow2 by lia.
  change 0x0F with (Z.ones 4). rewrite Z.land_ones by lia.
  change (2 ^ 4) with 16.
  split.
  - symmetry. apply (Z.div_unique _ _ _ l); lia.
  - symmetry. apply (Z.mod_unique _ _ h); lia.
Qed.

(** What [from_hex_loop] accepts, as a recursion on the pairs. *)
Lemma from_hex_loop_Some (n : nat) :
  forall (hex acc bs : bytes),
    length hex = (2 * n)%nat ->
    from_hex_loop hex acc = Some bs ->
    exists tl : bytes,
      bs = acc ++ tl /\ length tl = n /\ Forall is_byte tl /\
      Forall is_hex_digit hex /\ to_hex tl = map to_lower hex.
Proof.
  induction n as [|n IH]; intros hex acc bs Hlen H.
  - destruct hex; [|discriminate]. cbn in H. injection H as <-.
    exists []. rewrite app_nil_r. repeat split; constructor.
  - destruct hex as [|high [|low rest]]; try (cbn in Hlen; lia).
    cbn [from_hex_loop] in H.
    destruct (hex_to_nibble high) as [h|] eqn:Eh; [|discriminate].
    destruct (hex_to_nibble low) as [l|] eqn:El; [|discriminate].
    apply hex_to_nibble_Some in Eh. destruct Eh as (Hdh & Hh & Hch).
    apply hex_to_nibble_Some in El. destruct El as (Hdl & Hl & Hcl).
    destruct (IH rest _ bs ltac:(cbn in Hlen; lia) H)
      as (tl & -> & Htl & Hbytes & Hdigits & Hhex).
    destruct (nibble_pair_byte h l Hh Hl) as (Hb & Hbh & Hbl).
    exists (u8 (Z.lor (Z.shiftl h 4) l) :: tl).
    split; [now rewrite <- app_assoc|].
    split; [cbn; lia|].
    split; [constructor; assumption|].
    split; [repeat (constructor; try assumption)|].
    cbn [to_hex flat_map app map]. fold (to_hex tl).
    rewrite Hbh, Hbl, Hch, Hcl, Hhex. reflexivity.
Qed.

Lemma from_hex_loop_None (n : nat) :
  forall (hex acc : bytes),
    length hex = (2 * n)%nat ->
    from_hex_loop hex acc = None -> Exists (fun c => ~ is_hex_digit c) hex.
Proof.
  induction n as [|n IH]; intros hex acc Hlen H.
  - destruct hex; [discriminate|discriminate].
  - destruct hex as [|high [|low rest]]; try (cbn in Hlen; lia).
    cbn [from_hex_loop] in H.
    destruct (hex_to_nibble high) as [h|] eqn:Eh.
    + destruct (hex_to_nibble low) as [l|] eqn:El.
      * apply Exists_cons_tl, Exists_cons_tl.
        apply (IH rest _ ltac:(cbn in Hlen; lia) H).
      * apply Exists_cons_tl, Exists_cons_hd. now apply hex_to_nibble_None.
    + apply Exists_cons_hd. now apply hex_to_nibble_None.
Qed.

(** X2.  [from_hex] returns a value exactly for the strings of even length
    made of hexadecimal digits of either case; the value then has half as
    many bytes as the string has characters, and [to_hex] prints it as the
    string in lower case.  On a string of odd length or with another
    character the result is [nullopt]. *)
Theorem from_hex_accepts (hex : bytes) :
  (forall bs : bytes,
     from_hex hex = Some bs ->
     length hex = (2 * length bs)%nat /\ Forall is_byte bs /\
     Forall is_hex_digit hex /\ to_hex bs = map to_lower hex) /\
  (from_hex hex = None <->
   (length hex mod 2 = 1)%nat \/ Exists (fun c => ~ is_hex_digit c) hex).
Proof.
  unfold from_hex.
  pose proof (Nat.div_mod_eq (length hex) 2) as Hdiv.
  pose proof (Nat.mod_upper_bound (length hex) 2 ltac:(lia)) as Hmod.
  destruct (Nat.eqb_spec (length hex mod 2) 0) as [Heven|Hodd]; cbn [negb].
  - assert (Hlen : length hex = (2 * (length hex / 2))%nat) by lia.
    split.
    + intros bs H.
      destruct (from_hex_loop_Some _ hex [] bs Hlen H)
        as (tl & -> & Htl & Hbytes & Hdigits & Hhex).
      cbn [app]. repeat split; try assumption. lia.
    + split.
      * intros H. right. exact (from_hex_loop_None _ hex [] Hlen H).
      * intros [Ho|Hex]; [lia|].
        destruct (from_hex_loop hex []) as [bs|] eqn:E; [|reflexivity].
        destruct (from_hex_loop_Some _ hex [] bs Hlen E)
          as (tl & _ & _ & _ & Hdigits & _).
        exfalso. apply List.Exists_exists in Hex. destruct Hex as (c & Hin & Hc).
        rewrite List.Forall_forall in Hdigits. exact (Hc (Hdigits c Hin)).
  - split; [discriminate|].
    split; [intros _; left; lia|reflexivity].
Qed.

Lemma fold_xor_zero (l : list (Z * Z)) :
  Forall (fun ab => is_byte (fst ab) /\ is_byte (snd ab)) l ->
  forall result : Z,
    is_byte result ->
    fold_left (fun result ab => u8 (Z.lor result (Z.lxor (fst ab) (snd ab))))
      l result = 0
    <-> result = 0 /\ Forall (fun ab => fst ab = snd ab) l.
Proof.
  induction 1 as [|[x y] l [Hx Hy] Hl IH]; intros result Hr; cbn [fold_left].
  - split; [intros ->; split; [reflexivity|constructor]|tauto].
  - cbn [fst snd] in *. unfold is_byte in *.
    pose proof (lxor_below x y 8 ltac:(lia) ltac:(lia) ltac:(lia)) as Hxor.
    pose proof (lor_below result (Z.lxor x y) 8 ltac:(lia) ltac:(lia) ltac:(lia))
      as Hor.
    rewrite (u8_byte (Z.lor result (Z.lxor x y))) by exact Hor.
    rewrite IH by exact Hor.
    rewrite Z.lor_eq_0_iff, Z.lxor_eq_0_iff.
    split.
    + intros [[-> ->] Hall]. split; [reflexivity|]. constructor; [reflexivity|exact Hall].
    + intros [-> Hall]. apply List.Forall_cons_iff in Hall.
      destruct Hall as [Hxy Hall]. cbn [fst snd] in Hxy. tauto.
Qed.

Lemma combine_eq (a : bytes) :
  forall b : bytes,
    length a = length b ->
    (Forall (fun ab => fst ab = snd ab) (combine a b) <-> a = b).
Proof.
  induction a as [|x a IH]; intros [|y b] Hlen; try discriminate Hlen; cbn [combine].
  - split; [reflexivity|constructor].
  - injection Hlen as Hlen. rewrite List.Forall_cons_iff, (IH b Hlen). cbn [fst snd].
    split; [intros [-> ->]; reflexivity|intros [= -> ->]; tauto].
Qed.

Lemma combine_bytes (a : bytes) :
  forall b : bytes,
    Forall is_byte a -> Forall is_byte b ->
    Forall (fun ab => is_byte (fst ab) /\ is_byte (snd ab)) (combine a b).
Proof.
  induction a as [|x a IH]; intros [|y b] Ha Hb; cbn [combine]; try constructor.
  - apply List.Forall_cons_iff in Ha, Hb. tauto.
  - apply List.Forall_cons_iff in Ha, Hb. apply IH; tauto.
Qed.

(** X3.  [secure_compare] decides equality: on byte strings it returns true
    exactly when the two strings are the same, and false when their lengths
    differ. *)
Theorem secure_compare_eq (a b : bytes) :
  Forall is_byte a -> Forall is_byte b ->
  (secure_compare a b = true <-> a = b).
Proof.
  intros Ha Hb. unfold secure_compare.
  destruct (Nat.eqb_spec (length a) (length b)) as [Hlen|Hlen]; cbn [negb].
  - rewrite Z.eqb_eq.
    rewrite (fold_xor_zero _ (combine_bytes a b Ha Hb) 0)
      by (unfold is_byte; lia).
    rewrite (combine_eq a b Hlen). tauto.
  - split; [discriminate|]. intros ->. contradiction.
Qed.

Lemma secure_compare_eq_witness :
  secure_compare [1; 2; 3] [1; 2; 3] = true <-> [1; 2; 3] = [1; 2; 3].
Proof.
  apply (secure_compare_eq [1; 2; 3] [1; 2; 3]);
    repeat constructor; unfold is_byte; lia.
Defined.

End HexFacts.

(** ** Base58 *)
Module Base58Facts.
Import Base58 BitFacts ProofOfWorkFacts.

(** *** Numbers and their byte strings *)

Lemma le_value_app (l1 l2 : list Z) :
  le_value (l1 ++ l2) = le_value l1 + 256 ^ Z.of_nat (length l1) * le_value l2.
Proof.
  induction l1 as [|x l1 IH]; cbn [app le_value length].
  - change (256 ^ Z.of_nat 0) with 1. lia.
  - rewrite IH, Nat2Z.inj_succ, Z.pow_succ_r by lia. ring.
Qed.

Lemma be_value_app (l1 l2 : list Z) :
  be_value (l1 ++ l2) = be_value l1 * 256 ^ Z.of_nat (length l2) + be_value l2.
Proof.
  unfold be_value. rewrite fold_left_app. apply be_fold_init.
Qed.

Lemma le_value_rev (l : list Z) : le_value (rev l) = be_value l.
Proof.
  induction l as [|x l IH]; [reflexivity|].
  cbn [rev]. rewrite le_value_app, length_rev, IH, be_value_cons.
  cbn [le_value]. ring.
Qed.

Lemma le_value_bound (l : list Z) :
  Forall is_byte l -> 0 <= le_value l < 256 ^ Z.of_nat (length l).
Proof.
  induction 1 as [|x l Hx Hl IH]; cbn [le_value length].
  - cbn. lia.
  - rewrite Nat2Z.inj_succ, Z.pow_succ_r by lia. unfold is_byte in Hx. lia.
Qed.

Lemma canonical_tail (x : Z) (l : list Z) : canonical (x :: l) -> canonical l.
Proof.
  intros [Hb Hl]. apply List.Forall_cons_iff in Hb. destruct Hb as [_ Hb].
  split; [exact Hb|]. destruct l as [|y l]; [cbn; lia|exact Hl].
Qed.

Lemma canonical_zero (l : list Z) : canonical l -> le_value l = 0 -> l = [].
Proof.
  induction l as [|x l IH]; intros Hc Hv; [reflexivity|].
  pose proof (canonical_tail x l Hc) as Hc'.
  destruct Hc as [Hb Hl]. apply List.Forall_cons_iff in Hb. destruct Hb as [Hx Hb].
  pose proof (le_value_bound l Hb) as Hbound.
  cbn [le_value] in Hv. unfold is_byte in Hx.
  assert (Hl0 : le_value l = 0) by lia.
  rewrite (IH Hc' Hl0) in *. cbn in Hl. lia.
Qed.

Lemma canonical_unique (l1 : list Z) :
  forall l2 : list Z,
    canonical l1 -> canonical l2 -> le_value l1 = le_value l2 -> l1 = l2.
Proof.
  induction l1 as [|x l1 IH]; intros l2 H1 H2 Hv.
  - symmetry. apply canonical_zero; [exact H2|]. cbn in Hv. lia.
  - destruct l2 as [|y l2].
    + apply canonical_zero; [exact H1|exact Hv].
    + pose proof (canonical_tail x l1 H1) as H1'.
      pose proof (canonical_tail y l2 H2) as H2'.
      destruct H1 as [Hb1 _], H2 as [Hb2 _].
      apply List.Forall_cons_iff in Hb1, Hb2.
      destruct Hb1 as [Hx _], Hb2 as [Hy _]. unfold is_byte in Hx, Hy.
      cbn [le_value] in Hv.
      assert (x = y) by lia. subst y.
      f_equal. apply IH; [exact H1'|exact H2'|lia].
Qed.

(** The bottom of a canonical string of [n + 1] bytes is [256 ^ n]. *)
Lemma canonical_lower (l : list Z) :
  canonical l -> l <> [] -> 256 ^ (Z.of_nat (length l) - 1) <= le_value l.
Proof.
  induction l as [|x l IH]; intros Hc Hne; [congruence|].
  pose proof (canonical_tail x l Hc) as Hc'.
  destruct Hc as [Hb Hl]. apply List.Forall_cons_iff in Hb. destruct Hb as [Hx Hb].
  unfold is_byte in Hx. cbn [le_value length].
  destruct l as [|y l].
  - cbn in Hl |- *. lia.
  - specialize (IH Hc' ltac:(discriminate)).
    rewrite Nat2Z.inj_succ.
    replace (Z.succ (Z.of_nat (length (y :: l))) - 1)
      with (Z.succ (Z.of_nat (length (y :: l)) - 1)) by lia.
    rewrite Z.pow_succ_r by (cbn [length]; lia). lia.
Qed.

Lemma last_zero_upper (l : list Z) :
  Forall is_byte l -> l <> [] -> List.last l 1 = 0 ->
  le_value l < 256 ^ (Z.of_nat (length l) - 1).
Proof.
  induction 1 as [|x l Hx Hb IH]; intros Hne Hl; [congruence|].
  unfold is_byte in Hx. cbn [le_value length].
  destruct l as [|y l].
  - cbn in Hl |- *. lia.
  - specialize (IH ltac:(discriminate) Hl).
    rewrite Nat2Z.inj_succ.
    replace (Z.succ (Z.of_nat (length (y :: l))) - 1)
      with (Z.succ (Z.of_nat (length (y :: l)) - 1)) by lia.
    rewrite Z.pow_succ_r by (cbn [length]; lia). lia.
Qed.

(** *** [encode] *)

Lemma divide58_spec (temp : bytes) :
  Forall is_byte temp ->
  forall carry : Z,
    0 <= carry < 58 ->
    Forall is_byte (fst (divide58 temp carry)) /\
    0 <= snd (divide58 temp carry) < 58 /\
    carry * 256 ^ Z.of_nat (length temp) + be_value temp
    = 58 * be_value (fst (divide58 temp carry)) + snd (divide58 temp carry) /\
    length (fst (divide58 temp carry)) = length temp.
Proof.
  induction 1 as [|b temp Hb Htemp IH]; intros carry Hc.
  - cbn. repeat split; try constructor; lia.
  - unfold is_byte in Hb. cbn [divide58].
    assert (Hu : u32 (carry * 256 + b) = carry * 256 + b)
      by (unfold u32; apply Z.mod_small; lia).
    rewrite Hu.
    pose proof (Z.div_mod (carry * 256 + b) 58 ltac:(lia)) as Hdm.
    pose proof (Z.mod_pos_bound (carry * 256 + b) 58 ltac:(lia)) as Hm.
    assert (Hq : 0 <= (carry * 256 + b) / 58 < 256).
    { split; [apply Z.div_pos; lia|apply Z.div_lt_upper_bound; lia]. }
    specialize (IH ((carry * 256 + b) mod 58) Hm).
    destruct (divide58 temp ((carry * 256 + b) mod 58)) as [q r].
    cbn [fst snd] in *. destruct IH as (Hqb & Hr & Heq & Hlen).
    rewrite (u8_byte ((carry * 256 + b) / 58)) by exact Hq.
    split; [constructor; [exact Hq|exact Hqb]|].
    split; [exact Hr|].
    split; [|cbn [length]; lia].
    rewrite !be_value_cons, Hlen. cbn [length].
    rewrite Nat2Z.inj_succ, Z.pow_succ_r by lia.
    set (P := 256 ^ Z.of_nat (length temp)) in *.
    nia.
Qed.

Lemma strip_zeros_spec (temp : bytes) :
  Forall is_byte temp ->
  Forall is_byte (strip_zeros temp) /\
  be_value (strip_zeros temp) = be_value temp /\
  hd 1 (strip_zeros temp) <> 0.
Proof.
  induction 1 as [|b temp Hb Htemp IH].
  - cbn. repeat split; [constructor|lia].
  - destruct (Z.eq_dec b 0) as [->|Hb0].
    + cbn [strip_zeros]. rewrite be_value_cons. destruct IH as (H1 & H2 & H3).
      repeat split; [exact H1|lia|exact H3].
    + assert (Hs : strip_zeros (b :: temp) = b :: temp).
      { destruct b; [congruence|reflexivity|reflexivity]. }
      rewrite Hs. repeat split; [constructor; assumption|exact Hb0].
Qed.

Lemma normalized_positive (temp : bytes) :
  Forall is_byte temp -> hd 1 temp <> 0 -> temp <> [] -> 0 < be_value temp.
Proof.
  intros Hb Hh Hne. destruct temp as [|x temp]; [congruence|].
  apply List.Forall_cons_iff in Hb. destruct Hb as [Hx Hb].
  unfold is_byte in Hx. cbn in Hh.
  rewrite be_value_cons. pose proof (be_value_bound temp Hb).
  assert (0 < 256 ^ Z.of_nat (length temp)) by (apply Z.pow_pos_nonneg; lia).
  nia.
Qed.

Lemma base58_digits_acc (fuel : nat) :
  forall (v : Z) (acc : list Z),
    base58_digits fuel v acc = base58_digits fuel v [] ++ acc.
Proof.
  induction fuel as [|fuel IH]; intros v acc; cbn [base58_digits].
  - reflexivity.
  - destruct (v =? 0); [reflexivity|].
    rewrite (IH _ (v mod 58 :: acc)), (IH _ [v mod 58]), <- app_assoc.
    reflexivity.
Qed.

(** The loop of [encode] prints the base-58 digits of the number in
    [temp]. *)
Lemma encode_loop_spec (fuel : nat) :
  forall temp result : bytes,
    Forall is_byte temp -> hd 1 temp <> 0 ->
    encode_loop fuel temp result
    = map base58_char (base58_digits fuel (be_value temp) []) ++ result.
Proof.
  induction fuel as [|fuel IH]; intros temp result Hb Hh; [reflexivity|].
  cbn [encode_loop base58_digits].
  destruct temp as [|x temp'] eqn:Etemp; [reflexivity|]. rewrite <- Etemp in *.
  assert (Hpos : 0 < be_value temp)
    by (apply normalized_positive; [assumption|assumption|subst; discriminate]).
  destruct (Z.eqb_spec (be_value temp) 0) as [|_]; [lia|].
  destruct (divide58_spec temp Hb 0 ltac:(lia)) as (Hqb & Hr & Heq & _).
  destruct (divide58 temp 0) as [q r]. cbn [fst snd] in *.
  destruct (strip_zeros_spec q Hqb) as (Hsb & Hsv & Hsh).
  rewrite (IH (strip_zeros q) _ Hsb Hsh), Hsv.
  assert (Hq : be_value temp / 58 = be_value q)
    by (symmetry; apply (Z.div_unique _ _ _ r); lia).
  assert (Hm : be_value temp mod 58 = r)
    by (symmetry; apply (Z.mod_unique _ _ (be_value q)); lia).
  rewrite Hq, Hm.
  rewrite (base58_digits_acc fuel (be_value q) [r]).
  rewrite map_app, <- app_assoc. reflexivity.
Qed.

Lemma base58_digits_value (fuel : nat) :
  forall (v : Z) (acc : list Z),
    0 <= v < 58 ^ Z.of_nat fuel ->
    fold_left (fun a d => a * 58 + d) (base58_digits fuel v acc) 0
    = fold_left (fun a d => a * 58 + d) acc v.
Proof.
  induction fuel as [|fuel IH]; intros v acc Hv; cbn [base58_digits].
  - change (58 ^ Z.of_nat 0) with 1 in Hv. assert (v = 0) by lia. now subst.
  - destruct (Z.eqb_spec v 0) as [->|Hv0]; [reflexivity|].
    rewrite Nat2Z.inj_succ, Z.pow_succ_r in Hv by lia.
    rewrite IH.
    + cbn [fold_left]. f_equal.
      pose proof (Z.div_mod v 58 ltac:(lia)). lia.
    + split; [apply Z.div_pos; lia|apply Z.div_lt_upper_bound; lia].
Qed.

Lemma base58_digits_range (fuel : nat) :
  forall (v : Z) (acc : list Z),
    0 <= v -> Forall (fun d => 0 <= d < 58) acc ->
    Forall (fun d => 0 <= d < 58) (base58_digits fuel v acc).
Proof.
  induction fuel as [|fuel IH]; intros v acc Hv Hacc; cbn [base58_digits];
    [exact Hacc|].
  destruct (v =? 0); [exact Hacc|].
  apply IH; [apply Z.div_pos; lia|].
  constructor; [apply Z.mod_pos_bound; lia|exact Hacc].
Qed.

(** The first digit of a positive number is not zero. *)
Lemma base58_digits_head (fuel : nat) :
  forall (v : Z) (acc : list Z),
    0 < v < 58 ^ Z.of_nat fuel ->
    exists d rest, base58_digits fuel v acc = d :: rest /\ 0 < d < 58.
Proof.
  induction fuel as [|fuel IH]; intros v acc Hv.
  - change (58 ^ Z.of_nat 0) with 1 in Hv. lia.
  - cbn [base58_digits]. destruct (Z.eqb_spec v 0) as [|_]; [lia|].
    rewrite Nat2Z.inj_succ, Z.pow_succ_r in Hv by lia.
    destruct (Z.eq_dec (v / 58) 0) as [Hz|Hnz].
    + rewrite Hz. exists (v mod 58), acc. split.
      * destruct fuel; reflexivity.
      * pose proof (Z.div_mod v 58 ltac:(lia)).
        pose proof (Z.mod_pos_bound v 58 ltac:(lia)). lia.
    + apply IH. split.
      * pose proof (Z.div_pos v 58 ltac:(lia) ltac:(lia)). lia.
      * apply Z.div_lt_upper_bound; lia.
Qed.

Lemma encode_fuel (temp : bytes) :
  Forall is_byte temp -> be_value temp < 58 ^ Z.of_nat (2 * length temp).
Proof.
  intros Hb. pose proof (be_value_bound temp Hb) as Hv.
  eapply Z.lt_le_trans; [apply Hv|].
  rewrite Nat2Z.inj_mul, Z.pow_mul_r by lia.
  apply Z.pow_le_mono_l. cbn. lia.
Qed.

Lemma count_leading_split (c : Z) (s : bytes) :
  s = repeat c (count_leading c s) ++ skipn (count_leading c s) s /\
  hd (c + 1) (skipn (count_leading c s) s) <> c.
Proof.
  induction s as [|x s [IH1 IH2]]; cbn [count_leading].
  - cbn. split; [reflexivity|lia].
  - destruct (Z.eqb_spec x c) as [->|Hne].
    + cbn [repeat skipn app]. split; [now rewrite <- IH1|exact IH2].
    + cbn. split; [reflexivity|exact Hne].
Qed.

Lemma count_leading_repeat (c : Z) (n : nat) (body : bytes) :
  hd (c + 1) body <> c -> count_leading c (repeat c n ++ body) = n.
Proof.
  intros Hh. induction n as [|n IH]; cbn [repeat app count_leading].
  - destruct body as [|x body]; [reflexivity|]. cbn in Hh |- *.
    destruct (Z.eqb_spec x c); [contradiction|reflexivity].
  - rewrite Z.eqb_refl, IH. reflexivity.
Qed.

(** *** [decode] *)

Lemma strchr_base58_char (d : Z) : 0 <= d < 58 -> strchr (base58_char d) = Some d.
Proof.
  intros Hd.
  assert (Hk : exists k : nat, (k < 58)%nat /\ d = Z.of_nat k)
    by (exists (Z.to_nat d); lia).
  destruct Hk as (k & Hk & ->). unfold base58_char. rewrite Nat2Z.id.
  do 58 (destruct k as [|k]; [reflexivity|]). lia.
Qed.

Lemma base58_char_not_one (d : Z) : 0 < d < 58 -> base58_char d <> 49.
Proof.
  intros Hd.
  assert (Hk : exists k : nat, (0 < k < 58)%nat /\ d = Z.of_nat k)
    by (exists (Z.to_nat d); lia).
  destruct Hk as (k & Hk & ->). unfold base58_char. rewrite Nat2Z.id.
  destruct k as [|k]; [lia|].
  do 57 (destruct k as [|k]; [discriminate|]). lia.
Qed.

Lemma multiply58_spec (temp : list Z) :
  Forall is_byte temp ->
  forall carry : Z,
    0 <= carry < 2 ^ 16 ->
    Forall is_byte (fst (multiply58 temp carry)) /\
    0 <= snd (multiply58 temp carry) < 2 ^ 16 /\
    le_value (fst (multiply58 temp carry))
    + snd (multiply58 temp carry) * 256 ^ Z.of_nat (length temp)
    = le_value temp * 58 + carry /\
    length (fst (multiply58 temp carry)) = length temp.
Proof.
  induction 1 as [|t temp Ht Htemp IH]; intros carry Hc.
  - cbn. repeat split; try constructor; lia.
  - unfold is_byte in Ht. cbn [multiply58].
    assert (Hu : u32 (carry + u32 (t * 58)) = carry + t * 58).
    { unfold u32. rewrite (Z.mod_small (t * 58)) by lia.
      apply Z.mod_small. lia. }
    rewrite Hu.
    rewrite Z.shiftr_div_pow2 by lia.
    change 0xFF with (Z.ones 8). rewrite Z.land_ones by lia.
    change (2 ^ 8) with 256.
    pose proof (Z.div_mod (carry + t * 58) 256 ltac:(lia)) as Hdm.
    pose proof (Z.mod_pos_bound (carry + t * 58) 256 ltac:(lia)) as Hm.
    assert (Hq : 0 <= (carry + t * 58) / 256 < 2 ^ 16).
    { split; [apply Z.div_pos; lia|apply Z.div_lt_upper_bound; lia]. }
    specialize (IH _ Hq).
    destruct (multiply58 temp ((carry + t * 58) / 256)) as [temp' carry'].
    cbn [fst snd] in *. destruct IH as (Hb & Hc' & Heq & Hlen).
    split; [constructor; [exact Hm|exact Hb]|].
    split; [exact Hc'|].
    split; [|cbn [length]; lia].
    cbn [le_value length].
    rewrite Nat2Z.inj_succ, Z.pow_succ_r by lia.
    set (P := 256 ^ Z.of_nat (length temp)) in *.
    nia.
Qed.

Lemma push_carry_spec (fuel : nat) :
  forall carry : Z,
    0 <= carry < 256 ^ Z.of_nat fuel ->
    canonical (push_carry fuel carry) /\
    le_value (push_carry fuel carry) = carry /\
    (0 < carry -> push_carry fuel carry <> []).
Proof.
  induction fuel as [|fuel IH]; intros carry Hc.
  - change (256 ^ Z.of_nat 0) with 1 in Hc. cbn [push_carry].
    split; [split; [constructor|cbn; lia]|]. split; [cbn; lia|lia].
  - cbn [push_carry].
    rewrite Nat2Z.inj_succ, Z.pow_succ_r in Hc by lia.
    destruct (Z.ltb_spec 0 carry) as [Hpos|Hz].
    + rewrite Z.shiftr_div_pow2 by lia.
      change 0xFF with (Z.ones 8). rewrite Z.land_ones by lia.
      change (2 ^ 8) with 256.
      pose proof (Z.div_mod carry 256 ltac:(lia)) as Hdm.
      pose proof (Z.mod_pos_bound carry 256 ltac:(lia)) as Hm.
      assert (Hq : 0 <= carry / 256 < 256 ^ Z.of_nat fuel).
      { split; [apply Z.div_pos; lia|apply Z.div_lt_upper_bound; lia]. }
      destruct (IH _ Hq) as ([Hb Hl] & Hv & Hne).
      split; [split|split].
      * constructor; [exact Hm|exact Hb].
      * destruct (push_carry fuel (carry / 256)) as [|y l] eqn:E.
        -- cbn. cbn in Hv. lia.
        -- exact Hl.
      * cbn [le_value]. lia.
      * discriminate.
    + split; [split; [constructor|cbn; lia]|]. split; [cbn; lia|lia].
Qed.

Lemma last_app_ne (l1 l2 : list Z) (d : Z) :
  l2 <> [] -> List.last (l1 ++ l2) d = List.last l2 d.
Proof.
  intros Hne. induction l1 as [|z l1 IH]; [reflexivity|].
  cbn [app]. destruct (l1 ++ l2) as [|w l] eqn:E.
  - apply app_eq_nil in E. destruct E as [_ E]. congruence.
  - exact IH.
Qed.

(** One character of [decode]: the number in [temp] times 58 plus the
    digit. *)
Lemma decode_step (temp : list Z) (digit : Z) :
  canonical temp -> 0 <= digit < 58 ->
  let temp' := fst (multiply58 temp digit)
               ++ push_carry 4 (snd (multiply58 temp digit)) in
  canonical temp' /\ le_value temp' = le_value temp * 58 + digit.
Proof.
  intros Hc Hd temp'. subst temp'.
  destruct Hc as [Hb Hl].
  destruct (multiply58_spec temp Hb digit ltac:(lia)) as (Hb' & Hc' & Heq & Hlen).
  destruct (multiply58 temp digit) as [t' c']. cbn [fst snd] in *.
  destruct (push_carry_spec 4 c' ltac:(change (256 ^ Z.of_nat 4) with (2 ^ 32); lia))
    as ([Hpb Hpl] & Hpv & Hpne).
  assert (Hval : le_value (t' ++ push_carry 4 c') = le_value temp * 58 + digit).
  { rewrite le_value_app, Hpv, Hlen. lia. }
  split; [|exact Hval]. split.
  - apply Forall_app. split; assumption.
  - destruct (Z.eq_dec c' 0) as [->|Hc0].
    + cbn [push_carry]. cbn. rewrite app_nil_r.
      destruct temp as [|x temp0] eqn:Etemp.
      * destruct t'; [cbn; lia|discriminate Hlen].
      * rewrite <- Etemp in *.
        intros Hlast.
        assert (Hne : t' <> []) by (intros ->; subst temp; discriminate Hlen).
        pose proof (last_zero_upper t' Hb' Hne Hlast) as Hup.
        pose proof (canonical_lower temp (conj Hb Hl) ltac:(subst; discriminate))
          as Hlow.
        pose proof (le_value_bound temp Hb). rewrite Hlen in Hup. lia.
    + specialize (Hpne ltac:(lia)).
      destruct (push_carry 4 c') as [|y p] eqn:Ep; [congruence|].
      rewrite <- Ep in *.
      rewrite last_app_ne by (rewrite Ep; discriminate). exact Hpl.
Qed.

Lemma decode_loop_spec (ds : list Z) :
  forall temp : list Z,
    Forall (fun d => 0 <= d < 58) ds -> canonical temp ->
    exists temp' : list Z,
      decode_loop (map base58_char ds) temp = Some temp' /\
      canonical temp' /\
      le_value temp' = fold_left (fun a d => a * 58 + d) ds (le_value temp).
Proof.
  induction ds as [|d ds IH]; intros temp Hds Hc.
  - exists temp. repeat split; [apply Hc|apply Hc].
  - apply List.Forall_cons_iff in Hds. destruct Hds as [Hd Hds].
    cbn [map decode_loop]. rewrite (strchr_base58_char d Hd).
    destruct (decode_step temp d Hc Hd) as [Hc' Hv'].
    destruct (multiply58 temp d) as [t' c']. cbn [fst snd] in *.
    destruct (IH _ Hds Hc') as (temp' & Hdec & Hcan & Hval).
    exists temp'. split; [exact Hdec|]. split; [exact Hcan|].
    rewrite Hval, Hv'. reflexivity.
Qed.

Lemma map_u8_bytes (l : list Z) : Forall is_byte l -> map u8 l = l.
Proof.
  induction 1 as [|x l Hx Hl IH]; [reflexivity|].
  cbn [map]. rewrite IH, (u8_byte x Hx). reflexivity.
Qed.

Lemma hd_last_rev (l : list Z) (d : Z) : List.last (rev l) d = hd d l.
Proof.
  destruct l as [|x l]; [reflexivity|]. cbn [rev hd]. apply List.last_last.
Qed.

(** The decoding of a printed number gives its bytes back. *)
Lemma decode_loop_encode_loop (temp : bytes) :
  Forall is_byte temp -> hd 1 temp <> 0 ->
  exists temp' : list Z,
    decode_loop (encode_loop (2 * length temp) temp []) [] = Some temp' /\
    map u8 (rev temp') = temp.
Proof.
  intros Hb Hh.
  rewrite (encode_loop_spec _ temp [] Hb Hh), app_nil_r.
  pose proof (be_value_bound temp Hb) as Hv.
  pose proof (encode_fuel temp Hb) as Hfuel.
  assert (Hrange : Forall (fun d => 0 <= d < 58)
                     (base58_digits (2 * length temp) (be_value temp) []))
    by (apply base58_digits_range; [lia|constructor]).
  assert (Hnil : canonical []) by (split; [constructor|cbn; lia]).
  destruct (decode_loop_spec _ [] Hrange Hnil) as (temp' & Hdec & Hcan & Hval).
  exists temp'. split; [exact Hdec|].
  rewrite base58_digits_value in Hval by lia. cbn [fold_left le_value] in Hval.
  assert (Hrev : temp' = rev temp).
  { apply canonical_unique; [exact Hcan| |].
    - split; [apply Forall_rev; exact Hb|]. rewrite hd_last_rev. exact Hh.
    - rewrite le_value_rev. exact Hval. }
  rewrite Hrev, rev_involutive. apply map_u8_bytes. exact Hb.
Qed.

Lemma encode_loop_head (temp : bytes) :
  Forall is_byte temp -> hd 1 temp <> 0 ->
  hd (49 + 1) (encode_loop (2 * length temp) temp []) <> 49 /\
  (temp <> [] -> encode_loop (2 * length temp) temp [] <> []).
Proof.
  intros Hb Hh.
  rewrite (encode_loop_spec _ temp [] Hb Hh), app_nil_r.
  destruct temp as [|x temp0] eqn:Etemp.
  - cbn. split; [lia|congruence].
  - rewrite <- Etemp in *.
    pose proof (normalized_positive temp Hb Hh ltac:(subst; discriminate)) as Hpos.
    pose proof (encode_fuel temp Hb) as Hfuel.
    destruct (base58_digits_head (2 * length temp) (be_value temp) [] ltac:(lia))
      as (d & rest & -> & Hd).
    cbn [map hd]. split; [apply base58_char_not_one; exact Hd|discriminate].
Qed.

Lemma decode_encode (data : bytes) :
  Forall is_byte data -> decode (encode data) = Some data.
Proof.
  intros Hb. destruct data as [|x data0] eqn:Edata; [reflexivity|].
  rewrite <- Edata in *. unfold encode.
  replace (match data with [] => [] | _ :: _ =>
             repeat 49 (count_leading 0 data)
             ++ encode_loop (2 * length (skipn (count_leading 0 data) data))
                  (skipn (count_leading 0 data) data) [] end)
    with (repeat 49 (count_leading 0 data)
          ++ encode_loop (2 * length (skipn (count_leading 0 data) data))
               (skipn (count_leading 0 data) data) [])
    by (subst data; reflexivity).
  destruct (count_leading_split 0 data) as [Hsplit Hhd].
  set (lz := count_leading 0 data) in *.
  set (temp := skipn lz data) in *.
  assert (Htb : Forall is_byte temp).
  { rewrite Hsplit in Hb. apply Forall_app in Hb. apply Hb. }
  assert (Hth : hd 1 temp <> 0).
  { destruct temp; [cbn; lia|exact Hhd]. }
  destruct (encode_loop_head temp Htb Hth) as [Hbh Hbne].
  destruct (decode_loop_encode_loop temp Htb Hth) as (temp' & Hdec & Hrev).
  set (body := encode_loop (2 * length temp) temp []) in *.
  unfold decode.
  assert (Hne : repeat 49 lz ++ body <> []).
  { destruct lz as [|lz']; [|discriminate].
    cbn [repeat app]. apply Hbne. intros Ht.
    rewrite Ht in Hsplit. cbn in Hsplit. congruence. }
  destruct (repeat 49 lz ++ body) as [|c s] eqn:E; [congruence|].
  rewrite <- E.
  rewrite (count_leading_repeat 49 lz body Hbh).
  rewrite skipn_app, repeat_length, Nat.sub_diag, skipn_all2
    by (rewrite repeat_length; lia).
  cbn [app]. change (skipn 0 body) with body.
  rewrite Hdec, Hrev, <- Hsplit. reflexivity.
Qed.

Lemma base58_char_in_alphabet (d : Z) :
  0 <= d < 58 -> In (base58_char d) BASE58_ALPHABET.
Proof.
  intros Hd. unfold base58_char. apply nth_In.
  change (length BASE58_ALPHABET) with 58%nat. lia.
Qed.

(** What [encode] prints: a ['1'] for every leading zero byte, then the
    base-58 digits of the number that the other bytes denote. *)
Lemma encode_digits (data : bytes) :
  Forall is_byte data -> data <> [] ->
  encode data
  = repeat 49 (count_leading 0 data)
    ++ map base58_char
         (base58_digits (2 * length (skipn (count_leading 0 data) data))
            (be_value (skipn (count_leading 0 data) data)) []).
Proof.
  intros Hb Hne. unfold encode. destruct data as [|x data0] eqn:Edata; [congruence|].
  rewrite <- Edata in *.
  destruct (count_leading_split 0 data) as [Hsplit Hhd].
  set (lz := count_leading 0 data) in *.
  set (temp := skipn lz data) in *.
  assert (Htb : Forall is_byte temp).
  { rewrite Hsplit in Hb. apply Forall_app in Hb. apply Hb. }
  assert (Hth : hd 1 temp <> 0).
  { destruct temp; [cbn; lia|exact Hhd]. }
  rewrite (encode_loop_spec _ temp [] Htb Hth), app_nil_r. reflexivity.
Qed.

(** X4.  [Base58::decode] undoes [Base58::encode]: for every byte string
    [data], leading zero bytes included, [decode(encode(data))] is [data];
    and [encode] prints characters of the alphabet only. *)
Theorem base58_decode_encode (data : bytes) :
  Forall is_byte data ->
  decode (encode data) = Some data /\
  Forall (fun c => In c BASE58_ALPHABET) (encode data).
Proof.
  intros Hb. split; [apply decode_encode; exact Hb|].
  destruct data as [|x data0] eqn:Edata; [constructor|].
  rewrite <- Edata in *.
  rewrite encode_digits by (try assumption; subst; discriminate).
  apply Forall_app. split.
  - apply List.Forall_forall. intros c Hc. apply repeat_spec in Hc. subst c.
    apply (base58_char_in_alphabet 0). lia.
  - apply List.Forall_forall. intros c Hc. apply in_map_iff in Hc.
    destruct Hc as (d & <- & Hd). apply base58_char_in_alphabet.
    assert (Hr : Forall (fun d => 0 <= d < 58)
                   (base58_digits
                      (2 * length (skipn (count_leading 0 data) data))
                      (be_value (skipn (count_leading 0 data) data)) [])).
    { apply base58_digits_range; [|constructor].
      apply be_value_bound.
      destruct (count_leading_split 0 data) as [Hsplit _].
      rewrite Hsplit in Hb. apply Forall_app in Hb. apply Hb. }
    rewrite List.Forall_forall in Hr. apply Hr. exact Hd.
Qed.

Lemma base58_decode_encode_witness :
  decode (encode [0; 0; 0x28; 0x7f; 0xb4; 0xcd]) = Some [0; 0; 0x28; 0x7f; 0xb4; 0xcd] /\
  Forall (fun c => In c BASE58_ALPHABET) (encode [0; 0; 0x28; 0x7f; 0xb4; 0xcd]).
Proof.
  apply (base58_decode_encode [0; 0; 0x28; 0x7f; 0xb4; 0xcd]).
  repeat constructor; unfold is_byte; lia.
Defined.

Lemma decode_check_encode (data cs : bytes) :
  Forall is_byte data -> Forall is_byte cs -> length cs = 4%nat ->
  decode_check (encode (data ++ cs))
  = if bool_decide (cs = firstn 4 (SHA256.double_hash data))
    then Some data else None.
Proof.
  intros Hb Hcb Hcs. unfold decode_check.
  rewrite decode_encode by (apply Forall_app; split; assumption).
  rewrite length_app, Hcs.
  destruct (Nat.ltb_spec (length data + 4) 4) as [|_]; [lia|].
  replace (length data + 4 - 4)%nat with (length data) by lia.
  rewrite take_app_length, drop_app_length.
  destruct (bool_decide (cs = firstn 4 (SHA256.double_hash data))); reflexivity.
Qed.

Lemma decode_check_encode_check (data : bytes) :
  Forall is_byte data -> decode_check (encode_check data) = Some data.
Proof.
  intros Hb. unfold encode_check.
  rewrite decode_check_encode;
    [|exact Hb|apply Forall_take; apply ByteFacts.hash_bytes|reflexivity].
  rewrite bool_decide_eq_true_2 by reflexivity. reflexivity.
Qed.

(** X5.  [Base58::decode_check] undoes [Base58::encode_check], and it
    rejects the text of a payload followed by four bytes that are not the
    first four bytes of the payload's double SHA-256. *)
Theorem base58_decode_check_encode_check (data : bytes) :
  Forall is_byte data ->
  decode_check (encode_check data) = Some data /\
  forall cs : bytes,
    Forall is_byte cs -> length cs = 4%nat ->
    cs <> firstn 4 (SHA256.double_hash data) ->
    decode_check (encode (data ++ cs)) = None.
Proof.
  intros Hb. split; [apply decode_check_encode_check; exact Hb|].
  intros cs Hcb Hcs Hne.
  rewrite decode_check_encode by assumption.
  rewrite bool_decide_eq_false_2 by exact Hne. reflexivity.
Qed.

Lemma base58_decode_check_encode_check_witness :
  decode_check (encode_check [0; 1; 2; 3]) = Some [0; 1; 2; 3] /\
  forall cs : bytes,
    Forall is_byte cs -> length cs = 4%nat ->
    cs <> firstn 4 (SHA256.double_hash [0; 1; 2; 3]) ->
    decode_check (encode ([0; 1; 2; 3] ++ cs)) = None.
Proof.
  apply (base58_decode_check_encode_check [0; 1; 2; 3]).
  repeat constructor; unfold is_byte; lia.
Defined.

End Base58Facts.

(** ** Serialized transactions: writing and reading *)
Module SerializationFacts.
Import Reader BitFacts.

Lemma le_bytes_length (n : nat) (v : Z) : length (le_bytes n v) = n.
Proof. unfold le_bytes. now rewrite length_map, length_seq. Qed.

Lemma le_bytes_nth_error (n : nat) (v : Z) (i : nat) :
  (i < n)%nat ->
  nth_error (le_bytes n v) i = Some (Z.land (Z.shiftr v (8 * Z.of_nat i)) 255).
Proof.
  intros Hi. unfold le_bytes.
  rewrite nth_error_map, nth_error_nth' with (d := O) by (rewrite length_seq; lia).
  rewrite seq_nth by lia. reflexivity.
Qed.

Lemma size_app (a b : bytes) : size (a ++ b) = size a + size b.
Proof. unfold size. rewrite length_app. lia. Qed.

Lemma size_nonneg (a : bytes) : 0 <= size a.
Proof. unfold size. lia. Qed.

Lemma u64_small (x : Z) : 0 <= x < 2 ^ 64 -> u64 x = x.
Proof. intros Hx. unfold u64. apply Z.mod_small. exact Hx. Qed.

(** A byte in the middle part of the data. *)
Lemma at_middle (pre mid post : bytes) (i : nat) :
  (i < length mid)%nat ->
  at_ (pre ++ mid ++ post) (size pre + Z.of_nat i) = nth_error mid i.
Proof.
  intros Hi. unfold at_. rewrite !size_app. unfold size.
  destruct (Z.leb_spec 0 (Z.of_nat (length pre) + Z.of_nat i)); [|lia].
  destruct (Z.ltb_spec (Z.of_nat (length pre) + Z.of_nat i)
              (Z.of_nat (length pre) + (Z.of_nat (length mid) + Z.of_nat (length post))));
    [|lia].
  cbn [andb].
  replace (Z.to_nat (Z.of_nat (length pre) + Z.of_nat i))
    with (length pre + i)%nat by lia.
  rewrite nth_error_app2 by lia.
  replace (length pre + i - length pre)%nat with i by lia.
  apply nth_error_app1. exact Hi.
Qed.

Lemma mod_pow_step (v : Z) (i : nat) :
  0 <= v ->
  Z.lor (v mod 2 ^ (8 * Z.of_nat i))
    (Z.shiftl (Z.land (Z.shiftr v (8 * Z.of_nat i)) 255) (Z.of_nat i * 8))
  = v mod 2 ^ (8 * Z.of_nat (S i)).
Proof.
  intros Hv.
  change 255 with (Z.ones 8). rewrite Z.land_ones, Z.shiftr_div_pow2 by lia.
  assert (Hp : 0 < 2 ^ (8 * Z.of_nat i)) by (apply Z.pow_pos_nonneg; lia).
  rewrite Z.lor_comm.
  replace (Z.of_nat i * 8) with (8 * Z.of_nat i) by lia.
  rewrite lor_shiftl_add
    by (try lia; apply Z.mod_pos_bound; exact Hp).
  replace (8 * Z.of_nat (S i)) with (8 * Z.of_nat i + 8) by lia.
  rewrite Z.pow_add_r by lia.
  rewrite (Z.rem_mul_r v (2 ^ (8 * Z.of_nat i)) (2 ^ 8)) by lia.
  ring.
Qed.

(** The loop of a little-endian read over the bytes that [le_bytes]
    wrote. *)
Lemma read_le_loop_le_bytes (pre post : bytes) (n : nat) (v : Z) :
  0 <= v -> size (pre ++ le_bytes n v ++ post) < 2 ^ 64 ->
  forall (k i : nat),
    (i + k = n)%nat ->
    read_le_loop (pre ++ le_bytes n v ++ post) (size pre) k (Z.of_nat i)
      (v mod 2 ^ (8 * Z.of_nat i))
    = Some (v mod 2 ^ (8 * Z.of_nat n)).
Proof.
  intros Hv Hsize k. induction k as [|k IH]; intros i Hik; cbn [read_le_loop].
  - replace i with n by lia. reflexivity.
  - rewrite !size_app in Hsize. unfold size in Hsize.
    rewrite le_bytes_length in Hsize.
    rewrite u64_small by (unfold size; lia).
    rewrite at_middle by (rewrite le_bytes_length; lia).
    rewrite le_bytes_nth_error by lia.
    rewrite mod_pow_step by exact Hv.
    replace (Z.of_nat i + 1) with (Z.of_nat (S i)) by lia.
    apply IH. lia.
Qed.

Lemma read_le_le_bytes (pre post : bytes) (n : nat) (v : Z) :
  0 <= v < 2 ^ (8 * Z.of_nat n) ->
  size (pre ++ le_bytes n v ++ post) < 2 ^ 64 ->
  read_le n (pre ++ le_bytes n v ++ post) (size pre)
  = Value v (size (pre ++ le_bytes n v)).
Proof.
  intros Hv Hsize. unfold read_le.
  pose proof (read_le_loop_le_bytes pre post n v ltac:(lia) Hsize n 0 ltac:(lia))
    as Hloop.
  change (Z.of_nat 0) with 0 in Hloop.
  change (2 ^ (8 * 0)) with 1 in Hloop. rewrite Z.mod_1_r in Hloop.
  rewrite Hloop. clear Hloop.
  rewrite !size_app in *. unfold size in *. rewrite le_bytes_length in *.
  rewrite u64_small by lia.
  destruct (Z.ltb_spec (Z.of_nat (length pre) + (Z.of_nat n + Z.of_nat (length post)))
              (Z.of_nat (length pre) + Z.of_nat n)); [lia|].
  rewrite Z.mod_small by exact Hv. reflexivity.
Qed.

Lemma write_varint_length (v : Z) :
  Z.of_nat (length (write_varint v)) = varint_size v.
Proof.
  unfold write_varint, varint_size.
  destruct (v <? 0xFD); [reflexivity|].
  destruct (v <=? 0xFFFF); [reflexivity|].
  destruct (v <=? 0xFFFFFFFF); reflexivity.
Qed.

(** [read_varint] reads what [write_varint] wrote, wherever it stands in
    the data. *)
Lemma read_varint_write_varint (pre post : bytes) (v : Z) :
  0 <= v < 2 ^ 64 ->
  size (pre ++ write_varint v ++ post) < 2 ^ 64 ->
  read_varint (pre ++ write_varint v ++ post) (size pre)
  = Value v (size (pre ++ write_varint v)).
Proof.
  intros Hv Hsize. unfold read_varint.
  pose proof (size_nonneg pre) as Hpre.
  pose proof (size_nonneg post) as Hpost.
  pose proof (write_varint_length v) as Hlen. fold (size (write_varint v)) in Hlen.
  assert (Hvs : 1 <= varint_size v <= 9).
  { unfold varint_size. destruct (v <? 0xFD), (v <=? 0xFFFF), (v <=? 0xFFFFFFFF); lia. }
  pose proof Hsize as Hsize'. rewrite !size_app in Hsize'.
  destruct (Z.leb_spec (size (pre ++ write_varint v ++ post)) (size pre)) as [Hle|_].
  { rewrite !size_app in Hle. lia. }
  pose proof (at_middle pre (write_varint v) post 0) as Hfirst.
  rewrite Z.add_0_r in Hfirst. rewrite Hfirst by (unfold size in Hlen; lia).
  clear Hfirst.
  rewrite (u64_small (size pre + 1)) by lia.
  unfold write_varint in *. unfold varint_size in Hlen, Hvs.
  destruct (Z.ltb_spec v 0xFD) as [H1|H1].
  - cbn [nth_error]. rewrite (u8_byte v) by (unfold is_byte; lia).
    destruct (Z.ltb_spec v 0xFD); [|lia].
    rewrite size_app. reflexivity.
  - destruct (Z.leb_spec v 0xFFFF) as [H2|H2].
    + cbn [nth_error]. cbn [Z.ltb Z.eqb Z.compare Pos.compare Pos.compare_cont
                             Pos.eqb].
      replace (pre ++ (253 :: le_bytes 2 v) ++ post)
        with ((pre ++ [253]) ++ le_bytes 2 v ++ post)
        by (rewrite <- !app_assoc; reflexivity).
      replace (size pre + 1) with (size (pre ++ [253]))
        by (rewrite size_app; reflexivity).
      assert (Hs2 : size ((pre ++ [253]) ++ le_bytes 2 v ++ post) < 2 ^ 64)
        by (rewrite <- !app_assoc; exact Hsize).
      set (pre' := pre ++ [253]) in *.
      pose proof (size_nonneg pre') as Hpre'.
      pose proof (at_middle pre' (le_bytes 2 v) post 0
                    ltac:(rewrite le_bytes_length; lia)) as Hat0.
      pose proof (at_middle pre' (le_bytes 2 v) post 1
                    ltac:(rewrite le_bytes_length; lia)) as Hat1.
      rewrite Z.add_0_r in Hat0. change (Z.of_nat 1) with 1 in Hat1.
      assert (Hs3 : size (pre' ++ le_bytes 2 v ++ post) = size pre' + 2 + size post).
      { rewrite !size_app. unfold size at 2. rewrite le_bytes_length. lia. }
      rewrite Hs3 in Hs2.
      rewrite !u64_small by lia.
      rewrite Hat0, Hat1, !le_bytes_nth_error by lia. rewrite Hs3.
      destruct (Z.ltb_spec (size pre' + 2 + size post) (size pre' + 2)); [lia|].
      f_equal.
      * pose proof (mod_pow_step v 1 ltac:(lia)) as Hstep.
        change (Z.of_nat 1 * 8) with 8 in Hstep.
        change (8 * Z.of_nat 0) with 0. rewrite Z.shiftr_0_r.
        change 255 with (Z.ones 8) at 1. rewrite Z.land_ones by lia.
        change (8 * Z.of_nat 1) with 8 in *.
        rewrite Hstep. change (8 * Z.of_nat 2) with 16.
        apply Z.mod_small. lia.
      * subst pre'. rewrite !size_app. unfold size. cbn [length].
        rewrite le_bytes_length. lia.
    + destruct (Z.leb_spec v 0xFFFFFFFF) as [H3|H3].
      * cbn [nth_error]. cbn [Z.ltb Z.eqb Z.compare Pos.compare Pos.compare_cont
                               Pos.eqb].
        replace (pre ++ (254 :: le_bytes 4 v) ++ post)
          with ((pre ++ [254]) ++ le_bytes 4 v ++ post)
          by (rewrite <- !app_assoc; reflexivity).
        replace (size pre + 1) with (size (pre ++ [254]))
          by (rewrite size_app; reflexivity).
        rewrite read_le_le_bytes.
        -- f_equal. rewrite !size_app. unfold size. cbn [length].
           rewrite le_bytes_length. lia.
        -- change (2 ^ (8 * Z.of_nat 4)) with (2 ^ 32). lia.
        -- rewrite <- !app_assoc. exact Hsize.
      * cbn [nth_error]. cbn [Z.ltb Z.eqb Z.compare Pos.compare Pos.compare_cont
                               Pos.eqb].
        replace (pre ++ (255 :: le_bytes 8 v) ++ post)
          with ((pre ++ [255]) ++ le_bytes 8 v ++ post)
          by (rewrite <- !app_assoc; reflexivity).
        replace (size pre + 1) with (size (pre ++ [255]))
          by (rewrite size_app; reflexivity).
        rewrite read_le_le_bytes.
        -- f_equal. rewrite !size_app. unfold size. cbn [length].
           rewrite le_bytes_length. lia.
        -- change (2 ^ (8 * Z.of_nat 8)) with (2 ^ 64). lia.
        -- rewrite <- !app_assoc. exact Hsize.
Qed.

Lemma read_range_middle (pre mid post : bytes) :
  size (pre ++ mid ++ post) < 2 ^ 64 ->
  read_range (size mid) (pre ++ mid ++ post) (size pre)
  = Value mid (size (pre ++ mid)).
Proof.
  intros Hsize. unfold read_range.
  pose proof (size_nonneg pre). pose proof (size_nonneg mid).
  pose proof (size_nonneg post).
  rewrite !size_app in *.
  rewrite u64_small by lia.
  destruct (Z.ltb_spec (size pre + (size mid + size post)) (size pre + size mid));
    [lia|].
  destruct (Z.leb_spec (size pre + size mid) (size pre + (size mid + size post)));
    [|lia].
  unfold size. rewrite !Nat2Z.id.
  rewrite drop_app_length, take_app_length. reflexivity.
Qed.

Lemma read_bytes_write_bytes (pre post bs : bytes) :
  size (pre ++ write_bytes bs ++ post) < 2 ^ 64 ->
  read_bytes (pre ++ write_bytes bs ++ post) (size pre)
  = Value bs (size (pre ++ write_bytes bs)).
Proof.
  intros Hsize. unfold read_bytes, write_bytes in *.
  pose proof (size_nonneg pre). pose proof (size_nonneg bs).
  pose proof (size_nonneg post).
  pose proof (size_nonneg (write_varint (Z.of_nat (length bs)))).
  assert (Hbs : 0 <= Z.of_nat (length bs) < 2 ^ 64).
  { rewrite !size_app in Hsize. unfold size in *. lia. }
  replace (pre ++ (write_varint (Z.of_nat (length bs)) ++ bs) ++ post)
    with (pre ++ write_varint (Z.of_nat (length bs)) ++ (bs ++ post)) in *
    by (rewrite <- !app_assoc; reflexivity).
  rewrite read_varint_write_varint by assumption.
  cbn [bind].
  replace (pre ++ write_varint (Z.of_nat (length bs)) ++ bs ++ post)
    with ((pre ++ write_varint (Z.of_nat (length bs))) ++ bs ++ post) in *
    by (rewrite <- !app_assoc; reflexivity).
  fold (size bs). rewrite read_range_middle by assumption.
  rewrite <- !app_assoc. reflexivity.
Qed.

(** X6.  [TxInput::deserialize] reads back what [TxInput::serialize]
    wrote: for an input with a 32-byte hash and 32-bit index and sequence
    number, serialized anywhere inside data of less than 2^64 bytes, the
    read at its offset gives the input and leaves the offset right behind
    it. *)
Theorem TxInput_deserialize_serialize (pre post : bytes) (i : TxInput) :
  length (prev_tx_hash i) = 32%nat ->
  0 <= prev_output_index i < 2 ^ 32 -> 0 <= sequence i < 2 ^ 32 ->
  size (pre ++ TxInput_serialize i ++ post) < 2 ^ 64 ->
  TxInput_deserialize (pre ++ TxInput_serialize i ++ post) (size pre)
  = Value i (size pre + size (TxInput_serialize i)).
Proof.
  intros Hhash Hidx Hseq Hsize. destruct i as [h idx script sq].
  cbn [prev_tx_hash prev_output_index sequence] in *.
  unfold TxInput_deserialize, TxInput_serialize, write_uint32_le,
    read_uint32_le in *.
  cbn [prev_tx_hash prev_output_index script_sig sequence] in *.
  set (data := pre ++ (h ++ le_bytes 4 idx ++ write_bytes script ++ le_bytes 4 sq)
               ++ post) in *.
  assert (E1 : data = pre ++ h ++ (le_bytes 4 idx ++ write_bytes script
                                   ++ le_bytes 4 sq ++ post))
    by (subst data; rewrite <- !app_assoc; reflexivity).
  assert (E2 : data = (pre ++ h) ++ le_bytes 4 idx
                      ++ (write_bytes script ++ le_bytes 4 sq ++ post))
    by (subst data; rewrite <- !app_assoc; reflexivity).
  assert (E3 : data = ((pre ++ h) ++ le_bytes 4 idx) ++ write_bytes script
                      ++ (le_bytes 4 sq ++ post))
    by (subst data; rewrite <- !app_assoc; reflexivity).
  assert (E4 : data = (((pre ++ h) ++ le_bytes 4 idx) ++ write_bytes script)
                      ++ le_bytes 4 sq ++ post)
    by (subst data; rewrite <- !app_assoc; reflexivity).
  replace 32 with (size h) by (unfold size; lia).
  rewrite E1 at 1. rewrite read_range_middle by (rewrite <- E1; exact Hsize).
  cbn [bind].
  rewrite E2 at 1. rewrite read_le_le_bytes;
    [|change (2 ^ (8 * Z.of_nat 4)) with (2 ^ 32); lia|rewrite <- E2; exact Hsize].
  cbn [bind].
  rewrite E3 at 1. rewrite read_bytes_write_bytes by (rewrite <- E3; exact Hsize).
  cbn [bind].
  rewrite E4 at 1. rewrite read_le_le_bytes;
    [|change (2 ^ (8 * Z.of_nat 4)) with (2 ^ 32); lia|rewrite <- E4; exact Hsize].
  cbn [bind]. f_equal. rewrite !size_app. lia.
Qed.

Lemma TxInput_deserialize_serialize_witness :
  TxInput_deserialize
    ([7; 7] ++ TxInput_serialize (mkTxInput id_a 3 [0x51; 0x52] 0xFFFFFFFE) ++ [9])
    (size [7; 7])
  = Value (mkTxInput id_a 3 [0x51; 0x52] 0xFFFFFFFE)
      (size [7; 7] + size (TxInput_serialize (mkTxInput id_a 3 [0x51; 0x52] 0xFFFFFFFE))).
Proof.
  apply (TxInput_deserialize_serialize [7; 7] [9]
           (mkTxInput id_a 3 [0x51; 0x52] 0xFFFFFFFE)).
  - reflexivity.
  - cbn. lia.
  - cbn. lia.
  - vm_compute. reflexivity.
Defined.

(** X7.  [TxOutput::deserialize] reads back what [TxOutput::serialize]
    wrote, for a 64-bit value and any script, anywhere inside data of less
    than 2^64 bytes. *)
Theorem TxOutput_deserialize_serialize (pre post : bytes) (o : TxOutput) :
  0 <= value o < 2 ^ 64 ->
  size (pre ++ TxOutput_serialize o ++ post) < 2 ^ 64 ->
  TxOutput_deserialize (pre ++ TxOutput_serialize o ++ post) (size pre)
  = Value o (size pre + size (TxOutput_serialize o)).
Proof.
  intros Hval Hsize. destruct o as [val script].
  cbn [value] in *.
  unfold TxOutput_deserialize, TxOutput_serialize, write_uint64_le,
    read_uint64_le in *.
  cbn [value script_pubkey] in *.
  set (data := pre ++ (le_bytes 8 val ++ write_bytes script) ++ post) in *.
  assert (E1 : data = pre ++ le_bytes 8 val ++ (write_bytes script ++ post))
    by (subst data; rewrite <- !app_assoc; reflexivity).
  assert (E2 : data = (pre ++ le_bytes 8 val) ++ write_bytes script ++ post)
    by (subst data; rewrite <- !app_assoc; reflexivity).
  rewrite E1 at 1. rewrite read_le_le_bytes;
    [|change (2 ^ (8 * Z.of_nat 8)) with (2 ^ 64); lia|rewrite <- E1; exact Hsize].
  cbn [bind].
  rewrite E2 at 1. rewrite read_bytes_write_bytes by (rewrite <- E2; exact Hsize).
  cbn [bind]. f_equal. rewrite !size_app. lia.
Qed.

Lemma TxOutput_deserialize_serialize_witness :
  TxOutput_deserialize
    ([7] ++ TxOutput_serialize (mkTxOutput 5000000000 [0x76; 0xa9]) ++ [9; 9])
    (size [7])
  = Value (mkTxOutput 5000000000 [0x76; 0xa9])
      (size [7] + size (TxOutput_serialize (mkTxOutput 5000000000 [0x76; 0xa9]))).
Proof.
  apply (TxOutput_deserialize_serialize [7] [9; 9]
           (mkTxOutput 5000000000 [0x76; 0xa9])).
  - cbn. lia.
  - vm_compute. reflexivity.
Defined.

(** X8.  The sizes that [TxInput::get_serialized_size] and
    [TxOutput::get_serialized_size] compute are the lengths of what
    [serialize] writes (for scripts whose size stays well within 64
    bits). *)
Theorem get_serialized_size_is_length (i : TxInput) (o : TxOutput) :
  length (prev_tx_hash i) = 32%nat ->
  Z.of_nat (length (script_sig i)) < 2 ^ 63 ->
  Z.of_nat (length (script_pubkey o)) < 2 ^ 63 ->
  TxInput_get_serialized_size i = size (TxInput_serialize i) /\
  TxOutput_get_serialized_size o = size (TxOutput_serialize o).
Proof.
  intros Hhash Hsig Hpk.
  unfold TxInput_get_serialized_size, TxOutput_get_serialized_size,
    TxInput_serialize, TxOutput_serialize, write_bytes, write_uint32_le,
    write_uint64_le.
  rewrite !size_app. unfold size.
  rewrite !le_bytes_length, !write_varint_length, Hhash.
  assert (Hv : forall n, 1 <= varint_size n <= 9).
  { intros n. unfold varint_size.
    destruct (n <? 0xFD), (n <=? 0xFFFF), (n <=? 0xFFFFFFFF); lia. }
  pose proof (Hv (Z.of_nat (length (script_sig i)))).
  pose proof (Hv (Z.of_nat (length (script_pubkey o)))).
  rewrite !u64_small by (rewrite ?u64_small; lia).
  lia.
Qed.

Lemma get_serialized_size_is_length_witness :
  TxInput_get_serialized_size (mkTxInput id_a 3 (repeat 0x51 300) 0)
  = size (TxInput_serialize (mkTxInput id_a 3 (repeat 0x51 300) 0)) /\
  TxOutput_get_serialized_size (mkTxOutput 1000 [0x51])
  = size (TxOutput_serialize (mkTxOutput 1000 [0x51])).
Proof.
  apply (get_serialized_size_is_length
           (mkTxInput id_a 3 (repeat 0x51 300) 0) (mkTxOutput 1000 [0x51])).
  - reflexivity.
  - vm_compute. reflexivity.
  - vm_compute. reflexivity.
Defined.

(** X9.  The bounds test of [read_bytes] on a length [L] written by
    [write_varint]: when [L] bytes follow, they are returned; when fewer
    follow and the sum of the offset and [L] fits 64 bits, the result is
    [nullopt]; and when that sum wraps around 64 bits the test
    [offset + length > data.size()] passes and the copy that follows is
    outside the data. *)
Theorem read_bytes_bounds (pre post : bytes) (L : Z) :
  0 <= L < 2 ^ 64 ->
  size (pre ++ write_varint L ++ post) < 2 ^ 64 ->
  read_bytes (pre ++ write_varint L ++ post) (size pre)
  = if L <=? size post
    then Value (firstn (Z.to_nat L) post) (size (pre ++ write_varint L) + L)
    else if size (pre ++ write_varint L) + L <? 2 ^ 64 then Nullopt
    else Undefined.
Proof.
  intros HL Hsize. unfold read_bytes.
  rewrite read_varint_write_varint by assumption. cbn [bind].
  unfold read_range.
  pose proof (size_nonneg (pre ++ write_varint L)) as H0.
  pose proof (size_nonneg post) as H1.
  replace (pre ++ write_varint L ++ post) with ((pre ++ write_varint L) ++ post)
    in * by (rewrite <- app_assoc; reflexivity).
  set (head := pre ++ write_varint L) in *.
  rewrite (size_app head post) in *.
  destruct (Z.leb_spec L (size post)) as [Hfit|Hshort].
  - rewrite u64_small by lia.
    destruct (Z.ltb_spec (size head + size post) (size head + L)); [lia|].
    destruct (Z.leb_spec (size head + L) (size head + size post)); [|lia].
    unfold size at 1. rewrite Nat2Z.id, drop_app_length. reflexivity.
  - destruct (Z.ltb_spec (size head + L) (2 ^ 64)) as [Hno|Hwrap].
    + rewrite u64_small by lia.
      destruct (Z.ltb_spec (size head + size post) (size head + L)); [reflexivity|lia].
    + assert (Hu : u64 (size head + L) = size head + L - 2 ^ 64).
      { unfold u64. symmetry. apply (Z.mod_unique _ _ 1); lia. }
      rewrite Hu.
      destruct (Z.ltb_spec (size head + size post) (size head + L - 2 ^ 64)); [lia|].
      destruct (Z.leb_spec (size head + L) (size head + size post)); [lia|reflexivity].
Qed.

Lemma read_bytes_bounds_witness :
  read_bytes ([1; 2] ++ write_varint (2 ^ 64 - 1) ++ [3; 4]) (size [1; 2])
  = if 2 ^ 64 - 1 <=? size [3; 4]
    then Value (firstn (Z.to_nat (2 ^ 64 - 1)) [3; 4])
           (size ([1; 2] ++ write_varint (2 ^ 64 - 1)) + (2 ^ 64 - 1))
    else if size ([1; 2] ++ write_varint (2 ^ 64 - 1)) + (2 ^ 64 - 1) <? 2 ^ 64
         then Nullopt
         else Undefined.
Proof.
  apply (read_bytes_bounds [1; 2] [3; 4] (2 ^ 64 - 1)).
  - lia.
  - vm_compute. reflexivity.
Defined.

End SerializationFacts.

(** ** Transactions *)
Module TransactionFacts.
Import BitFacts SerializationFacts.

Lemma total_output_loop_sum (outs : list TxOutput) :
  Forall (fun o => 0 <= value o < 2 ^ 64) outs ->
  forall total : Z,
    0 <= total < 2 ^ 64 ->
    total_output_loop outs total
    = if total + fold_right (fun o acc => value o + acc) 0 outs <? 2 ^ 64
      then total + fold_right (fun o acc => value o + acc) 0 outs
      else UINT64_MAX.
Proof.
  induction 1 as [|o outs Ho Houts IH]; intros total Ht;
    cbn [total_output_loop fold_right].
  - rewrite Z.add_0_r. destruct (Z.ltb_spec total (2 ^ 64)); [reflexivity|lia].
  - assert (Hsum : 0 <= fold_right (fun o acc => value o + acc) 0 outs).
    { clear IH. induction Houts as [|o' outs' Ho' _ IH']; cbn [fold_right]; lia. }
    destruct (Z.lt_ge_cases (total + value o) (2 ^ 64)) as [Hfit|Hwrap].
    + rewrite u64_small by lia.
      destruct (Z.ltb_spec (total + value o) (value o)); [lia|].
      rewrite IH by lia. rewrite Z.add_assoc. reflexivity.
    + assert (Hu : u64 (total + value o) = total + value o - 2 ^ 64).
      { unfold u64. symmetry. apply (Z.mod_unique _ _ 1); lia. }
      rewrite Hu.
      destruct (Z.ltb_spec (total + value o - 2 ^ 64) (value o)); [|lia].
      destruct (Z.ltb_spec
                  (total + (value o + fold_right (fun o acc => value o + acc) 0 outs))
                  (2 ^ 64)); [lia|reflexivity].
Qed.

(** X10.  [Transaction::get_total_output_value] is a saturating sum: the
    sum of the output values when it fits 64 bits, and [UINT64_MAX]
    otherwise. *)
Theorem get_total_output_value_saturates (tx : Transaction) :
  Forall (fun o => 0 <= value o < 2 ^ 64) (outputs tx) ->
  get_total_output_value tx
  = if UTXOSet.output_value (outputs tx) <? 2 ^ 64
    then UTXOSet.output_value (outputs tx)
    else UINT64_MAX.
Proof.
  intros Hvals. unfold get_total_output_value, UTXOSet.output_value.
  rewrite total_output_loop_sum by (try assumption; lia). reflexivity.
Qed.

Lemma get_total_output_value_saturates_witness :
  get_total_output_value
    (mkTransaction 2 [] [mkTxOutput (2 ^ 64 - 1) []; mkTxOutput 5 []] 0 None)
  = if UTXOSet.output_value [mkTxOutput (2 ^ 64 - 1) []; mkTxOutput 5 []] <? 2 ^ 64
    then UTXOSet.output_value [mkTxOutput (2 ^ 64 - 1) []; mkTxOutput 5 []]
    else UINT64_MAX.
Proof.
  apply (get_total_output_value_saturates
           (mkTransaction 2 [] [mkTxOutput (2 ^ 64 - 1) []; mkTxOutput 5 []] 0 None)).
  repeat constructor; cbn; lia.
Defined.

(** X11.  Addresses and scripts agree: for a 20-byte hash, the address
    that [get_address] prints for the pay-to-public-key-hash script of
    the hash is the Base58Check text of the version byte 0 and the hash;
    [create_p2pkh] on that address builds the same script again, and
    [get_address] of the output it builds is the address. *)
Theorem p2pkh_address_roundtrip (value : Z) (hash160 : bytes) :
  length hash160 = 20%nat -> Forall is_byte hash160 ->
  let address := Base58.encode_check ([0x00] ++ hash160) in
  let script := [0x76; 0xa9; 0x14] ++ hash160 ++ [0x88; 0xac] in
  get_address (mkTxOutput value script) = Some address /\
  create_p2pkh value address = mkTxOutput value script /\
  get_address (create_p2pkh value address) = Some address.
Proof.
  intros Hlen Hbytes address script.
  assert (Hget : get_address (mkTxOutput value script) = Some address).
  { subst address script.
    do 21 (destruct hash160 as [|? hash160]; try discriminate Hlen).
    reflexivity. }
  assert (Hmk : create_p2pkh value address = mkTxOutput value script).
  { unfold create_p2pkh. subst address.
    rewrite Base58Facts.decode_check_encode_check
      by (constructor; [unfold is_byte; lia|exact Hbytes]).
    cbn [app length]. rewrite Hlen. reflexivity. }
  split; [exact Hget|]. split; [exact Hmk|]. rewrite Hmk. exact Hget.
Qed.

Lemma p2pkh_address_roundtrip_witness :
  let address := Base58.encode_check ([0x00] ++ repeat 0x11 20) in
  let script := [0x76; 0xa9; 0x14] ++ repeat 0x11 20 ++ [0x88; 0xac] in
  get_address (mkTxOutput 1000 script) = Some address /\
  create_p2pkh 1000 address = mkTxOutput 1000 script /\
  get_address (create_p2pkh 1000 address) = Some address.
Proof.
  apply (p2pkh_address_roundtrip 1000 (repeat 0x11 20)).
  - reflexivity.
  - repeat constructor; unfold is_byte; lia.
Defined.

Lemma no_duplicate_inputs_spec (ins : list TxInput) :
  forall seen : gset (list Z * Z),
    no_duplicate_inputs ins seen = true
    <-> NoDup (map UTXOSet.outpoint_of ins)
        /\ Forall (fun i => ~ elem_of (UTXOSet.outpoint_of i) seen) ins.
Proof.
  induction ins as [|i ins IH]; intros seen; cbn [no_duplicate_inputs map].
  - split; [intros _; split; constructor|reflexivity].
  - fold (UTXOSet.outpoint_of i).
    destruct (bool_decide (elem_of (UTXOSet.outpoint_of i) seen)) eqn:E.
    + apply bool_decide_eq_true in E. split; [discriminate|].
      intros [_ Hall]. apply List.Forall_cons_iff in Hall. tauto.
    + apply bool_decide_eq_false in E. rewrite IH, NoDup_cons. split.
      * intros [Hnd Hall]. split; [split; [|exact Hnd]|].
        -- intros Hin. apply list_elem_of_In, in_map_iff in Hin.
           destruct Hin as (j & Hj & Hin).
           rewrite List.Forall_forall in Hall. apply (Hall j Hin).
           rewrite Hj. apply elem_of_union_l, elem_of_singleton. reflexivity.
        -- constructor; [exact E|].
           eapply List.Forall_impl; [|exact Hall]. intros j Hj Hel.
           apply Hj, elem_of_union_r. exact Hel.
      * intros [[Hni Hnd] Hall].
        apply List.Forall_cons_iff in Hall. destruct Hall as [_ Hall].
        split; [exact Hnd|].
        rewrite List.Forall_forall in Hall |- *. intros j Hj Hel.
        apply elem_of_union in Hel. destruct Hel as [Hel|Hel].
        -- apply elem_of_singleton in Hel. apply Hni. rewrite <- Hel.
           apply list_elem_of_In, in_map. exact Hj.
        -- exact (Hall j Hj Hel).
Qed.

(** X12.  [validation::validate_inputs] accepts a transaction exactly when
    it has an input and, unless it is a coinbase transaction, no outpoint
    (previous hash and output index) is spent by two of its inputs. *)
Theorem validate_inputs_no_double_spend (tx : Transaction) :
  validate_inputs tx = true
  <-> inputs tx <> []
      /\ (is_coinbase tx = true
          \/ List.NoDup (map UTXOSet.outpoint_of (inputs tx))).
Proof.
  rewrite <- NoDup_ListNoDup. unfold validate_inputs.
  destruct (bool_decide (inputs tx = [])) eqn:E.
  - apply bool_decide_eq_true in E. split; [discriminate|tauto].
  - apply bool_decide_eq_false in E.
    destruct (is_coinbase tx) eqn:Hcb; cbn [negb].
    + split; [intros _; split; [exact E|left; reflexivity]|reflexivity].
    + rewrite no_duplicate_inputs_spec. split.
      * intros [Hnd _]. split; [exact E|right; exact Hnd].
      * intros [_ [Hf|Hnd]]; [discriminate|].
        split; [exact Hnd|]. apply List.Forall_forall. intros j _.
        apply not_elem_of_empty.
Qed.

Lemma is_segwit_false_serialize (tx : Transaction) (witnesses : list TxWitness) :
  is_segwit witnesses = false -> serialize tx witnesses = serialize_legacy tx.
Proof.
  intros Hs. unfold serialize, serialize_legacy. rewrite Hs.
  cbn [app]. reflexivity.
Qed.

(** X13.  Sizes and weight of a transaction.  Without witness data (no
    witness, or only empty ones) [serialize] writes the legacy form, the
    weight is four times the serialized size and the virtual size is the
    serialized size; with witness data the full form is longer by the
    marker, the flag and the witnesses, which count once in the weight. *)
Theorem transaction_weight (tx : Transaction) (witnesses : list TxWitness) :
  4 * (get_base_size tx + 2
       + Z.of_nat (length (flat_map TxWitness_serialize witnesses))) < 2 ^ 64 ->
  let extra :=
    if is_segwit witnesses
    then 2 + Z.of_nat (length (flat_map TxWitness_serialize witnesses))
    else 0 in
  get_serialized_size tx witnesses = get_base_size tx + extra /\
  get_weight tx witnesses = 4 * get_base_size tx + extra /\
  (is_segwit witnesses = false ->
   serialize tx witnesses = serialize_legacy tx /\
   get_vsize tx witnesses = get_base_size tx).
Proof.
  intros Hfit extra.
  assert (Hsize : get_serialized_size tx witnesses = get_base_size tx + extra).
  { subst extra. unfold get_serialized_size, get_base_size, serialize,
      serialize_legacy.
    destruct (is_segwit witnesses); rewrite !length_app; cbn [length]; lia. }
  assert (Hbase : 0 <= get_base_size tx) by (unfold get_base_size; lia).
  assert (Hextra : 0 <= extra
                   <= 2 + Z.of_nat (length (flat_map TxWitness_serialize witnesses))).
  { subst extra. destruct (is_segwit witnesses); lia. }
  assert (Hweight : get_weight tx witnesses = 4 * get_base_size tx + extra).
  { unfold get_weight. rewrite Hsize, !u64_small by (rewrite ?u64_small; lia). lia. }
  split; [exact Hsize|]. split; [exact Hweight|].
  intros Hs. split; [apply is_segwit_false_serialize; exact Hs|].
  unfold get_vsize. rewrite Hweight. subst extra. rewrite Hs in *.
  rewrite u64_small by lia.
  replace (4 * get_base_size tx + 0 + 3) with (3 + get_base_size tx * 4) by lia.
  rewrite Z.div_add by lia. reflexivity.
Qed.

Lemma transaction_weight_witness :
  let tx := spend_one in
  let witnesses := [mkTxWitness [[0x30; 0x44]; [0x02]]] in
  let extra :=
    if is_segwit witnesses
    then 2 + Z.of_nat (length (flat_map TxWitness_serialize witnesses))
    else 0 in
  get_serialized_size tx witnesses = get_base_size tx + extra /\
  get_weight tx witnesses = 4 * get_base_size tx + extra /\
  (is_segwit witnesses = false ->
   serialize tx witnesses = serialize_legacy tx /\
   get_vsize tx witnesses = get_base_size tx).
Proof.
  apply (transaction_weight spend_one [mkTxWitness [[0x30; 0x44]; [0x02]]]).
  vm_compute. reflexivity.
Defined.

(** X14.  [Transaction::create_coinbase_transaction] builds a coinbase
    transaction (one input with the null hash and index 0xFFFFFFFF) with
    one output of [block_reward + total_fees] in 64 bits; when the miner
    address does not pass [Base58::decode_check] that output has no script,
    and [Transaction::is_valid] rejects the transaction. *)
Theorem create_coinbase_transaction_spec (block_reward total_fees : Z)
    (miner_address extra_data : bytes) :
  let tx := fst (create_coinbase_transaction block_reward total_fees
                   miner_address extra_data) in
  let witnesses := snd (create_coinbase_transaction block_reward total_fees
                          miner_address extra_data) in
  is_coinbase tx = true /\
  map value (outputs tx) = [u64 (block_reward + total_fees)] /\
  is_segwit witnesses = false /\
  (Base58.decode_check miner_address = None ->
   map script_pubkey (outputs tx) = [[]] /\
   Transaction_is_valid tx witnesses = false).
Proof.
  intros tx witnesses. subst tx witnesses.
  unfold create_coinbase_transaction. cbn [fst snd].
  split; [reflexivity|].
  split; [unfold create_p2pkh; cbn [outputs map];
          destruct (Base58.decode_check miner_address) as [d|]; [|reflexivity];
          destruct (negb _ || negb _); reflexivity|].
  split; [reflexivity|].
  intros Hdec. unfold create_p2pkh. rewrite Hdec.
  split; [reflexivity|].
  unfold Transaction_is_valid.
  cbn [inputs outputs].
  rewrite !bool_decide_eq_false_2 by discriminate. cbn [orb].
  destruct (MAX_TRANSACTION_SIZE <? _); [reflexivity|].
  destruct (existsb _ [create_coinbase extra_data]); [reflexivity|].
  cbn [existsb]. unfold TxOutput_is_valid. cbn [script_pubkey].
  rewrite bool_decide_eq_true_2 by reflexivity.
  cbn [negb]. rewrite andb_false_r. reflexivity.
Qed.

End TransactionFacts.

(** ** Block headers, rewards and mining ([block.cpp]) *)
Module BlockFacts.
Import Reader BitFacts SerializationFacts Base58Facts.

Lemma le_bytes_S (n : nat) (v : Z) :
  le_bytes (S n) v = Z.land v 255 :: le_bytes n (Z.shiftr v 8).
Proof.
  unfold le_bytes. cbn [seq map]. f_equal.
  rewrite <- seq_shift, map_map. apply map_ext. intros i.
  rewrite Z.shiftr_shiftr by lia. do 2 f_equal. lia.
Qed.

(** The little-endian bytes of the number that a byte string denotes are
    the string. *)
Lemma le_bytes_le_value (l : bytes) :
  Forall is_byte l -> le_bytes (length l) (le_value l) = l.
Proof.
  induction 1 as [|x l Hx Hl IH]; [reflexivity|].
  cbn [length le_value]. rewrite le_bytes_S. unfold is_byte in Hx.
  pose proof (le_value_bound l Hl) as Hb.
  change 255 with (Z.ones 8). rewrite Z.land_ones, Z.shiftr_div_pow2 by lia.
  change (2 ^ 8) with 256.
  replace ((x + 256 * le_value l) mod 256) with x
    by (apply (Z.mod_unique _ _ (le_value l)); lia).
  replace ((x + 256 * le_value l) / 256) with (le_value l)
    by (apply (Z.div_unique _ _ _ x); lia).
  rewrite IH. reflexivity.
Qed.

(** A little-endian read inside byte data gives the number whose bytes
    stand there. *)
Lemma read_le_bytes (n : nat) (data : bytes) (offset : nat) :
  Forall is_byte data -> size data < 2 ^ 64 ->
  (offset + n <= length data)%nat ->
  exists v : Z,
    read_le n data (Z.of_nat offset) = Value v (Z.of_nat (offset + n)) /\
    0 <= v < 2 ^ (8 * Z.of_nat n) /\
    le_bytes n v = firstn n (skipn offset data).
Proof.
  intros Hb Hsize Hfit.
  set (l := firstn n (skipn offset data)).
  assert (Hl : length l = n)
    by (subst l; rewrite length_firstn, length_skipn; lia).
  assert (Hlb : Forall is_byte l)
    by (subst l; apply Forall_take, Forall_drop; exact Hb).
  assert (Hdata : data = firstn offset data ++ le_bytes n (le_value l)
                         ++ skipn n (skipn offset data)).
  { rewrite <- Hl at 1. rewrite le_bytes_le_value by exact Hlb.
    subst l. rewrite firstn_skipn, firstn_skipn. reflexivity. }
  assert (Hpre : size (firstn offset data) = Z.of_nat offset)
    by (unfold size; rewrite length_firstn; lia).
  pose proof (le_value_bound l Hlb) as Hv. rewrite Hl in Hv.
  replace (256 ^ Z.of_nat n) with (2 ^ (8 * Z.of_nat n)) in Hv
    by (rewrite Z.pow_mul_r by lia; reflexivity).
  exists (le_value l). split; [|split; [exact Hv|]].
  - rewrite Hdata at 1. rewrite <- Hpre.
    rewrite read_le_le_bytes; [|exact Hv|rewrite <- Hdata; exact Hsize].
    f_equal. rewrite size_app, Hpre. unfold size. rewrite le_bytes_length. lia.
  - rewrite <- Hl at 1. apply le_bytes_le_value. exact Hlb.
Qed.

Lemma read_range_inside (n : nat) (data : bytes) (offset : nat) :
  size data < 2 ^ 64 -> (offset + n <= length data)%nat ->
  read_range (Z.of_nat n) data (Z.of_nat offset)
  = Value (firstn n (skipn offset data)) (Z.of_nat (offset + n)).
Proof.
  intros Hsize Hfit. unfold read_range, size in *.
  rewrite u64_small by lia.
  destruct (Z.ltb_spec (Z.of_nat (length data)) (Z.of_nat offset + Z.of_nat n));
    [lia|].
  destruct (Z.leb_spec (Z.of_nat offset + Z.of_nat n) (Z.of_nat (length data)));
    [|lia].
  rewrite !Nat2Z.id. f_equal. lia.
Qed.

Lemma BlockHeader_serialize_length (h : BlockHeader) :
  length (prev_block_hash h) = 32%nat -> length (merkle_root h) = 32%nat ->
  length (BlockHeader_serialize h) = 80%nat.
Proof.
  intros Hp Hm. unfold BlockHeader_serialize, write_uint32_le.
  rewrite !length_app, !le_bytes_length, Hp, Hm. reflexivity.
Qed.

(** X15.  [BlockHeader::deserialize] reads back what
    [BlockHeader::serialize] wrote: the serialized header has 80 bytes,
    and from these bytes, whatever follows them, the version, the two
    hashes, the timestamp, the difficulty target and the nonce come back
    (the height is not serialized). *)
Theorem BlockHeader_deserialize_serialize (h : BlockHeader) (post : bytes) :
  length (prev_block_hash h) = 32%nat -> length (merkle_root h) = 32%nat ->
  0 <= version h < 2 ^ 32 -> 0 <= timestamp h < 2 ^ 32 ->
  0 <= difficulty_target h < 2 ^ 32 -> 0 <= nonce h < 2 ^ 32 ->
  size (BlockHeader_serialize h ++ post) < 2 ^ 64 ->
  length (BlockHeader_serialize h) = 80%nat /\
  BlockHeader_deserialize (BlockHeader_serialize h ++ post) = Value h 80.
Proof.
  intros Hp Hm Hv Ht Hd Hn Hsize.
  pose proof (BlockHeader_serialize_length h Hp Hm) as Hlen.
  split; [exact Hlen|].
  unfold BlockHeader_deserialize.
  destruct (Z.ltb_spec (size (BlockHeader_serialize h ++ post)) 80) as [Hs|_].
  { rewrite size_app in Hs. unfold size in Hs. lia. }
  destruct h as [ver prev merkle ts diff n].
  cbn [version prev_block_hash merkle_root timestamp difficulty_target nonce] in *.
  unfold BlockHeader_serialize, write_uint32_le, read_uint32_le in *.
  cbn [version prev_block_hash merkle_root timestamp difficulty_target nonce] in *.
  set (data := (le_bytes 4 ver ++ prev ++ merkle ++ le_bytes 4 ts
                ++ le_bytes 4 diff ++ le_bytes 4 n) ++ post) in *.
  assert (E1 : data = [] ++ le_bytes 4 ver
                      ++ (prev ++ merkle ++ le_bytes 4 ts ++ le_bytes 4 diff
                          ++ le_bytes 4 n ++ post))
    by (subst data; rewrite <- !app_assoc; reflexivity).
  assert (E2 : data = ([] ++ le_bytes 4 ver) ++ prev
                      ++ (merkle ++ le_bytes 4 ts ++ le_bytes 4 diff
                          ++ le_bytes 4 n ++ post))
    by (subst data; rewrite <- !app_assoc; reflexivity).
  assert (E3 : data = (([] ++ le_bytes 4 ver) ++ prev) ++ merkle
                      ++ (le_bytes 4 ts ++ le_bytes 4 diff ++ le_bytes 4 n ++ post))
    by (subst data; rewrite <- !app_assoc; reflexivity).
  assert (E4 : data = ((([] ++ le_bytes 4 ver) ++ prev) ++ merkle)
                      ++ le_bytes 4 ts ++ (le_bytes 4 diff ++ le_bytes 4 n ++ post))
    by (subst data; rewrite <- !app_assoc; reflexivity).
  assert (E5 : data = (((([] ++ le_bytes 4 ver) ++ prev) ++ merkle)
                       ++ le_bytes 4 ts) ++ le_bytes 4 diff ++ (le_bytes 4 n ++ post))
    by (subst data; rewrite <- !app_assoc; reflexivity).
  assert (E6 : data = ((((([] ++ le_bytes 4 ver) ++ prev) ++ merkle)
                        ++ le_bytes 4 ts) ++ le_bytes 4 diff) ++ le_bytes 4 n ++ post)
    by (subst data; rewrite <- !app_assoc; reflexivity).
  assert (H32 : 2 ^ (8 * Z.of_nat 4) = 2 ^ 32) by reflexivity.
  change 0 with (size []) at 1.
  rewrite E1 at 1. rewrite read_le_le_bytes by (rewrite ?H32, <- ?E1; assumption).
  cbn [bind]. replace 32 with (size prev) at 1 by (unfold size; lia).
  rewrite E2 at 1. rewrite read_range_middle by (rewrite <- E2; exact Hsize).
  cbn [bind]. replace 32 with (size merkle) at 1 by (unfold size; lia).
  rewrite E3 at 1. rewrite read_range_middle by (rewrite <- E3; exact Hsize).
  cbn [bind].
  rewrite E4 at 1. rewrite read_le_le_bytes by (rewrite ?H32, <- ?E4; assumption).
  cbn [bind].
  rewrite E5 at 1. rewrite read_le_le_bytes by (rewrite ?H32, <- ?E5; assumption).
  cbn [bind].
  rewrite E6 at 1. rewrite read_le_le_bytes by (rewrite ?H32, <- ?E6; assumption).
  cbn [bind]. f_equal.
  rewrite !size_app. unfold size. rewrite !le_bytes_length, Hp, Hm. reflexivity.
Qed.

Lemma BlockHeader_deserialize_serialize_witness :
  let h := mkBlockHeader 1 Hash256_zero id_a 1231006505 0x1d00ffff 2083236893 in
  length (BlockHeader_serialize h) = 80%nat /\
  BlockHeader_deserialize (BlockHeader_serialize h ++ [1; 2; 3]) = Value h 80.
Proof.
  apply (BlockHeader_deserialize_serialize
           (mkBlockHeader 1 Hash256_zero id_a 1231006505 0x1d00ffff 2083236893)
           [1; 2; 3]);
    try reflexivity; cbn; lia.
Defined.

(** X16.  [BlockHeader::deserialize] on arbitrary bytes: data of fewer
    than 80 bytes give [nullopt]; data of at least 80 bytes always give a
    header, and serializing that header gives the first 80 bytes of the
    data back. *)
Theorem BlockHeader_deserialize_total (data : bytes) :
  Forall is_byte data -> size data < 2 ^ 64 ->
  (size data < 80 -> BlockHeader_deserialize data = Nullopt) /\
  (80 <= size data ->
   exists h : BlockHeader,
     BlockHeader_deserialize data = Value h 80 /\
     BlockHeader_serialize h = firstn 80 data).
Proof.
  intros Hb Hsize. unfold BlockHeader_deserialize. split.
  - intros Hs. destruct (Z.ltb_spec (size data) 80); [reflexivity|lia].
  - intros Hs. destruct (Z.ltb_spec (size data) 80); [lia|].
    assert (Hlen : (80 <= length data)%nat) by (unfold size in Hs; lia).
    unfold read_uint32_le.
    destruct (read_le_bytes 4 data 0 Hb Hsize ltac:(lia)) as (ver & Hver & _ & Ever).
    pose proof (read_range_inside 32 data 4 Hsize ltac:(lia)) as Hprev.
    pose proof (read_range_inside 32 data 36 Hsize ltac:(lia)) as Hmerkle.
    destruct (read_le_bytes 4 data 68 Hb Hsize ltac:(lia)) as (ts & Hts & _ & Ets).
    destruct (read_le_bytes 4 data 72 Hb Hsize ltac:(lia))
      as (diff & Hdiff & _ & Ediff).
    destruct (read_le_bytes 4 data 76 Hb Hsize ltac:(lia)) as (n & Hn & _ & En).
    change (Z.of_nat 0) with 0 in Hver. change (Z.of_nat (0 + 4)) with 4 in Hver.
    change (Z.of_nat 32) with 32 in Hprev, Hmerkle.
    change (Z.of_nat 4) with 4 in Hprev.
    change (Z.of_nat (4 + 32)) with 36 in Hprev.
    change (Z.of_nat 36) with 36 in Hmerkle.
    change (Z.of_nat (36 + 32)) with 68 in Hmerkle.
    change (Z.of_nat 68) with 68 in Hts. change (Z.of_nat (68 + 4)) with 72 in Hts.
    change (Z.of_nat 72) with 72 in Hdiff.
    change (Z.of_nat (72 + 4)) with 76 in Hdiff.
    change (Z.of_nat 76) with 76 in Hn. change (Z.of_nat (76 + 4)) with 80 in Hn.
    rewrite Hver. cbn [bind]. rewrite Hprev. cbn [bind].
    rewrite Hmerkle. cbn [bind]. rewrite Hts. cbn [bind].
    rewrite Hdiff. cbn [bind]. rewrite Hn. cbn [bind].
    eexists. split; [reflexivity|].
    unfold BlockHeader_serialize, write_uint32_le.
    cbn [version prev_block_hash merkle_root timestamp difficulty_target nonce].
    rewrite Ever, Ets, Ediff, En.
    symmetry.
    rewrite <- (firstn_skipn 4 (firstn 80 data)) at 1.
    rewrite firstn_firstn. cbn [Nat.min]. change (skipn 0 data) with data.
    f_equal.
    rewrite !skipn_firstn_comm. cbn [Nat.sub].
    rewrite <- (firstn_skipn 32 (firstn 76 (skipn 4 data))) at 1.
    rewrite firstn_firstn. cbn [Nat.min]. f_equal.
    rewrite skipn_firstn_comm, skipn_skipn. cbn [Nat.sub Nat.add].
    rewrite <- (firstn_skipn 32 (firstn 44 (skipn 36 data))) at 1.
    rewrite firstn_firstn. cbn [Nat.min]. f_equal.
    rewrite skipn_firstn_comm, skipn_skipn. cbn [Nat.sub Nat.add].
    rewrite <- (firstn_skipn 4 (firstn 12 (skipn 68 data))) at 1.
    rewrite firstn_firstn. cbn [Nat.min]. f_equal.
    rewrite skipn_firstn_comm, skipn_skipn. cbn [Nat.sub Nat.add].
    rewrite <- (firstn_skipn 4 (firstn 8 (skipn 72 data))) at 1.
    rewrite firstn_firstn. cbn [Nat.min]. f_equal.
    rewrite skipn_firstn_comm, skipn_skipn. cbn [Nat.sub Nat.add].
    reflexivity.
Qed.

Lemma BlockHeader_deserialize_total_witness :
  (size (repeat 7 100) < 80 -> BlockHeader_deserialize (repeat 7 100) = Nullopt) /\
  (80 <= size (repeat 7 100) ->
   exists h : BlockHeader,
     BlockHeader_deserialize (repeat 7 100) = Value h 80 /\
     BlockHeader_serialize h = firstn 80 (repeat 7 100)).
Proof.
  apply (BlockHeader_deserialize_total (repeat 7 100)).
  - apply List.Forall_forall. intros x Hx. apply repeat_spec in Hx. subst x.
    unfold is_byte. lia.
  - vm_compute. reflexivity.
Defined.

Lemma halving_loop_div (halvings : nat) :
  forall reward : Z,
    0 <= reward ->
    validation.halving_loop halvings reward = reward / 2 ^ Z.of_nat halvings.
Proof.
  induction halvings as [|n IH]; intros reward Hr; cbn [validation.halving_loop].
  - change (2 ^ Z.of_nat 0) with 1. now rewrite Z.div_1_r.
  - rewrite Nat2Z.inj_succ, Z.pow_succ_r by lia.
    destruct (Z.ltb_spec 0 reward) as [Hpos|Hz].
    + rewrite IH by (apply Z.div_pos; lia).
      rewrite Z.div_div by (try lia; apply Z.pow_pos_nonneg; lia). reflexivity.
    + assert (reward = 0) by lia. subst reward. symmetry. apply Z.div_0_l.
      assert (0 < 2 ^ Z.of_nat n) by (apply Z.pow_pos_nonneg; lia). lia.
Qed.

(** X17.  [validation::calculate_block_reward]: the reward at a height is
    5000000000 halved (rounding down) once for every 210000 blocks; it
    never grows with the height, and it is zero from height 6930000 on. *)
Theorem calculate_block_reward_halves (height : Z) :
  0 <= height ->
  validation.calculate_block_reward height
  = 5000000000 / 2 ^ (height / 210000) /\
  (forall height' : Z,
     height <= height' ->
     validation.calculate_block_reward height'
     <= validation.calculate_block_reward height) /\
  (validation.calculate_block_reward height = 0 <-> 6930000 <= height).
Proof.
  intros Hh.
  assert (Hform : forall h, 0 <= h ->
            validation.calculate_block_reward h = 5000000000 / 2 ^ (h / 210000)).
  { intros h Hh0. unfold validation.calculate_block_reward,
      validation.GENESIS_BLOCK_REWARD, validation.HALVING_INTERVAL.
    rewrite halving_loop_div by lia.
    rewrite Z2Nat.id by (apply Z.div_pos; lia). reflexivity. }
  split; [apply Hform; exact Hh|]. split.
  - intros height' Hle. rewrite !Hform by lia.
    assert (Hk : 0 <= height / 210000 <= height' / 210000).
    { split; [apply Z.div_pos; lia|apply Z.div_le_mono; lia]. }
    apply Z.div_le_compat_l; [lia|].
    split; [apply Z.pow_pos_nonneg; lia|apply Z.pow_le_mono_r; lia].
  - rewrite Hform by exact Hh.
    assert (Hk : 0 <= height / 210000) by (apply Z.div_pos; lia).
    split.
    + intros Hz.
      destruct (Z.lt_ge_cases height 6930000) as [Hlt|Hge]; [exfalso|exact Hge].
      assert (Hk33 : height / 210000 < 33) by (apply Z.div_lt_upper_bound; lia).
      assert (Hp : 2 ^ (height / 210000) <= 2 ^ 32) by (apply Z.pow_le_mono_r; lia).
      assert (Hpos : 0 < 2 ^ (height / 210000)) by (apply Z.pow_pos_nonneg; lia).
      assert (1 <= 5000000000 / 2 ^ (height / 210000)).
      { apply Z.div_le_lower_bound; lia. }
      lia.
    + intros Hge. apply Z.div_small.
      assert (Hk33 : 33 <= height / 210000) by (apply Z.div_le_lower_bound; lia).
      assert (Hp : 2 ^ 33 <= 2 ^ (height / 210000)) by (apply Z.pow_le_mono_r; lia).
      lia.
Qed.

Lemma calculate_block_reward_halves_witness :
  validation.calculate_block_reward 420000 = 5000000000 / 2 ^ (420000 / 210000) /\
  (forall height' : Z,
     420000 <= height' ->
     validation.calculate_block_reward height'
     <= validation.calculate_block_reward 420000) /\
  (validation.calculate_block_reward 420000 = 0 <-> 6930000 <= 420000).
Proof. apply (calculate_block_reward_halves 420000). lia. Defined.

(** The loop of [Block::mine] from a nonce on. *)
Lemma mine_loop_spec (fuel : nat) :
  forall (b : Block) (i max_iterations : Z),
    0 <= i -> max_iterations < 2 ^ 32 ->
    (Z.to_nat (max_iterations - i) <= fuel)%nat ->
    let r := mine_loop fuel b i max_iterations in
    transactions (snd r) = transactions b /\
    (fst r = true ->
     BlockHeader_meets_difficulty_target (header (snd r)) = true /\
     cached_merkle (snd r) = None /\
     i <= nonce (header (snd r)) < max_iterations /\
     header (snd r) = set_nonce (header b) (nonce (header (snd r))) /\
     forall n : Z,
       i <= n < nonce (header (snd r)) ->
       BlockHeader_meets_difficulty_target (set_nonce (header b) n) = false) /\
    (fst r = false ->
     header (snd r)
     = (if i <? max_iterations
        then set_nonce (header b) (max_iterations - 1) else header b) /\
     cached_merkle (snd r) = cached_merkle b /\
     forall n : Z,
       i <= n < max_iterations ->
       BlockHeader_meets_difficulty_target (set_nonce (header b) n) = false).
Proof.
  induction fuel as [|fuel IH]; intros b i max_iterations Hi Hmax Hfuel r;
    subst r; cbn [mine_loop].
  - cbn [fst snd]. split; [reflexivity|]. split; [discriminate|].
    intros _. destruct (Z.ltb_spec i max_iterations); [lia|].
    split; [reflexivity|]. split; [reflexivity|]. intros n Hn. lia.
  - destruct (Z.ltb_spec i max_iterations) as [Hlt|Hge].
    + destruct (BlockHeader_meets_difficulty_target
                  (header (mkBlock (set_nonce (header b) i) (transactions b)
                             (cached_merkle b)))) eqn:Hmeets;
        cbn [header] in Hmeets.
      * cbn [fst snd header transactions cached_merkle set_nonce nonce].
        split; [reflexivity|]. split; [|discriminate].
        intros _. split; [exact Hmeets|]. split; [reflexivity|].
        split; [lia|]. split; [reflexivity|]. intros n Hn. lia.
      * assert (Hu : u32 (i + 1) = i + 1)
          by (unfold u32; apply Z.mod_small; lia).
        rewrite Hu.
        specialize (IH (mkBlock (set_nonce (header b) i) (transactions b)
                          (cached_merkle b)) (i + 1) max_iterations
                      ltac:(lia) Hmax ltac:(lia)).
        cbn zeta in IH. cbn [header transactions cached_merkle] in IH.
        assert (Hset : forall n, set_nonce (set_nonce (header b) i) n
                                 = set_nonce (header b) n) by reflexivity.
        destruct IH as (Htx & Hok & Hfail).
        split; [exact Htx|]. split.
        -- intros Hs. destruct (Hok Hs) as (H1 & H2 & H3 & H4 & H5).
           split; [exact H1|]. split; [exact H2|]. split; [lia|].
           split; [rewrite H4 at 1; apply Hset|].
           intros n Hn. destruct (Z.eq_dec n i) as [->|Hne]; [exact Hmeets|].
           rewrite <- Hset. apply H5. lia.
        -- intros Hf. destruct (Hfail Hf) as (Hh & Hc & Hnone).
           split; [|split; [exact Hc|]].
           ++ rewrite Hh. destruct (Z.ltb_spec (i + 1) max_iterations).
              ** apply Hset.
              ** replace (max_iterations - 1) with i by lia. reflexivity.
           ++ intros n Hn.
              destruct (Z.eq_dec n i) as [->|Hne]; [exact Hmeets|].
              rewrite <- Hset. apply Hnone. lia.
    + cbn [fst snd]. split; [reflexivity|]. split; [discriminate|].
      intros _. split; [reflexivity|]. split; [reflexivity|].
      intros n Hn. lia.
Qed.

(** X18.  [Block::mine] searches the nonces 0, 1, ... below
    [max_iterations]: when it returns true the block's header, with the
    nonce it then holds, meets its difficulty target, the memoized merkle
    root is dropped, and no smaller nonce meets the target; when it returns
    false no nonce below [max_iterations] does, the header is left with
    the last nonce tried, [max_iterations - 1] (and as it was when
    [max_iterations] is 0), and the memoized merkle root is kept.  In both
    cases the transactions and the header fields other than the nonce are
    not touched. *)
Theorem Block_mine_least_nonce (b : Block) (max_iterations : Z) :
  0 <= max_iterations < 2 ^ 32 ->
  let r := Block_mine b max_iterations in
  transactions (snd r) = transactions b /\
  (fst r = true ->
   BlockHeader_meets_difficulty_target (header (snd r)) = true /\
   cached_merkle (snd r) = None /\
   0 <= nonce (header (snd r)) < max_iterations /\
   header (snd r) = set_nonce (header b) (nonce (header (snd r))) /\
   forall n : Z,
     0 <= n < nonce (header (snd r)) ->
     BlockHeader_meets_difficulty_target (set_nonce (header b) n) = false) /\
  (fst r = false ->
   header (snd r)
   = (if 0 <? max_iterations
      then set_nonce (header b) (max_iterations - 1) else header b) /\
   cached_merkle (snd r) = cached_merkle b /\
   forall n : Z,
     0 <= n < max_iterations ->
     BlockHeader_meets_difficulty_target (set_nonce (header b) n) = false).
Proof.
  intros Hmax. unfold Block_mine.
  apply (mine_loop_spec (Z.to_nat max_iterations) b 0 max_iterations); lia.
Qed.

Lemma Block_mine_least_nonce_witness :
  let b := mkBlock (mkBlockHeader 1 Hash256_zero Hash256_zero 1231006505
                      0x207fffff 0) [] None in
  let r := Block_mine b 16 in
  transactions (snd r) = transactions b /\
  (fst r = true ->
   BlockHeader_meets_difficulty_target (header (snd r)) = true /\
   cached_merkle (snd r) = None /\
   0 <= nonce (header (snd r)) < 16 /\
   header (snd r) = set_nonce (header b) (nonce (header (snd r))) /\
   forall n : Z,
     0 <= n < nonce (header (snd r)) ->
     BlockHeader_meets_difficulty_target (set_nonce (header b) n) = false) /\
  (fst r = false ->
   header (snd r)
   = (if 0 <? 16 then set_nonce (header b) (16 - 1) else header b) /\
   cached_merkle (snd r) = cached_merkle b /\
   forall n : Z,
     0 <= n < 16 ->
     BlockHeader_meets_difficulty_target (set_nonce (header b) n) = false).
Proof.
  apply (Block_mine_least_nonce
           (mkBlock (mkBlockHeader 1 Hash256_zero Hash256_zero 1231006505
                       0x207fffff 0) [] None) 16).
  lia.
Defined.

End BlockFacts.

(** ** The proof-of-work miner ([consensus.cpp]) *)
Module MinerFacts.
Import ProofOfWorkMiner.

Lemma mine_worker_loop_spec (should_stop : nat -> bool) (block_data : bytes)
    (difficulty_target start_nonce : Z) (remaining : nat) :
  forall (i : nat) (result r : MiningResult),
    success result = false ->
    hash_operations result = Z.of_nat i ->
    Z.of_nat (i + remaining) < 2 ^ 32 ->
    mine_worker_loop should_stop block_data difficulty_target start_nonce
      remaining i result = Some r ->
    (success r = true ->
     exists k : nat,
       (i <= k < i + remaining)%nat /\
       result_nonce r = u32 (start_nonce + Z.of_nat k) /\
       block_hash r = Some (compute_block_hash block_data (result_nonce r)) /\
       hash_operations r = Z.of_nat k + 1 /\
       verify_proof_of_work block_data (result_nonce r) difficulty_target
       = Some true /\
       forall j : nat,
         (i <= j < k)%nat ->
         should_stop j = false /\
         verify_proof_of_work block_data (u32 (start_nonce + Z.of_nat j))
           difficulty_target = Some false) /\
    (success r = false ->
     exists k : nat,
       (i <= k <= i + remaining)%nat /\
       hash_operations r = Z.of_nat k /\
       (k < i + remaining -> should_stop k = true)%nat /\
       forall j : nat,
         (i <= j < k)%nat ->
         should_stop j = false /\
         verify_proof_of_work block_data (u32 (start_nonce + Z.of_nat j))
           difficulty_target = Some false).
Proof.
  induction remaining as [|remaining IH]; intros i result r Hs Hops Hfit Hrun;
    cbn [mine_worker_loop] in Hrun.
  - injection Hrun as <-. split; [congruence|]. intros _.
    exists i. split; [lia|]. split; [exact Hops|]. split; [lia|].
    intros j Hj. lia.
  - destruct (should_stop i) eqn:Hstop.
    + injection Hrun as <-. split; [congruence|]. intros _.
      exists i. split; [lia|]. split; [exact Hops|]. split; [intros _; exact Hstop|].
      intros j Hj. lia.
    + assert (Hu : u64 (hash_operations result + 1) = Z.of_nat i + 1).
      { rewrite Hops. unfold u64. apply Z.mod_small. lia. }
      rewrite Hu in Hrun.
      destruct (meets_difficulty_target
                  (compute_block_hash block_data (u32 (start_nonce + Z.of_nat i)))
                  difficulty_target) as [[|]|] eqn:Hmeets; [| |discriminate].
      * injection Hrun as <-. cbn [success result_nonce block_hash hash_operations].
        split; [|discriminate]. intros _.
        exists i. split; [lia|]. split; [reflexivity|]. split; [reflexivity|].
        split; [reflexivity|]. split; [exact Hmeets|]. intros j Hj. lia.
      * apply IH in Hrun;
          [|cbn [success]; exact Hs|cbn [hash_operations]; lia|lia].
        destruct Hrun as [Hok Hfail]. split.
        -- intros Hsr. destruct (Hok Hsr) as (k & Hk & H1 & H2 & H3 & H4 & H5).
           exists k. split; [lia|]. repeat (split; [assumption|]).
           intros j Hj. destruct (Nat.eq_dec j i) as [->|Hne].
           ++ split; [exact Hstop|exact Hmeets].
           ++ apply H5. lia.
        -- intros Hsr. destruct (Hfail Hsr) as (k & Hk & H1 & H2 & H3).
           exists k. split; [lia|]. split; [exact H1|].
           split; [intros Hlt; apply H2; lia|].
           intros j Hj. destruct (Nat.eq_dec j i) as [->|Hne].
           ++ split; [exact Hstop|exact Hmeets].
           ++ apply H3. lia.
Qed.

(** [bits_to_target] shifts a 64-bit word by 8 * (exponent - 3) bits:
    defined up to exponent 10, undefined from exponent 11 on. *)
Lemma bits_to_target_defined (difficulty_bits : Z) :
  Z.shiftr difficulty_bits 24 <= 10 ->
  exists target : Z, bits_to_target difficulty_bits = Some target.
Proof.
  intros He. unfold bits_to_target.
  destruct (Z.shiftr difficulty_bits 24 <=? 3); [eauto|].
  destruct (Z.ltb_spec (8 * (Z.shiftr difficulty_bits 24 - 3)) 64);
    [eauto|lia].
Qed.

Lemma bits_to_target_undefined (difficulty_bits : Z) :
  11 <= Z.shiftr difficulty_bits 24 -> bits_to_target difficulty_bits = None.
Proof.
  intros He. unfold bits_to_target.
  destruct (Z.leb_spec (Z.shiftr difficulty_bits 24) 3); [lia|].
  destruct (Z.ltb_spec (8 * (Z.shiftr difficulty_bits 24 - 3)) 64);
    [lia|reflexivity].
Qed.

Lemma mine_worker_loop_defined (should_stop : nat -> bool) (block_data : bytes)
    (difficulty_target start_nonce target : Z) (remaining : nat) :
  bits_to_target difficulty_target = Some target ->
  forall (i : nat) (result : MiningResult),
  exists r : MiningResult,
    mine_worker_loop should_stop block_data difficulty_target start_nonce
      remaining i result = Some r.
Proof.
  intros Ht.
  induction remaining as [|remaining IH]; intros i result;
    cbn [mine_worker_loop]; [eauto|].
  destruct (should_stop i); [eauto|].
  unfold meets_difficulty_target. rewrite Ht.
  destruct (hash_value _ <=? target); [eauto|apply IH].
Qed.

(** The run of [mine_worker] where the target is defined. *)
Lemma mine_worker_defined (should_stop : nat -> bool) (block_data : bytes)
    (difficulty_target start_nonce nonce_range : Z) :
  0 <= nonce_range < 2 ^ 32 ->
  Z.shiftr difficulty_target 24 <= 10 ->
  exists r : MiningResult,
    mine_worker should_stop block_data difficulty_target start_nonce
      nonce_range = Some r /\
    (success r = true ->
     exists k : nat,
       Z.of_nat k < nonce_range /\
       result_nonce r = u32 (start_nonce + Z.of_nat k) /\
       block_hash r = Some (compute_block_hash block_data (result_nonce r)) /\
       hash_operations r = Z.of_nat k + 1 /\
       verify_proof_of_work block_data (result_nonce r) difficulty_target
       = Some true /\
       forall j : nat,
         (j < k)%nat ->
         should_stop j = false /\
         verify_proof_of_work block_data (u32 (start_nonce + Z.of_nat j))
           difficulty_target = Some false) /\
    (success r = false ->
     exists k : nat,
       Z.of_nat k <= nonce_range /\
       hash_operations r = Z.of_nat k /\
       (Z.of_nat k < nonce_range -> should_stop k = true) /\
       forall j : nat,
         (j < k)%nat ->
         should_stop j = false /\
         verify_proof_of_work block_data (u32 (start_nonce + Z.of_nat j))
           difficulty_target = Some false).
Proof.
  intros Hrange He.
  destruct (bits_to_target_defined difficulty_target He) as [target Ht].
  unfold mine_worker.
  destruct (mine_worker_loop_defined should_stop block_data difficulty_target
              start_nonce target (Z.to_nat nonce_range) Ht 0
              (mkMiningResult false 0 None 0)) as [r Hrun].
  exists r. split; [exact Hrun|].
  apply mine_worker_loop_spec in Hrun; [|reflexivity|reflexivity|lia].
  destruct Hrun as [Hok Hfail].
  split.
  - intros Hs. destruct (Hok Hs) as (k & Hk & H1 & H2 & H3 & H4 & H5).
    exists k. split; [lia|]. repeat (split; [assumption|]).
    intros j Hj. apply H5. lia.
  - intros Hs. destruct (Hfail Hs) as (k & Hk & H1 & H2 & H3).
    exists k. split; [lia|]. split; [exact H1|].
    split; [intros Hlt; apply H2; lia|].
    intros j Hj. apply H3. lia.
Qed.

(** The run of [mine_worker] where the shift of [bits_to_target] is
    undefined: nothing defined is left once a nonce is tried. *)
Lemma mine_worker_undefined (should_stop : nat -> bool) (block_data : bytes)
    (difficulty_target start_nonce nonce_range : Z) :
  11 <= Z.shiftr difficulty_target 24 ->
  mine_worker should_stop block_data difficulty_target start_nonce nonce_range
  = if (0 <? nonce_range) && negb (should_stop O)
    then None else Some (mkMiningResult false 0 None 0).
Proof.
  intros He. unfold mine_worker.
  destruct (Z.ltb_spec 0 nonce_range) as [Hpos|Hzero]; cbn [andb].
  - destruct (Z.to_nat nonce_range) as [|n] eqn:En; [lia|].
    cbn [mine_worker_loop].
    destruct (should_stop O); cbn [negb]; [reflexivity|].
    unfold meets_difficulty_target.
    rewrite (bits_to_target_undefined difficulty_target He). reflexivity.
  - replace (Z.to_nat nonce_range) with O by lia. reflexivity.
Qed.

(** X19.  [ProofOfWorkMiner::mine_worker], whatever [stop_mining] does
    meanwhile.  For a compact target with exponent at most 10, where the
    64-bit shift of [bits_to_target] is defined, the call returns a
    result: a successful one carries the first nonce of the range, in the
    order start_nonce, start_nonce + 1, ... (32 bits), that
    [verify_proof_of_work] accepts, with its hash and with the number of
    hashes computed; an unsuccessful one means that every nonce tried was
    rejected, and that the range was exhausted unless the stop flag was
    seen.  For an exponent of 11 or more (0x1d00ffff and 0x207fffff among
    them) the shift is by 64 bits or more, undefined in C++, as soon as
    one nonce is tried; only a run that tries none (an empty range, or a
    stop flag set from the start) returns, with the empty result. *)
Theorem mine_worker_first_nonce (should_stop : nat -> bool) (block_data : bytes)
    (difficulty_target start_nonce nonce_range : Z) :
  0 <= nonce_range < 2 ^ 32 ->
  (Z.shiftr difficulty_target 24 <= 10 ->
   exists r : MiningResult,
     mine_worker should_stop block_data difficulty_target start_nonce
       nonce_range = Some r /\
     (success r = true ->
      exists k : nat,
        Z.of_nat k < nonce_range /\
        result_nonce r = u32 (start_nonce + Z.of_nat k) /\
        block_hash r = Some (compute_block_hash block_data (result_nonce r)) /\
        hash_operations r = Z.of_nat k + 1 /\
        verify_proof_of_work block_data (result_nonce r) difficulty_target
        = Some true /\
        forall j : nat,
          (j < k)%nat ->
          should_stop j = false /\
          verify_proof_of_work block_data (u32 (start_nonce + Z.of_nat j))
            difficulty_target = Some false) /\
     (success r = false ->
      exists k : nat,
        Z.of_nat k <= nonce_range /\
        hash_operations r = Z.of_nat k /\
        (Z.of_nat k < nonce_range -> should_stop k = true) /\
        forall j : nat,
          (j < k)%nat ->
          should_stop j = false /\
          verify_proof_of_work block_data (u32 (start_nonce + Z.of_nat j))
            difficulty_target = Some false)) /\
  (11 <= Z.shiftr difficulty_target 24 ->
   mine_worker should_stop block_data difficulty_target start_nonce nonce_range
   = if (0 <? nonce_range) && negb (should_stop O)
     then None else Some (mkMiningResult false 0 None 0)).
Proof.
  intros Hrange. split.
  - intros He. apply mine_worker_defined; assumption.
  - intros He. apply mine_worker_undefined. exact He.
Qed.

Lemma mine_worker_first_nonce_witness :
  (Z.shiftr 0x0800ffff 24 <= 10 ->
   exists r : MiningResult,
     mine_worker (fun _ => false) [] 0x0800ffff 205 10 = Some r /\
     (success r = true ->
      exists k : nat,
        Z.of_nat k < 10 /\
        result_nonce r = u32 (205 + Z.of_nat k) /\
        block_hash r = Some (compute_block_hash [] (result_nonce r)) /\
        hash_operations r = Z.of_nat k + 1 /\
        verify_proof_of_work [] (result_nonce r) 0x0800ffff = Some true /\
        forall j : nat,
          (j < k)%nat ->
          (fun _ : nat => false) j = false /\
          verify_proof_of_work [] (u32 (205 + Z.of_nat j)) 0x0800ffff
          = Some false) /\
     (success r = false ->
      exists k : nat,
        Z.of_nat k <= 10 /\
        hash_operations r = Z.of_nat k /\
        (Z.of_nat k < 10 -> (fun _ : nat => false) k = true) /\
        forall j : nat,
          (j < k)%nat ->
          (fun _ : nat => false) j = false /\
          verify_proof_of_work [] (u32 (205 + Z.of_nat j)) 0x0800ffff
          = Some false)) /\
  (11 <= Z.shiftr 0x0800ffff 24 ->
   mine_worker (fun _ => false) [] 0x0800ffff 205 10
   = if (0 <? 10) && negb ((fun _ : nat => false) O)
     then None else Some (mkMiningResult false 0 None 0)).
Proof.
  apply (mine_worker_first_nonce (fun _ => false) [] 0x0800ffff 205 10).
  lia.
Defined.

(** X20.  [ProofOfWorkMiner::mine_block] is [mine_worker] from nonce 0 on
    a range cut to 32 bits: [max_iterations mod 2^32] nonces (2^32 - 1
    when [max_iterations] is 0), so that for a positive multiple of 2^32
    it tries no nonce at all and reports a failure.  For a compact target
    with exponent at most 10 it returns a result with at most that many
    hash operations; a success carries the least nonce that
    [verify_proof_of_work] accepts, below that bound, and a failure means
    that the nonces tried were all rejected.  For an exponent of 11 or
    more the shift of [bits_to_target] is undefined as soon as one nonce
    is tried. *)
Theorem mine_block_iterations (should_stop : nat -> bool) (block_data : bytes)
    (difficulty_target max_iterations : Z) :
  0 <= max_iterations < 2 ^ 64 ->
  let tried := if max_iterations =? 0 then 2 ^ 32 - 1
               else max_iterations mod 2 ^ 32 in
  mine_block should_stop block_data difficulty_target max_iterations
  = mine_worker should_stop block_data difficulty_target 0 tried /\
  (Z.shiftr difficulty_target 24 <= 10 ->
   exists r : MiningResult,
     mine_block should_stop block_data difficulty_target max_iterations
     = Some r /\
     0 <= hash_operations r <= tried /\
     (success r = true ->
      0 <= result_nonce r < tried /\
      hash_operations r = result_nonce r + 1 /\
      block_hash r = Some (compute_block_hash block_data (result_nonce r)) /\
      verify_proof_of_work block_data (result_nonce r) difficulty_target
      = Some true /\
      forall n : Z,
        0 <= n < result_nonce r ->
        verify_proof_of_work block_data n difficulty_target = Some false) /\
     (success r = false ->
      (hash_operations r < tried ->
       should_stop (Z.to_nat (hash_operations r)) = true) /\
      forall n : Z,
        0 <= n < hash_operations r ->
        verify_proof_of_work block_data n difficulty_target = Some false) /\
     (tried = 0 -> r = mkMiningResult false 0 None 0)) /\
  (11 <= Z.shiftr difficulty_target 24 ->
   mine_block should_stop block_data difficulty_target max_iterations
   = if (0 <? tried) && negb (should_stop O)
     then None else Some (mkMiningResult false 0 None 0)).
Proof.
  intros Hmax tried.
  assert (Htried : u32 (if max_iterations =? 0 then UINT32_MAX else max_iterations)
                   = tried).
  { subst tried. unfold u32, UINT32_MAX.
    destruct (max_iterations =? 0); [apply Z.mod_small; lia|reflexivity]. }
  assert (Hrange : 0 <= tried < 2 ^ 32).
  { subst tried. destruct (max_iterations =? 0); [lia|].
    apply Z.mod_pos_bound. lia. }
  assert (Hblock : mine_block should_stop block_data difficulty_target
                     max_iterations
                   = mine_worker should_stop block_data difficulty_target 0
                       tried).
  { unfold mine_block. rewrite Htried. reflexivity. }
  clearbody tried. rewrite Hblock.
  split; [reflexivity|]. split.
  - intros He.
    destruct (mine_worker_defined should_stop block_data difficulty_target 0
                tried Hrange He) as (r & Hrun & Hok & Hfail).
    assert (Hnonce : forall j : nat, Z.of_nat j < tried ->
                       u32 (0 + Z.of_nat j) = Z.of_nat j).
    { intros j Hj. unfold u32. apply Z.mod_small. lia. }
    exists r. split; [exact Hrun|]. split; [|split; [|split]].
    + destruct (success r) eqn:Hs.
      * destruct (Hok eq_refl) as (k & Hk & _ & _ & Hops & _). lia.
      * destruct (Hfail eq_refl) as (k & Hk & Hops & _). lia.
    + intros Hs.
      destruct (Hok Hs) as (k & Hk & Hn & Hh & Hops & Hv & Hbefore).
      rewrite Hnonce in Hn by exact Hk.
      split; [lia|]. split; [lia|]. split; [exact Hh|]. split; [exact Hv|].
      intros n Hlt.
      destruct (Hbefore (Z.to_nat n) ltac:(lia)) as [_ Hrej].
      rewrite Hnonce, Z2Nat.id in Hrej by lia. exact Hrej.
    + intros Hs. destruct (Hfail Hs) as (k & Hk & Hops & Hstop & Hbefore).
      split.
      * intros Hlt. rewrite Hops, Nat2Z.id. apply Hstop. lia.
      * intros n Hlt.
        destruct (Hbefore (Z.to_nat n) ltac:(lia)) as [_ Hrej].
        rewrite Hnonce, Z2Nat.id in Hrej by lia. exact Hrej.
    + intros Hz. rewrite Hz in Hrun. unfold mine_worker in Hrun.
      change (Z.to_nat 0) with O in Hrun. cbn [mine_worker_loop] in Hrun.
      injection Hrun as <-. reflexivity.
  - intros He. apply mine_worker_undefined. exact He.
Qed.

Lemma mine_block_iterations_witness :
  let tried := if 2 ^ 32 + 10 =? 0 then 2 ^ 32 - 1
               else (2 ^ 32 + 10) mod 2 ^ 32 in
  mine_block (fun _ => false) [] 0x0800ffff (2 ^ 32 + 10)
  = mine_worker (fun _ => false) [] 0x0800ffff 0 tried /\
  (Z.shiftr 0x0800ffff 24 <= 10 ->
   exists r : MiningResult,
     mine_block (fun _ => false) [] 0x0800ffff (2 ^ 32 + 10) = Some r /\
     0 <= hash_operations r <= tried /\
     (success r = true ->
      0 <= result_nonce r < tried /\
      hash_operations r = result_nonce r + 1 /\
      block_hash r = Some (compute_block_hash [] (result_nonce r)) /\
      verify_proof_of_work [] (result_nonce r) 0x0800ffff = Some true /\
      forall n : Z,
        0 <= n < result_nonce r ->
        verify_proof_of_work [] n 0x0800ffff = Some false) /\
     (success r = false ->
      (hash_operations r < tried ->
       (fun _ : nat => false) (Z.to_nat (hash_operations r)) = true) /\
      forall n : Z,
        0 <= n < hash_operations r ->
        verify_proof_of_work [] n 0x0800ffff = Some false) /\
     (tried = 0 -> r = mkMiningResult false 0 None 0)) /\
  (11 <= Z.shiftr 0x0800ffff 24 ->
   mine_block (fun _ => false) [] 0x0800ffff (2 ^ 32 + 10)
   = if (0 <? tried) && negb ((fun _ : nat => false) O)
     then None else Some (mkMiningResult false 0 None 0)).
Proof.
  apply (mine_block_iterations (fun _ => false) [] 0x0800ffff (2 ^ 32 + 10)).
  lia.
Defined.

End MinerFacts.

(** ** Merkle trees: a duplicated last leaf *)
Module MerkleMutation.
Import MerkleTree MerkleFacts.

Lemma next_level_duplicate_last (H0 : list Hash256) (h : Hash256) :
  (length H0 mod 2 = 0)%nat ->
  next_level (H0 ++ [h; h]) = next_level (H0 ++ [h]).
Proof.
  intros Heven. rewrite !next_level_spec, !length_app. cbn [length].
  pose proof (Nat.div_mod_eq (length H0) 2) as Hdiv.
  set (m := (length H0 / 2)%nat) in *.
  assert (Hlen : length H0 = (2 * m)%nat) by lia.
  replace ((length H0 + 2 + 1) / 2)%nat with (S m)
    by (rewrite Hlen; apply (Nat.div_unique _ 2 _ 1); lia).
  replace ((length H0 + 1 + 1) / 2)%nat with (S m)
    by (rewrite Hlen; apply (Nat.div_unique _ 2 _ 0); lia).
  apply map_ext_in. intros j Hj. apply in_seq in Hj.
  unfold combined_hash. rewrite !length_app. cbn [length].
  destruct (Nat.eq_dec j m) as [->|Hne].
  - destruct (Nat.ltb_spec (2 * m + 1) (length H0 + 2)); [|lia].
    destruct (Nat.ltb_spec (2 * m + 1) (length H0 + 1)); [lia|].
    rewrite !app_nth2 by lia.
    replace (2 * m - length H0)%nat with 0%nat by lia.
    replace (2 * m + 1 - length H0)%nat with 1%nat by lia.
    reflexivity.
  - destruct (Nat.ltb_spec (2 * j + 1) (length H0 + 2)); [|lia].
    destruct (Nat.ltb_spec (2 * j + 1) (length H0 + 1)); [|lia].
    rewrite !app_nth1 by lia. reflexivity.
Qed.

(** X21.  A tree cannot tell a duplicated last leaf: for a leaf list of
    odd length, three at least, appending a copy of the last leaf gives a
    tree with the same levels above the leaves and the same root. *)
Theorem merkle_root_duplicate_last (H0 : list Hash256) (h : Hash256) :
  H0 <> [] -> (length H0 mod 2 = 0)%nat ->
  tl (make (H0 ++ [h; h])) = tl (make (H0 ++ [h])) /\
  get_root (make (H0 ++ [h; h])) = get_root (make (H0 ++ [h])).
Proof.
  intros Hne Heven.
  assert (Hlen : (2 <= length H0)%nat).
  { destruct H0 as [|a [|b H0]]; [congruence|cbn in Heven; discriminate|cbn; lia]. }
  assert (Hstep : forall (cur : list Hash256) (f : nat),
            length cur = S (S f) ->
            make cur = cur :: levels_from (S f) (next_level cur)).
  { intros cur f Hc. rewrite make_levels_from by (destruct cur; discriminate).
    rewrite Hc. cbn [levels_from]. rewrite Hc. reflexivity. }
  rewrite (Hstep (H0 ++ [h; h]) (length H0))
    by (rewrite length_app; cbn [length]; lia).
  destruct (length H0) as [|n] eqn:En; [lia|].
  rewrite (Hstep (H0 ++ [h]) n) by (rewrite length_app; cbn [length]; lia).
  rewrite next_level_duplicate_last by (rewrite En; exact Heven).
  assert (Hfuel : levels_from (S (S n)) (next_level (H0 ++ [h]))
                  = levels_from (S n) (next_level (H0 ++ [h]))).
  { apply levels_from_fuel; rewrite next_level_length, length_app, En;
      cbn [length]; hlia. }
  rewrite Hfuel. cbn [tl]. split; [reflexivity|].
  destruct (levels_from_cons (S n) (next_level (H0 ++ [h]))) as [upper Hup].
  rewrite !get_root_cons by (rewrite Hup; discriminate). reflexivity.
Qed.

Lemma merkle_root_duplicate_last_witness :
  tl (make ([repeat 1 32; repeat 2 32] ++ [repeat 3 32; repeat 3 32]))
  = tl (make ([repeat 1 32; repeat 2 32] ++ [repeat 3 32])) /\
  get_root (make ([repeat 1 32; repeat 2 32] ++ [repeat 3 32; repeat 3 32]))
  = get_root (make ([repeat 1 32; repeat 2 32] ++ [repeat 3 32])).
Proof.
  apply (merkle_root_duplicate_last [repeat 1 32; repeat 2 32] (repeat 3 32)).
  - discriminate.
  - reflexivity.
Defined.

End MerkleMutation.

(** ** The consensus engine: selection, stakes, slots *)
Module EngineFacts.
Import HybridConsensusEngine StdMapFacts.

Lemma find_map {V : Type} (f : V -> V) (k : Hash256) (m : StdMap.t V) :
  StdMap.find k (map (fun kv => (fst kv, f (snd kv))) m)
  = option_map f (StdMap.find k m).
Proof.
  induction m as [|[k' v'] m IH]; [reflexivity|].
  cbn [map StdMap.find fst snd].
  destruct (bool_decide (k = k')); [reflexivity|exact IH].
Qed.

Lemma erase_assign_fresh {V : Type} (k : Hash256) (v : V) (m : StdMap.t V) :
  StdMap.find k m = None -> StdMap.erase k (StdMap.assign k v m) = m.
Proof.
  induction m as [|[k' v'] m IH]; intros Hfind; cbn [StdMap.assign StdMap.erase].
  - rewrite bool_decide_eq_true_2 by reflexivity. reflexivity.
  - cbn [StdMap.find] in Hfind.
    destruct (bool_decide (k = k')) eqn:E; [discriminate|].
    destruct (StdMap.hash_ltb k k'); cbn [StdMap.erase].
    + rewrite bool_decide_eq_true_2 by reflexivity. reflexivity.
    + rewrite E, (IH Hfind). reflexivity.
Qed.

Lemma eligible_unlocked (s : ConsensusState) (id : Hash256) (t : Z) :
  is_validator_eligible s id t = true ->
  exists (v : Validator) (st : StakeEntry),
    StdMap.find id (validators s) = Some v /\ is_active v = true /\
    StdMap.find id (stakes s) = Some st /\ is_locked st = false /\
    (last_block_time v <= 0 \/ u64 (last_block_time v + 30) <= t).
Proof.
  unfold is_validator_eligible. intros H.
  destruct (StdMap.find id (validators s)) as [v|]; [|discriminate].
  destruct (is_active v) eqn:Ha; cbn [negb] in H; [|discriminate].
  destruct (StdMap.find id (stakes s)) as [st|]; [|discriminate].
  destruct (is_locked st) eqn:Hl; [discriminate|].
  exists v, st.
  split; [reflexivity|]. split; [exact Ha|]. split; [reflexivity|].
  split; [exact Hl|].
  destruct (Z.ltb_spec 0 (last_block_time v)); [|left; lia].
  destruct (Z.ltb_spec t (u64 (last_block_time v + 30))); [discriminate|right; lia].
Qed.

Lemma fold_gather_eligible (s : ConsensusState) (t : Z)
    (l : list (Hash256 * Validator)) :
  forall acc : list (Hash256 * Double.double) * Double.double,
    Forall (fun idw => is_validator_eligible s (fst idw) t = true) (fst acc) ->
    Forall (fun idw => is_validator_eligible s (fst idw) t = true)
      (fst (fold_left (gather s t) l acc)).
Proof.
  induction l as [|[id v] l IH]; intros [ws tw] Hacc; cbn [fold_left]; [exact Hacc|].
  apply IH. unfold gather.
  destruct (is_active v && is_validator_eligible s id t) eqn:E; [|exact Hacc].
  apply andb_true_iff in E. destruct E as [_ E].
  cbn [fst] in *. apply Forall_app. split; [exact Hacc|].
  constructor; [exact E|constructor].
Qed.

Lemma pick_in (r : Double.double) (ws : list (Hash256 * Double.double)) :
  forall (a : Double.double) (id : Hash256),
    pick r a ws = Some id -> In id (map fst ws).
Proof.
  induction ws as [|[id' w] ws IH]; intros a id H; cbn [pick] in H;
    [discriminate|].
  cbn [map fst]. destruct (Double.leb r (Double.add a w)).
  - injection H as <-. left. reflexivity.
  - right. exact (IH _ _ H).
Qed.

Lemma last_in {A : Type} (l : list A) (d : A) : l <> [] -> In (List.last l d) l.
Proof.
  induction l as [|x l IH]; intros Hne; [congruence|].
  destruct l as [|y l]; [left; reflexivity|].
  right. apply IH. discriminate.
Qed.

Lemma select_eligible (uniform_draw : Z -> Double.double) (e : Engine)
    (slot_time : Z) (previous_block_hash : Hash256) :
  select_validator_by_stake uniform_draw e slot_time previous_block_hash
  = Hash256_zero \/
  is_validator_eligible (state_ e)
    (select_validator_by_stake uniform_draw e slot_time previous_block_hash)
    slot_time = true.
Proof.
  unfold select_validator_by_stake. cbv zeta.
  destruct (validators (state_ e)) as [|kv vals] eqn:Ev; [left; reflexivity|].
  rewrite <- Ev.
  destruct (total_stake (state_ e) =? 0); [left; reflexivity|].
  pose proof (fold_gather_eligible (state_ e) slot_time (validators (state_ e))
                ([], Double.zero) ltac:(constructor)) as Hall.
  destruct (fold_left (gather (state_ e) slot_time) (validators (state_ e))
              ([], Double.zero)) as [ws tw].
  cbn [fst] in Hall.
  destruct ws as [|w0 ws'] eqn:Ews; [left; reflexivity|]. rewrite <- Ews in *.
  destruct (Double.leb tw Double.zero); [left; reflexivity|].
  right. rewrite List.Forall_forall in Hall.
  destruct (pick _ Double.zero ws) as [id|] eqn:Epick.
  - apply pick_in, in_map_iff in Epick. destruct Epick as (idw & <- & Hin).
    exact (Hall idw Hin).
  - apply Hall. apply last_in. rewrite Ews. discriminate.
Qed.

(** X22.  [select_validator_by_stake] returns the null id or the id of a
    validator that is registered, active and eligible for the slot: its
    stake entry exists and is unlocked, and its last block lies at least
    thirty seconds before the slot. *)
Theorem select_validator_by_stake_eligible (uniform_draw : Z -> Double.double)
    (e : Engine) (slot_time : Z) (previous_block_hash : Hash256) :
  let id := select_validator_by_stake uniform_draw e slot_time
              previous_block_hash in
  id = Hash256_zero \/
  exists (v : Validator) (st : StakeEntry),
    StdMap.find id (validators (state_ e)) = Some v /\ is_active v = true /\
    StdMap.find id (stakes (state_ e)) = Some st /\ is_locked st = false /\
    (last_block_time v <= 0 \/ u64 (last_block_time v + 30) <= slot_time).
Proof.
  intros id. subst id.
  destruct (select_eligible uniform_draw e slot_time previous_block_hash)
    as [Hz|He]; [left; exact Hz|right].
  apply eligible_unlocked. exact He.
Qed.

(** X23.  A validator that [add_validator] has just registered is not
    eligible, whatever the slot time, and [select_validator_by_stake] does
    not return it: its stake is locked.  [update_validator_stakes] at a
    height from the lock height on makes it eligible, and at a lower
    height does not. *)
Theorem new_validator_waits_for_maturity (e : Engine) (id : Hash256)
    (pk : PublicKey) (stake : Z) :
  min_stake_amount (state_ e) <= stake ->
  let e' := snd (add_validator e id pk stake) in
  let lock := u32 (current_height (state_ e) + stake_maturity_blocks (state_ e)) in
  (forall t : Z, is_validator_eligible (state_ e') id t = false) /\
  (forall (uniform_draw : Z -> Double.double) (t : Z) (h : Hash256),
     id <> Hash256_zero -> select_validator_by_stake uniform_draw e' t h <> id) /\
  (forall height t : Z,
     is_validator_eligible (update_validator_stakes (state_ e') height) id t
     = (lock <=? height)).
Proof.
  intros Hmin e' lock. subst e' lock. unfold add_validator.
  destruct (Z.ltb_spec stake (min_stake_amount (state_ e))); [lia|].
  cbn [snd state_].
  set (s' := set_stakes _ _ _).
  assert (Hv : StdMap.find id (validators s')
               = Some (mkValidator id stake 0 100 true pk 0 0)).
  { subst s'. cbn [validators set_stakes set_validators]. apply find_assign_eq. }
  assert (Hs : StdMap.find id (stakes s')
               = Some (mkStakeEntry id stake
                         (u32 (current_height (state_ e)
                               + stake_maturity_blocks (state_ e))) true)).
  { subst s'. cbn [stakes set_stakes set_validators current_height
                         stake_maturity_blocks]. apply find_assign_eq. }
  assert (Hnot : forall t, is_validator_eligible s' id t = false).
  { intros t. unfold is_validator_eligible. rewrite Hv, Hs. reflexivity. }
  split; [exact Hnot|]. split.
  - intros uniform_draw t h Hnz Heq.
    destruct (select_eligible uniform_draw (mkEngine s' (rng_ e)) t h)
      as [Hz|He]; [congruence|].
    rewrite Heq in He. cbn [state_] in He. rewrite Hnot in He. discriminate.
  - intros height t. unfold is_validator_eligible, update_validator_stakes.
    cbn [validators stakes set_stakes]. rewrite Hv, find_map, Hs.
    cbn [option_map is_active negb unlock is_locked lock_height andb last_block_time].
    unfold unlock. cbn [is_locked lock_height andb].
    destruct (_ <=? height); reflexivity.
Qed.

Lemma new_validator_waits_for_maturity_witness :
  let e' := snd (add_validator genesis_engine id_a pk_a 2000000) in
  let lock := u32 (current_height (state_ genesis_engine)
                   + stake_maturity_blocks (state_ genesis_engine)) in
  (forall t : Z, is_validator_eligible (state_ e') id_a t = false) /\
  (forall (uniform_draw : Z -> Double.double) (t : Z) (h : Hash256),
     id_a <> Hash256_zero -> select_validator_by_stake uniform_draw e' t h <> id_a) /\
  (forall height t : Z,
     is_validator_eligible (update_validator_stakes (state_ e') height) id_a t
     = (lock <=? height)).
Proof.
  apply (new_validator_waits_for_maturity genesis_engine id_a pk_a 2000000).
  vm_compute. discriminate.
Defined.

Lemma u64_sub_add (t s a b : Z) :
  t = u64 s -> u64 (u64 (t - a) + b) = u64 (s - a + b).
Proof.
  intros ->. unfold u64. rewrite Zplus_mod_idemp_l.
  replace (s mod 2 ^ 64 - a + b) with (s mod 2 ^ 64 + (b - a)) by lia.
  rewrite Zplus_mod_idemp_l. f_equal. lia.
Qed.

(** X24.  [remove_validator] undoes [add_validator] once the stake may be
    unlocked: after a validator with a new id was added, at any height
    from the lock height of its stake on the removal succeeds and gives
    back the validator map, the stake map and the total stake that were
    there before; below the lock height it is refused and changes
    nothing. *)
Theorem remove_validator_after_add (e : Engine) (id : Hash256) (pk : PublicKey)
    (stake height : Z) (best : Hash256) (difficulty : Z) :
  StdMap.find id (validators (state_ e)) = None ->
  StdMap.find id (stakes (state_ e)) = None ->
  min_stake_amount (state_ e) <= stake ->
  0 <= total_stake (state_ e) < 2 ^ 64 ->
  let e1 := snd (add_validator e id pk stake) in
  let lock := u32 (current_height (state_ e) + stake_maturity_blocks (state_ e)) in
  let e2 := mkEngine (set_chain (state_ e1) height best difficulty) (rng_ e1) in
  (height < lock -> remove_validator e2 id = (false, e2)) /\
  (lock <= height ->
   fst (remove_validator e2 id) = true /\
   validators (state_ (snd (remove_validator e2 id))) = validators (state_ e) /\
   stakes (state_ (snd (remove_validator e2 id))) = stakes (state_ e) /\
   total_stake (state_ (snd (remove_validator e2 id))) = total_stake (state_ e)).
Proof.
  intros Hv Hs Hmin Htot e1 lock e2. subst e1 lock e2.
  unfold add_validator.
  destruct (Z.ltb_spec stake (min_stake_amount (state_ e))); [lia|].
  cbn [snd state_ rng_]. unfold remove_validator.
  cbn [state_ set_chain validators stakes set_stakes set_validators
       current_height stake_maturity_blocks total_stake].
  rewrite !find_assign_eq. cbn [lock_height amount].
  split.
  - intros Hlt. destruct (Z.leb_spec
        (u32 (current_height (state_ e) + stake_maturity_blocks (state_ e)))
        height); [lia|reflexivity].
  - intros Hge. destruct (Z.leb_spec
        (u32 (current_height (state_ e) + stake_maturity_blocks (state_ e)))
        height); [|lia].
    cbn [fst snd state_ validators stakes total_stake set_stakes set_validators].
    rewrite !erase_assign_fresh by assumption.
    repeat split.
    unfold u64. rewrite Zminus_mod_idemp_l.
    replace (total_stake (state_ e) + stake - stake) with (total_stake (state_ e))
      by lia.
    apply Z.mod_small. exact Htot.
Qed.

Lemma remove_validator_after_add_witness :
  let e1 := snd (add_validator genesis_engine id_a pk_a 2000000) in
  let lock := u32 (current_height (state_ genesis_engine)
                   + stake_maturity_blocks (state_ genesis_engine)) in
  let e2 := mkEngine (set_chain (state_ e1) 100 id_b 0x1d00ffff) (rng_ e1) in
  (100 < lock -> remove_validator e2 id_a = (false, e2)) /\
  (lock <= 100 ->
   fst (remove_validator e2 id_a) = true /\
   validators (state_ (snd (remove_validator e2 id_a)))
   = validators (state_ genesis_engine) /\
   stakes (state_ (snd (remove_validator e2 id_a)))
   = stakes (state_ genesis_engine) /\
   total_stake (state_ (snd (remove_validator e2 id_a)))
   = total_stake (state_ genesis_engine)).
Proof.
  apply (remove_validator_after_add genesis_engine id_a pk_a 2000000 100 id_b
           0x1d00ffff).
  - reflexivity.
  - reflexivity.
  - vm_compute. discriminate.
  - vm_compute. split; [discriminate|reflexivity].
Defined.

(** X25.  [update_stake] on a registered validator with a stake entry
    succeeds for every amount, also below [min_stake_amount]: the new
    amount is written to the stake entry and to the validator, the lock of
    the stake is kept, the entries of the other ids are left as they are,
    and the total stake becomes the old total less the old amount plus the
    new one, in 64 bits; a total stake that was the sum of the stake
    entries in 64 bits is so afterwards.  For an id without validator or
    stake entry the call is refused and changes nothing. *)
Theorem update_stake_keeps_total (e : Engine) (id : Hash256)
    (new_stake_amount : Z) :
  (forall (v : Validator) (st : StakeEntry),
     StdMap.find id (validators (state_ e)) = Some v ->
     StdMap.find id (stakes (state_ e)) = Some st ->
     let e' := snd (update_stake e id new_stake_amount) in
     fst (update_stake e id new_stake_amount) = true /\
     StdMap.find id (stakes (state_ e'))
     = Some (mkStakeEntry (stake_validator_id st) new_stake_amount
               (lock_height st) (is_locked st)) /\
     StdMap.find id (validators (state_ e'))
     = Some (mkValidator (validator_id v) new_stake_amount
               (last_block_time v) (reputation_score v) (is_active v)
               (public_key v) (total_blocks_created v) (missed_slots v)) /\
     (forall id' : Hash256,
        id' <> id ->
        StdMap.find id' (stakes (state_ e'))
        = StdMap.find id' (stakes (state_ e)) /\
        StdMap.find id' (validators (state_ e'))
        = StdMap.find id' (validators (state_ e))) /\
     total_stake (state_ e')
     = u64 (u64 (total_stake (state_ e) - amount st) + new_stake_amount) /\
     (sorted_keys (stakes (state_ e)) ->
      total_stake (state_ e) = u64 (stake_sum (stakes (state_ e))) ->
      total_stake (state_ e') = u64 (stake_sum (stakes (state_ e'))))) /\
  (StdMap.find id (validators (state_ e)) = None
   \/ StdMap.find id (stakes (state_ e)) = None ->
   update_stake e id new_stake_amount = (false, e)).
Proof.
  split.
  - intros v st Hv Hs e'. subst e'. unfold update_stake. rewrite Hv, Hs.
    cbn [fst snd state_ validators stakes total_stake set_stakes set_validators].
    split; [reflexivity|]. split; [apply find_assign_eq|].
    split; [apply find_assign_eq|].
    split; [intros id' Hne; split; apply find_assign_ne; congruence|].
    split; [reflexivity|].
    intros Hsorted Htotal.
    rewrite (ValidatorFacts.stake_sum_assign id _ st _ Hsorted Hs).
    cbn [amount]. apply u64_sub_add. exact Htotal.
  - intros [Hn|Hn]; unfold update_stake; rewrite Hn; [reflexivity|].
    destruct (StdMap.find id (validators (state_ e))); reflexivity.
Qed.

(** At the engine in which [add_validator] has registered one id twice:
    there the total stake is not the sum of the stake entries. *)
Lemma update_stake_keeps_total_witness :
  let e := snd (add_validator engine_a id_a pk_a 2000000) in
  (forall (v : Validator) (st : StakeEntry),
     StdMap.find id_a (validators (state_ e)) = Some v ->
     StdMap.find id_a (stakes (state_ e)) = Some st ->
     let e' := snd (update_stake e id_a 5) in
     fst (update_stake e id_a 5) = true /\
     StdMap.find id_a (stakes (state_ e'))
     = Some (mkStakeEntry (stake_validator_id st) 5 (lock_height st)
               (is_locked st)) /\
     StdMap.find id_a (validators (state_ e'))
     = Some (mkValidator (validator_id v) 5
               (last_block_time v) (reputation_score v) (is_active v)
               (public_key v) (total_blocks_created v) (missed_slots v)) /\
     (forall id' : Hash256,
        id' <> id_a ->
        StdMap.find id' (stakes (state_ e'))
        = StdMap.find id' (stakes (state_ e)) /\
        StdMap.find id' (validators (state_ e'))
        = StdMap.find id' (validators (state_ e))) /\
     total_stake (state_ e')
     = u64 (u64 (total_stake (state_ e) - amount st) + 5) /\
     (sorted_keys (stakes (state_ e)) ->
      total_stake (state_ e) = u64 (stake_sum (stakes (state_ e))) ->
      total_stake (state_ e') = u64 (stake_sum (stakes (state_ e'))))) /\
  (StdMap.find id_a (validators (state_ e)) = None
   \/ StdMap.find id_a (stakes (state_ e)) = None ->
   update_stake e id_a 5 = (false, e)).
Proof.
  exact (update_stake_keeps_total
           (snd (add_validator engine_a id_a pk_a 2000000)) id_a 5).
Defined.

(** X26.  [update_consensus_state] never changes the difficulty: at the
    heights where the adjustment runs (the multiples of 2016) the hybrid
    adjustment returns the current value, as it does for every input.  The
    call records the height and the block hash, unlocks the stakes whose
    lock height is reached, and leaves the validators and the total stake
    as they are. *)
Theorem update_consensus_state_keeps_difficulty
    (max_target_shift : Z) (undef undef32 : Double.double -> Z)
    (e : Engine) (block_hash : Hash256) (block_height block_time : Z)
    (is_pow_block : bool) :
  let r := update_consensus_state max_target_shift undef undef32 e block_hash
             block_height block_time is_pow_block in
  fst r = true /\
  current_difficulty (state_ (snd r)) = current_difficulty (state_ e) /\
  current_height (state_ (snd r)) = block_height /\
  best_block_hash (state_ (snd r)) = block_hash /\
  validators (state_ (snd r)) = validators (state_ e) /\
  total_stake (state_ (snd r)) = total_stake (state_ e) /\
  forall id : Hash256,
    StdMap.find id (stakes (state_ (snd r)))
    = option_map (unlock block_height) (StdMap.find id (stakes (state_ e))).
Proof.
  intros r. subst r. unfold update_consensus_state. cbn [fst snd state_].
  split; [reflexivity|].
  unfold adjust_consensus_parameters.
  rewrite DifficultyFacts.calculate_hybrid_difficulty_keeps.
  destruct (DifficultyAdjustment.should_adjust_difficulty block_height);
    cbn [update_validator_stakes set_chain set_stakes current_difficulty
         current_height best_block_hash validators total_stake stakes];
    repeat (split; [reflexivity|]); intros id; apply find_map.
Qed.

Lemma slots_loop_spec (undef : Double.double -> Z)
    (uniform_draw : Z -> Double.double) (indeterminate : Z) (e : Engine)
    (remaining : nat) :
  forall (i current_time : Z) (slots : list BlockSlot),
  exists rest : list BlockSlot,
    slots_loop undef uniform_draw indeterminate e remaining i current_time slots
    = slots ++ rest /\
    length rest = remaining /\
    forall (k : nat) (slot : BlockSlot),
      nth_error rest k = Some slot ->
      slot = make_slot undef uniform_draw indeterminate e
               (match k with
                | O => current_time
                | S k' => match nth_error rest k' with
                          | Some p => slot_time p
                          | None => 0
                          end
                end) (i + Z.of_nat k).
Proof.
  induction remaining as [|n IH]; intros i t acc; cbn [slots_loop].
  - exists []. rewrite app_nil_r. split; [reflexivity|]. split; [reflexivity|].
    intros [|k] slot Hk; discriminate Hk.
  - set (first := make_slot undef uniform_draw indeterminate e t i).
    destruct (IH (i + 1) (slot_time first) (acc ++ [first]))
      as (rest & Hrun & Hlen & Hnth).
    exists (first :: rest). split; [|split].
    + rewrite Hrun, <- app_assoc. reflexivity.
    + cbn [length]. rewrite Hlen. reflexivity.
    + intros [|k] slot Hk.
      * injection Hk as <-. subst first. f_equal. cbn. lia.
      * cbn [nth_error] in Hk. apply Hnth in Hk. rewrite Hk.
        replace (i + 1 + Z.of_nat k) with (i + Z.of_nat (S k)) by lia.
        f_equal. destruct k as [|k']; reflexivity.
Qed.

(** X27.  [generate_upcoming_slots] returns [slot_count] slots; the slot
    at position k is for the block at height current_height + k + 1 (in 32
    bits), and its time is [calculate_next_slot_time] of the time of the
    slot before it (of [from_time] for the first) at height
    current_height + k.  A slot below the activation height of proof of
    stake, and every slot at an odd position, is a proof-of-work slot (the
    zero validator id, stake weight 0); an even position from the
    activation height on gets the validator selected by stake for the
    slot's time and the best block hash.  While the height is below the
    activation height the slots are 600 seconds apart. *)
Theorem generate_upcoming_slots_spec (undef : Double.double -> Z)
    (uniform_draw : Z -> Double.double) (indeterminate : Z) (e : Engine)
    (from_time slot_count : Z) :
  let s := state_ e in
  let slots :=
    generate_upcoming_slots undef uniform_draw indeterminate e from_time
      slot_count in
  length slots = Z.to_nat slot_count /\
  forall (k : nat) (slot : BlockSlot),
    nth_error slots k = Some slot ->
    let previous :=
      match k with
      | O => from_time
      | S k' => match nth_error slots k' with
                | Some p => slot_time p
                | None => 0
                end
      end in
    block_height slot = u32 (current_height s + Z.of_nat k + 1) /\
    slot_time slot
    = calculate_next_slot_time undef s previous
        (u32 (current_height s + Z.of_nat k)) /\
    (block_height slot < pos_activation_height s \/ Nat.odd k = true ->
     slot_validator_id slot = Hash256_zero /\ stake_weight slot = 0) /\
    (pos_activation_height s <= block_height slot -> Nat.even k = true ->
     slot_validator_id slot
     = select_validator_by_stake uniform_draw e (slot_time slot)
         (best_block_hash s)) /\
    (u32 (current_height s + Z.of_nat k) < pos_activation_height s ->
     slot_time slot = u64 (previous + 600)).
Proof.
  intros s slots. subst slots. unfold generate_upcoming_slots.
  destruct (slots_loop_spec undef uniform_draw indeterminate e
              (Z.to_nat slot_count) 0 from_time [])
    as (rest & Hrun & Hlen & Hnth).
  rewrite Hrun. change ([] ++ rest) with rest. split; [exact Hlen|].
  intros k slot Hk.
  pose proof (Hnth k slot Hk) as Hslot.
  change (0 + Z.of_nat k) with (Z.of_nat k) in Hslot.
  set (previous := match k with
                   | O => from_time
                   | S k' => match nth_error rest k' with
                             | Some p => slot_time p
                             | None => 0
                             end
                   end) in *.
  assert (Hmod : (Z.of_nat k mod 2 =? 0) = Nat.even k).
  { destruct (Nat.Even_or_Odd k) as [[j Hj]|[j Hj]].
    - assert (Hev : Nat.even k = true) by (apply Nat.even_spec; exists j; exact Hj).
      rewrite Hev, Hj, Nat2Z.inj_mul, Z.mul_comm, Z.mod_mul by lia. reflexivity.
    - assert (Hod : Nat.odd k = true) by (apply Nat.odd_spec; exists j; exact Hj).
      rewrite <- Nat.negb_odd, Hod, Hj, Nat2Z.inj_add, Nat2Z.inj_mul.
      rewrite Z.add_comm, Z.mul_comm, Z.mod_add by lia. reflexivity. }
  unfold make_slot in Hslot. fold s in Hslot. rewrite Hmod in Hslot.
  assert (Hheight : block_height slot = u32 (current_height s + Z.of_nat k + 1)).
  { rewrite Hslot.
    destruct (pos_activation_height s <=? _); [destruct (Nat.even k)|];
      reflexivity. }
  assert (Htime : slot_time slot
                  = calculate_next_slot_time undef s previous
                      (u32 (current_height s + Z.of_nat k))).
  { rewrite Hslot.
    destruct (pos_activation_height s <=? _); [destruct (Nat.even k)|];
      reflexivity. }
  split; [exact Hheight|]. split; [exact Htime|]. split; [|split].
  - rewrite Hheight. intros Hpow.
    destruct (Z.leb_spec (pos_activation_height s)
                (u32 (current_height s + Z.of_nat k + 1))) as [Hact|Hact].
    + destruct Hpow as [Hlt|Hodd]; [lia|].
      rewrite <- Nat.negb_odd, Hodd in Hslot. cbn [negb] in Hslot.
      rewrite Hslot. split; reflexivity.
    + rewrite Hslot. split; reflexivity.
  - rewrite Hheight. intros Hact Heven.
    destruct (Z.leb_spec (pos_activation_height s)
                (u32 (current_height s + Z.of_nat k + 1))); [|lia].
    rewrite Heven in Hslot. rewrite Htime. rewrite Hslot. reflexivity.
  - intros Hbelow. rewrite Htime. unfold calculate_next_slot_time.
    destruct (Z.ltb_spec (u32 (current_height s + Z.of_nat k))
                (pos_activation_height s)); [reflexivity|lia].
Qed.

Lemma pos_reward_factor (undef : Double.double -> Z) (halvings : nat) :
  (halvings < 64)%nat ->
  Double.to_u64 undef
    (Double.mul (Double.of_Z (Z.shiftr 5000000000 (Z.of_nat halvings)))
       (Double.div (Double.of_Z 4) (Double.of_Z 5)))
  = 5000000000 / 2 ^ Z.of_nat halvings * 4 / 5.
Proof.
  intros Hlt.
  do 64 (destruct halvings as [|halvings]; [vm_compute; reflexivity|]).
  lia.
Qed.

(** X28.  The block reward of the hybrid engine: below height 13440000
    (fewer than 64 halvings) a proof-of-work block gets the reward of
    [validation::calculate_block_reward], 5000000000 halved once for every
    210000 blocks, and a proof-of-stake block gets four fifths of it,
    rounded down; the multiplication by 0.8 in double precision loses
    nothing there.  From 64 halvings on the shift by the number of
    halvings is undefined. *)
Theorem hybrid_block_reward (undef : Double.double -> Z) (block_height : Z) :
  0 <= block_height ->
  (block_height < 13440000 ->
   calculate_block_reward undef block_height true
   = Some (validation.calculate_block_reward block_height) /\
   calculate_block_reward undef block_height false
   = Some (validation.calculate_block_reward block_height * 4 / 5)) /\
  (13440000 <= block_height ->
   forall is_pow_block : bool,
     calculate_block_reward undef block_height is_pow_block = None).
Proof.
  intros Hh.
  assert (Hk : 0 <= block_height / 210000) by (apply Z.div_pos; lia).
  split.
  - intros Hlt.
    assert (Hk64 : block_height / 210000 < 64)
      by (apply Z.div_lt_upper_bound; lia).
    assert (Hform : validation.calculate_block_reward block_height
                    = 5000000000 / 2 ^ (block_height / 210000)).
    { unfold validation.calculate_block_reward,
        validation.GENESIS_BLOCK_REWARD, validation.HALVING_INTERVAL.
      rewrite BlockFacts.halving_loop_div by lia.
      rewrite Z2Nat.id by exact Hk. reflexivity. }
    unfold calculate_block_reward.
    destruct (Z.leb_spec 64 (block_height / 210000)); [lia|].
    cbn [negb]. rewrite Hform. split.
    + rewrite Z.shiftr_div_pow2 by exact Hk. reflexivity.
    + pose proof (pos_reward_factor undef (Z.to_nat (block_height / 210000))
                    ltac:(lia)) as Hpos.
      rewrite Z2Nat.id in Hpos by exact Hk. rewrite Hpos. reflexivity.
  - intros Hge is_pow_block. unfold calculate_block_reward.
    assert (64 <= block_height / 210000)
      by (apply Z.div_le_lower_bound; lia).
    destruct (Z.leb_spec 64 (block_height / 210000)); [reflexivity|lia].
Qed.

Lemma hybrid_block_reward_witness :
  (210000 < 13440000 ->
   calculate_block_reward (fun _ => 0) 210000 true
   = Some (validation.calculate_block_reward 210000) /\
   calculate_block_reward (fun _ => 0) 210000 false
   = Some (validation.calculate_block_reward 210000 * 4 / 5)) /\
  (13440000 <= 210000 ->
   forall is_pow_block : bool,
     calculate_block_reward (fun _ => 0) 210000 is_pow_block = None).
Proof.
  apply (hybrid_block_reward (fun _ => 0) 210000). lia.
Defined.

End EngineFacts.

(** ** The target of [block.cpp] for every compact value *)
Module TargetFacts.
Import ProofOfWorkMiner ProofOfWorkFacts.

Lemma be_value_zero (l : list Z) :
  Forall is_byte l -> be_value l <= 0 -> l = repeat 0 (length l).
Proof.
  induction 1 as [|x l Hx Hl IH]; intros Hz; [reflexivity|].
  rewrite be_value_cons in Hz.
  pose proof (be_value_bound l Hl) as Hb.
  assert (Hp : 0 < 256 ^ Z.of_nat (length l)) by (apply Z.pow_pos_nonneg; lia).
  unfold is_byte in Hx.
  assert (x = 0) by nia. subst x.
  cbn [length repeat]. f_equal. apply IH. lia.
Qed.

Lemma zero_target :
  length (repeat 0 32) = 32%nat /\ Forall is_byte (repeat 0 32) /\
  be_value (repeat 0 32) = 0.
Proof.
  split; [reflexivity|]. split; [|reflexivity].
  repeat constructor; unfold is_byte; lia.
Qed.

Lemma get_target_value (bits : Z) :
  0 <= bits < 2 ^ 32 ->
  length (get_target bits) = 32%nat /\ Forall is_byte (get_target bits) /\
  be_value (get_target bits)
  = if (4 <=? Z.shiftr bits 24) && (Z.shiftr bits 24 <=? 32)
    then Z.land bits 0x7FFFFF * 256 ^ (Z.shiftr bits 24 - 3)
    else 0.
Proof.
  intros Hbits.
  assert (He : 0 <= Z.shiftr bits 24 < 256).
  { rewrite Z.shiftr_div_pow2 by lia. split; [apply Z.div_pos; lia|].
    apply Z.div_lt_upper_bound; lia. }
  assert (Hm : 0 <= Z.land bits 0x7FFFFF < 2 ^ 24).
  { change 0x7FFFFF with (Z.ones 23). rewrite Z.land_ones by lia.
    pose proof (Z.mod_pos_bound bits (2 ^ 23) ltac:(lia)). lia. }
  unfold get_target.
  set (e := Z.shiftr bits 24) in *. set (m := Z.land bits 0x7FFFFF) in *.
  destruct (Z.leb_spec e 3) as [H3|H3].
  - destruct (Z.leb_spec 4 e); [lia|]. cbn [andb]. exact zero_target.
  - destruct (Z.leb_spec 4 e); [|lia]. cbn [andb].
    destruct (Z.leb_spec e 32) as [H32|H32].
    + destruct (target_array (Z.to_nat e)
                  (Z.land (Z.shiftr m 16) 0xFF) (Z.land (Z.shiftr m 8) 0xFF)
                  (Z.land m 0xFF) ltac:(lia)) as (Hstart & Hl & Hv & Hb).
      rewrite Z2Nat.id in Hstart, Hl, Hv, Hb by lia.
      rewrite Hstart. split; [exact Hl|]. split.
      * apply Hb; apply ByteFacts.land_255_byte.
      * rewrite Hv, three_bytes by exact Hm. reflexivity.
    + assert (Hwrap : u64 (32 - e) = 2 ^ 64 + 32 - e).
      { unfold u64.
        replace (32 - e) with (2 ^ 64 + 32 - e + (-1) * 2 ^ 64) by lia.
        rewrite Z.mod_add by lia. apply Z.mod_small. lia. }
      rewrite Hwrap.
      destruct (Z.leb_spec 32 (2 ^ 64 + 32 - e)); [exact zero_target|lia].
Qed.

(** X29.  [mining::hash_meets_target] for every 32-bit compact target:
    a 32-byte hash is accepted exactly when its value as a 256-bit
    big-endian number is at most mantissa * 256 ^ (exponent - 3), with the
    mantissa the low 23 bits (bit 23 is dropped) and the exponent the top
    byte, for exponents from 4 to 32.  For every other exponent (at most
    3, or 33 and more, where the start index wraps) the target is zero and
    only the hash of 32 zero bytes is accepted. *)
Theorem hash_meets_target_spec (hash : Hash256) (bits : Z) :
  length hash = 32%nat -> Forall is_byte hash -> 0 <= bits < 2 ^ 32 ->
  let exponent := Z.shiftr bits 24 in
  let target :=
    if (4 <=? exponent) && (exponent <=? 32)
    then Z.land bits 0x7FFFFF * 256 ^ (exponent - 3)
    else 0 in
  hash_meets_target hash bits = (be_value hash <=? target) /\
  ((exponent <= 3 \/ 33 <= exponent) ->
   (hash_meets_target hash bits = true <-> hash = repeat 0 32)).
Proof.
  intros Hlen Hbytes Hbits exponent target.
  destruct (get_target_value bits Hbits) as (Hl & Hb & Hv).
  fold exponent in Hv. fold target in Hv.
  assert (Hcmp : hash_meets_target hash bits = (be_value hash <=? target)).
  { unfold hash_meets_target.
    rewrite memcmp_le_be_value; [rewrite Hv; reflexivity| |exact Hbytes|exact Hb].
    rewrite Hl. exact Hlen. }
  split; [exact Hcmp|].
  intros Hdeg. rewrite Hcmp.
  assert (Hzero : target = 0).
  { subst target.
    destruct (Z.leb_spec 4 exponent); [|reflexivity].
    destruct (Z.leb_spec exponent 32); [lia|reflexivity]. }
  rewrite Hzero. split.
  - intros Hle. apply Z.leb_le in Hle.
    rewrite <- Hlen. apply be_value_zero; assumption.
  - intros ->. reflexivity.
Qed.

Lemma hash_meets_target_spec_witness :
  let hash := repeat 0 31 ++ [1] in
  let bits := 0x03000001 in
  let exponent := Z.shiftr bits 24 in
  let target :=
    if (4 <=? exponent) && (exponent <=? 32)
    then Z.land bits 0x7FFFFF * 256 ^ (exponent - 3)
    else 0 in
  hash_meets_target hash bits = (be_value hash <=? target) /\
  ((exponent <= 3 \/ 33 <= exponent) ->
   (hash_meets_target hash bits = true <-> hash = repeat 0 32)).
Proof.
  apply (hash_meets_target_spec (repeat 0 31 ++ [1]) 0x03000001).
  - reflexivity.
  - repeat constructor; unfold is_byte; lia.
  - lia.
Defined.

End TargetFacts.
